(** * griffin::handle_map — a generational handle map

    A shallow embedding of [handle_map.h] and [impl/handle_map-inl.h]:
    the packed identifier [Id_T], the sparse table with its embedded FIFO
    free-list, the dense item and meta arrays, and the reentrant
    insertion-sort [defragment], followed by the properties proved about
    them. *)

From stdpp Require Import base numbers option list gmap.
From Stdlib Require Import ZArith Lia Bool.

Local Open Scope Z_scope.

(** ** Fixed-width integers *)

(** Unsigned wrap-around of the three field widths of [Id_T]. *)
Definition wrap32 (z : Z) : Z := z mod 2 ^ 32.
Definition wrap16 (z : Z) : Z := z mod 2 ^ 16.
Definition wrap15 (z : Z) : Z := z mod 2 ^ 15.

(** [0xFFFFFFFF]: the end-of-free-list marker, and the value of an empty
    [m_freeListFront] / [m_freeListBack]. *)
Definition sentinel : Z := 4294967295.

(** ** struct Id_T *)

(** The four bit-fields, in declaration order. *)
Record Id_T : Type := mkId {
  index : Z;        (* uint32_t index          *)
  generation : Z;   (* uint16_t generation     *)
  typeId : Z;       (* uint16_t typeId : 15    *)
  free : Z          (* uint16_t free : 1       *)
}.

(** The values the bit-fields can hold. *)
Definition Id_wf (a : Id_T) : Prop :=
  0 ≤ index a < 2 ^ 32 ∧ 0 ≤ generation a < 2 ^ 16 ∧
  0 ≤ typeId a < 2 ^ 15 ∧ 0 ≤ free a < 2.

(** [uint64_t value], unioned with the four fields: [index] occupies bits
    0..31, [generation] bits 32..47, [typeId] bits 48..62 and [free] bit 63
    (fields are allocated from the least significant bit upwards, as the
    comment on the struct requires for its sort priority). *)
Definition value (a : Id_T) : Z :=
  Z.lor (index a)
    (Z.lor (Z.shiftl (generation a) 32)
       (Z.lor (Z.shiftl (typeId a) 48) (Z.shiftl (free a) 63))).

(** [operator==], [operator!=], [operator<], [operator>]. *)
Definition Id_eq (a b : Id_T) : bool := value a =? value b.
Definition Id_ne (a b : Id_T) : bool := negb (value a =? value b).
Definition Id_lt (a b : Id_T) : bool := value a <? value b.
Definition Id_gt (a b : Id_T) : bool := value a >? value b.

(** Field-wise order with priority [free], [typeId], [generation], [index]. *)
Definition Id_lex_lt (a b : Id_T) : Prop :=
  free a < free b ∨
  (free a = free b ∧
   (typeId a < typeId b ∨
    (typeId a = typeId b ∧
     (generation a < generation b ∨
      (generation a = generation b ∧ index a < index b))))).

(** [Id_T{}] / [Id_T handle = { 0 }]. *)
Definition NullId_T : Id_T := mkId 0 0 0 0.

(** Assignments to single fields of an [Id_T] lvalue. *)
Definition set_index (v : Z) (a : Id_T) : Id_T :=
  mkId v (generation a) (typeId a) (free a).
Definition set_free (v : Z) (a : Id_T) : Id_T :=
  mkId (index a) (generation a) (typeId a) v.
(** [++id.generation] on a [uint16_t]. *)
Definition incr_generation (a : Id_T) : Id_T :=
  mkId (index a) (wrap16 (generation a + 1)) (typeId a) (free a).

(** ** struct Meta_T *)

Record Meta_T : Type := mkMeta { denseToSparse : Z }.

(** ** Vectors *)

(** [v[i]] on the sparse table; reading past the end is undefined in the
    source and yields the null id here. *)
Definition ids_at (l : list Id_T) (i : Z) : Id_T :=
  default NullId_T (l !! Z.to_nat i).

(** [std::swap(v.at(i), v.back())]. *)
Definition swap_with_back {A} (i : nat) (l : list A) : list A :=
  match l !! i, last l with
  | Some x, Some y => <[i := y]> (<[pred (length l) := x]> l)
  | _, _ => l
  end.

(** [v.pop_back()]. *)
Definition pop_back {A} (l : list A) : list A := take (pred (length l)) l.

(** [memmove(&v[j1+1], &v[j1], sizeof(A) * (i - j1))]: the block
    [v[j1 .. i-1]] is copied one place up, over [v[j1+1 .. i]]. *)
Definition memmove_up {A} (j1 i : nat) (l : list A) : list A :=
  take (S j1) l ++ take (i - j1) (drop j1 l) ++ drop (S i) l.

(** ** class handle_map<T> *)

Section HandleMap.
Context {T : Type}.

(** Growth policy of [std::vector] when [push_back] finds size = capacity
    (implementation-defined; a parameter of the development). *)
Variable vector_grow : nat → nat.

Record handle_map : Type := mkMap {
  m_freeListFront : Z;          (* uint32_t *)
  m_freeListBack : Z;           (* uint32_t *)
  m_itemTypeId : Z;             (* uint16_t *)
  m_fragmented : Z;             (* uint8_t  *)
  m_sparseIds : list Id_T;
  m_items : list T;
  m_meta : list Meta_T;
  m_items_capacity : nat        (* m_items.capacity() *)
}.

(** The constructor: empty free-list, no storage, [reserveCount] reserved. *)
Definition handle_map_new (itemTypeId : Z) (reserveCount : nat) : handle_map :=
  mkMap sentinel sentinel itemTypeId 0 [] [] [] reserveCount.

Definition size (s : handle_map) : nat := length (m_items s).
Definition capacity (s : handle_map) : nat := m_items_capacity s.
Definition getFreeListFront (s : handle_map) : Z := m_freeListFront s.
Definition getFreeListBack (s : handle_map) : Z := m_freeListBack s.

Definition freeListEmpty (s : handle_map) : bool :=
  m_freeListFront s =? sentinel.

(** Capacity of [m_items] after a [push_back]. *)
Definition capacity_after_push (s : handle_map) : nat :=
  if (length (m_items s) <? m_items_capacity s)%nat
  then m_items_capacity s else vector_grow (m_items_capacity s).

(** [Id_T insert(T&& i)]. *)
Definition insert (s : handle_map) (i : T) : Id_T * handle_map :=
  if freeListEmpty s then
    let innerId :=
      mkId (wrap32 (Z.of_nat (length (m_items s)))) 1
           (wrap15 (m_itemTypeId s)) 0 in
    let handle :=
      set_index (wrap32 (Z.of_nat (length (m_sparseIds s)))) innerId in
    (handle,
     mkMap (m_freeListFront s) (m_freeListBack s) (m_itemTypeId s) 1
           (m_sparseIds s ++ [innerId])
           (m_items s ++ [i])
           (m_meta s ++ [mkMeta (index handle)])
           (capacity_after_push s))
  else
    let outerIndex := m_freeListFront s in
    let innerId := ids_at (m_sparseIds s) outerIndex in
    let front := index innerId in
    let back := if front =? sentinel then front else m_freeListBack s in
    let innerId' :=
      set_index (wrap32 (Z.of_nat (length (m_items s)))) (set_free 0 innerId) in
    let handle := set_index outerIndex innerId' in
    (handle,
     mkMap front back (m_itemTypeId s) 1
           (<[Z.to_nat outerIndex := innerId']> (m_sparseIds s))
           (m_items s ++ [i])
           (m_meta s ++ [mkMeta (index handle)])
           (capacity_after_push s)).

(** [bool isValid(Id_T handle) const]. *)
Definition isValid (s : handle_map) (handle : Id_T) : bool :=
  if Z.of_nat (length (m_sparseIds s)) <=? index handle then false
  else
    let innerId := ids_at (m_sparseIds s) (index handle) in
    (index innerId <? Z.of_nat (length (m_items s))) &&
    (typeId handle =? m_itemTypeId s) &&
    (generation handle =? generation innerId).

(** [size_t erase(Id_T handle)]: the count removed and the new state. *)
Definition erase (s : handle_map) (handle : Id_T) : nat * handle_map :=
  if negb (isValid s handle) then (0%nat, s)
  else
    let innerId := ids_at (m_sparseIds s) (index handle) in
    let innerIndex := Z.to_nat (index innerId) in
    let innerId' :=
      set_index sentinel (incr_generation (set_free 1 innerId)) in
    let sp1 := <[Z.to_nat (index handle) := innerId']> (m_sparseIds s) in
    let '(front, sp2) :=
      if freeListEmpty s then (index handle, sp1)
      else (m_freeListFront s,
            alter (set_index (index handle))
                  (Z.to_nat (m_freeListBack s)) sp1) in
    let back := index handle in
    let '(items, meta, sp3) :=
      if (1 <? length (m_items s))%nat then
        let items1 := swap_with_back innerIndex (m_items s) in
        let meta1 := swap_with_back innerIndex (m_meta s) in
        let moved := default (mkMeta 0) (meta1 !! innerIndex) in
        (items1, meta1,
         alter (set_index (Z.of_nat innerIndex))
               (Z.to_nat (denseToSparse moved)) sp2)
      else (m_items s, m_meta s, sp2) in
    (1%nat,
     mkMap front back (m_itemTypeId s) 1 sp3
           (pop_back items) (pop_back meta) (m_items_capacity s)).

(** [size_t eraseItems(const IdSet_T& handles)]. *)
Fixpoint eraseItems (s : handle_map) (handles : list Id_T)
  : nat * handle_map :=
  match handles with
  | [] => (0%nat, s)
  | h :: rest =>
      let '(c, s1) := erase s h in
      let '(n, s2) := eraseItems s1 rest in
      ((c + n)%nat, s2)
  end.

(** The [for] loop of [clear], from position [i] on: every entry becomes
    free, its generation is incremented, and it links to the next index. *)
Fixpoint clear_loop (i : Z) (ids : list Id_T) : list Id_T :=
  match ids with
  | [] => []
  | id :: rest =>
      set_index (wrap32 (i + 1)) (incr_generation (set_free 1 id))
        :: clear_loop (i + 1) rest
  end.

(** [void clear()]. [size] is the table size cast to [uint32_t]; the loop
    runs over the first [size] entries. *)
Definition clear (s : handle_map) : handle_map :=
  let size := wrap32 (Z.of_nat (length (m_sparseIds s))) in
  if 0 <? size then
    let n := Z.to_nat size in
    let sp :=
      clear_loop 0 (take n (m_sparseIds s)) ++ drop n (m_sparseIds s) in
    mkMap 0 (size - 1) (m_itemTypeId s) 0
          (alter (set_index sentinel) (Z.to_nat (size - 1)) sp)
          [] [] (m_items_capacity s)
  else s.

(** [void reset()]. *)
Definition reset (s : handle_map) : handle_map :=
  mkMap sentinel sentinel (m_itemTypeId s) 0 [] [] [] (m_items_capacity s).

(** The assertions shared by [at] and [getInnerIndex]; [None] is a failed
    assertion. *)
Definition checked_inner (s : handle_map) (handle : Id_T) : option Id_T :=
  if Z.of_nat (length (m_sparseIds s)) <=? index handle then None
  else
    let innerId := ids_at (m_sparseIds s) (index handle) in
    if negb (typeId handle =? m_itemTypeId s) then None
    else if negb (generation handle =? generation innerId) then None
    else if negb (index innerId <? Z.of_nat (length (m_items s))) then None
    else Some innerId.

(** [T& at(Id_T handle)], read through the reference. *)
Definition at_ (s : handle_map) (handle : Id_T) : option T :=
  innerId ← checked_inner s handle;
  m_items s !! Z.to_nat (index innerId).

(** [at(handle) = v]: a write through the returned reference. *)
Definition at_put (s : handle_map) (handle : Id_T) (v : T)
  : option handle_map :=
  innerId ← checked_inner s handle;
  Some (mkMap (m_freeListFront s) (m_freeListBack s) (m_itemTypeId s)
              (m_fragmented s) (m_sparseIds s)
              (<[Z.to_nat (index innerId) := v]> (m_items s))
              (m_meta s) (m_items_capacity s)).

(** [uint32_t getInnerIndex(Id_T handle) const]. *)
Definition getInnerIndex (s : handle_map) (handle : Id_T) : option Z :=
  index <$> checked_inner s handle.

(** [n] successive [emplace(args...)] calls of [std::generate_n]. *)
Fixpoint emplace_n (n : nat) (x : T) (s : handle_map)
  : list Id_T * handle_map :=
  match n with
  | O => ([], s)
  | S k =>
      let '(h, s1) := insert s x in
      let '(hs, s2) := emplace_n k x s1 in
      (h :: hs, s2)
  end.

(** [IdSet_T emplaceItems(int n, Params... args)]; the item built from
    [args] is [x]. [None] is the failed assertion [n > 0]. *)
Definition emplaceItems (s : handle_map) (n : Z) (x : T)
  : option (list Id_T * handle_map) :=
  if n <=? 0 then None
  else
    let s0 :=
      mkMap (m_freeListFront s) (m_freeListBack s) (m_itemTypeId s) 1
            (m_sparseIds s) (m_items s) (m_meta s)
            (Nat.max (m_items_capacity s)
                     (length (m_items s) + Z.to_nat n)) in
    Some (emplace_n (Z.to_nat n) x s0).

(** *** defragment *)

(** The three arrays [defragment] works on. *)
Record arrays : Type := mkArrays {
  a_items : list T;
  a_meta : list Meta_T;
  a_sparse : list Id_T
}.

(** [maxSwaps == 0 || swaps < maxSwaps]. *)
Definition budget_left (maxSwaps swaps : Z) : bool :=
  (maxSwaps =? 0) || (swaps <? maxSwaps).

Section Defragment.
Variable comp : T → T → bool.
Variable maxSwaps : Z.

(** The [while] loop of the trivially-copyable branch. The loop
    variables satisfy [j1 = j + 1] throughout, so the recursion is on
    [j1] and [j >= 0] reads [j1 > 0]. Returns the final [j1]. *)
Fixpoint scan_trivial (items : list T) (meta : list Meta_T) (tmp : T)
  (tmpMeta : Meta_T) (j1 : nat) (sp : list Id_T) : nat * list Id_T :=
  match j1 with
  | O => (O, sp)
  | S j =>
      if comp (default tmp (items !! j)) tmp then
        scan_trivial items meta tmp tmpMeta j
          (alter (set_index (wrap32 (Z.of_nat j1)))
                 (Z.to_nat (denseToSparse (default tmpMeta (meta !! j))))
                 sp)
      else (j1, sp)
  end.

(** The [while] loop of the standard branch; it also counts swaps and
    stops when the budget is used up. *)
Fixpoint shift_standard (tmp : T) (tmpMeta : Meta_T) (j1 : nat)
  (swaps : Z) (a : arrays) : nat * Z * arrays :=
  match j1 with
  | O => (O, swaps, a)
  | S j =>
      if budget_left maxSwaps swaps &&
         comp (default tmp (a_items a !! j)) tmp then
        let moved := default tmpMeta (a_meta a !! j) in
        shift_standard tmp tmpMeta j (swaps + 1)
          (mkArrays
             (<[j1 := default tmp (a_items a !! j)]> (a_items a))
             (<[j1 := moved]> (a_meta a))
             (alter (set_index (wrap32 (Z.of_nat j1)))
                    (Z.to_nat (denseToSparse moved)) (a_sparse a)))
      else (j1, swaps, a)
  end.

(** [m_items[j1] = tmp; m_meta[j1] = tmpMeta;
    m_sparseIds[m_meta[j1].denseToSparse].index = j1;]. *)
Definition place (tmp : T) (tmpMeta : Meta_T) (j1 : nat) (a : arrays)
  : arrays :=
  mkArrays (<[j1 := tmp]> (a_items a)) (<[j1 := tmpMeta]> (a_meta a))
    (alter (set_index (wrap32 (Z.of_nat j1)))
           (Z.to_nat (denseToSparse tmpMeta)) (a_sparse a)).

(** One iteration of the [for] loop at position [i]. *)
Definition defrag_step (trivially_copyable : bool) (i : nat) (swaps : Z)
  (a : arrays) : Z * arrays :=
  match a_items a !! i, a_meta a !! i with
  | Some tmp, Some tmpMeta =>
      if trivially_copyable then
        let '(j1, sp) :=
          scan_trivial (a_items a) (a_meta a) tmp tmpMeta i (a_sparse a) in
        if (j1 =? i)%nat then (swaps, mkArrays (a_items a) (a_meta a) sp)
        else
          (swaps + 1,
           place tmp tmpMeta j1
             (mkArrays (memmove_up j1 i (a_items a))
                       (memmove_up j1 i (a_meta a)) sp))
      else
        let '(j1, swaps1, a1) := shift_standard tmp tmpMeta i swaps a in
        if (j1 =? i)%nat then (swaps1, a1)
        else (swaps1, place tmp tmpMeta j1 a1)
  | _, _ => (swaps, a)
  end.

(** The [for] loop, entered with loop variable [i] and [remaining =
    m_items.size() - i] positions to go, so that [i < m_items.size()]
    reads [remaining > 0]. Returns the final [i]. *)
Fixpoint defrag_loop (trivially_copyable : bool) (remaining : nat)
  (i : nat) (swaps : Z) (a : arrays) : nat * Z * arrays :=
  match remaining with
  | O => (i, swaps, a)
  | S r =>
      if budget_left maxSwaps swaps then
        let '(swaps1, a1) := defrag_step trivially_copyable i swaps a in
        defrag_loop trivially_copyable r (S i) swaps1 a1
      else (i, swaps, a)
  end.

(** [size_t defragment(Compare comp, size_t maxSwaps)];
    [trivially_copyable] is [std::is_trivially_copyable<T>::value]. *)
Definition defragment (trivially_copyable : bool) (s : handle_map)
  : Z * handle_map :=
  if m_fragmented s =? 0 then (0, s)
  else
    let '(i, swaps, a) :=
      defrag_loop trivially_copyable (length (m_items s) - 1) 1 0
        (mkArrays (m_items s) (m_meta s) (m_sparseIds s)) in
    (swaps,
     mkMap (m_freeListFront s) (m_freeListBack s) (m_itemTypeId s)
           (if (i =? length (m_items s))%nat then 0 else m_fragmented s)
           (a_sparse a) (a_items a) (a_meta a) (m_items_capacity s)).
End Defragment.

End HandleMap.

(** * Specification vocabulary *)

(** The item at position [i] moved to position [j1 ≤ i], the items in
    between moved one place up: an insertion step of [defragment]. *)
Definition relocate {A} (j1 i : nat) (l : list A) : list A :=
  match l !! i with
  | Some x => <[j1 := x]> (memmove_up j1 i l)
  | None => l
  end.

(** The dense position [p] once the items at [j1 .. i-1] have moved one
    place up, and once the item at [i] has also moved to [j1]. *)
Definition shifted_pos (j1 i : nat) (p : Z) : Z :=
  if decide (Z.of_nat j1 ≤ p < Z.of_nat i) then p + 1 else p.
Definition relocated_pos (j1 i : nat) (p : Z) : Z :=
  if decide (p = Z.of_nat i) then Z.of_nat j1 else shifted_pos j1 i p.

(** The sparse table whose occupied entries follow their items to the
    positions given by [f]. *)
Definition remap_with (f : Z → Z) (sp : list Id_T) : list Id_T :=
  (λ e, if decide (free e = 0) then set_index (f (index e)) e else e) <$> sp.
Definition remap (j1 i : nat) (sp : list Id_T) : list Id_T :=
  remap_with (relocated_pos j1 i) sp.

(** Two sparse tables that differ at most in the [index] of occupied
    entries. *)
Definition same_entries (sp sp' : list Id_T) : Prop :=
  length sp' = length sp ∧
  ∀ k e', sp' !! k = Some e' →
    ∃ e, sp !! k = Some e ∧ generation e' = generation e ∧
         typeId e' = typeId e ∧ free e' = free e ∧
         (free e ≠ 0 → index e' = index e).

Section Vocabulary.
Context {T : Type}.
Implicit Types (s : @handle_map T) (h : Id_T).

(** The generation stored for outer index [k]. *)
Definition gen_at s (k : Z) : Z := generation (ids_at (m_sparseIds s) k).


(** Successive [insert] calls, one per item; the handles in call order. *)
Fixpoint insert_all (vector_grow : nat → nat) s (items : list T)
  : list Id_T * handle_map :=
  match items with
  | [] => ([], s)
  | x :: rest =>
      let '(h, s1) := insert vector_grow s x in
      let '(hs, s2) := insert_all vector_grow s1 rest in
      (h :: hs, s2)
  end.

(** The dense arrays and the occupied sparse entries refer to each other. *)
Definition arrays_ok (a : @arrays T) : Prop :=
  length (a_meta a) = length (a_items a) ∧
  Z.of_nat (length (a_items a)) ≤ sentinel ∧
  (∀ p m, a_meta a !! p = Some m →
     0 ≤ denseToSparse m ∧
     ∃ e, a_sparse a !! Z.to_nat (denseToSparse m) = Some e ∧
          free e = 0 ∧ index e = Z.of_nat p) ∧
  (∀ k e, a_sparse a !! k = Some e → free e = 0 →
     0 ≤ index e ∧
     ∃ m, a_meta a !! Z.to_nat (index e) = Some m ∧
          denseToSparse m = Z.of_nat k).

(** The item an occupied sparse entry resolves to. *)
Definition resolve (a : @arrays T) (k : nat) : option T :=
  e ← a_sparse a !! k;
  if decide (free e = 0) then a_items a !! Z.to_nat (index e) else None.

(** The first [k] items are in the order [defragment] aims at. *)
Definition sorted_upto (comp : T → T → bool) (k : nat) (l : list T) : Prop :=
  ∀ i a b, (S i < k)%nat → l !! i = Some a → l !! S i = Some b →
           comp a b = false.

(** *** The embedded free-list *)

(** [chain sp cur l tail]: following the [index] links of [sp] from [cur]
    visits the free entries at the outer indices [l], in that order, and
    the link stored in the last of them is [tail]. A terminated free-list
    has [tail = sentinel]. *)
Fixpoint chain (sp : list Id_T) (cur : Z) (l : list nat) (tail : Z) : Prop :=
  match l with
  | [] => cur = tail
  | i :: l' =>
      cur = Z.of_nat i ∧
      ∃ e, sp !! i = Some e ∧ free e = 1 ∧ chain sp (index e) l' tail
  end.

(** The walk itself: follow the links from [cur] until the sentinel, for at
    most [fuel] steps. [None] when a link leaves the table or the walk has
    not reached the sentinel after [fuel] steps. *)
Fixpoint free_walk (fuel : nat) (sp : list Id_T) (cur : Z)
  : option (list nat) :=
  if cur =? sentinel then Some []
  else
    match fuel with
    | O => None
    | S f =>
        match sp !! Z.to_nat cur with
        | Some e => (Z.to_nat cur ::.) <$> free_walk f sp (index e)
        | None => None
        end
    end.

(** The free-list invariant of the data model: the walk from the front
    ends at the sentinel within one step per table entry, visits every
    entry whose free bit is set, each once and no other, and its last stop
    is the recorded back. *)
Definition free_list_ok s : Prop :=
  ∃ l, free_walk (length (m_sparseIds s)) (m_sparseIds s) (m_freeListFront s)
         = Some l ∧
       NoDup l ∧
       (∀ i e, m_sparseIds s !! i = Some e → (free e = 1 ↔ i ∈ l)) ∧
       (l ≠ [] → Some (m_freeListBack s) = Z.of_nat <$> last l).

(** *** Well-formed states *)

(** The invariants of the data model, with the free-list given as the list
    [fl] of its outer indices and the link [tail] stored in its last
    entry. *)
Record Inv s (fl : list nat) (tail : Z) : Prop := mkInv {
  inv_meta_len : length (m_meta s) = length (m_items s);
  inv_count :
    (length (m_items s) + length fl)%nat = length (m_sparseIds s);
  inv_bound : Z.of_nat (length (m_sparseIds s)) ≤ sentinel;
  inv_freebit :
    ∀ i e, m_sparseIds s !! i = Some e → free e = 0 ∨ free e = 1;
  inv_dense :
    ∀ p m, m_meta s !! p = Some m →
      0 ≤ denseToSparse m ∧
      ∃ e, m_sparseIds s !! Z.to_nat (denseToSparse m) = Some e ∧
           free e = 0 ∧ index e = Z.of_nat p;
  inv_sparse :
    ∀ i e, m_sparseIds s !! i = Some e → free e = 0 →
      0 ≤ index e ∧
      ∃ m, m_meta s !! Z.to_nat (index e) = Some m ∧
           denseToSparse m = Z.of_nat i;
  inv_chain : chain (m_sparseIds s) (m_freeListFront s) fl tail;
  inv_tail : fl = [] → tail = sentinel;
  inv_back : fl ≠ [] → Some (m_freeListBack s) = Z.of_nat <$> last fl;
  inv_nodup : NoDup fl;
  inv_free_in : ∀ i e, m_sparseIds s !! i = Some e → free e = 1 → i ∈ fl
}.

(** A well-formed state: the invariants hold with a terminated free-list. *)
Definition well_formed s : Prop := ∃ fl, Inv s fl sentinel.

(** The handle refers to an occupied entry of the sparse table. *)
Definition live s h : Prop :=
  isValid s h = true ∧ free (ids_at (m_sparseIds s) (index h)) = 0.

(** The order [defragment] aims at: no item is directly followed by one
    that [comp] ranks before it ([comp a b] reads "a is ordered after
    b"). *)
Definition dense_sorted (comp : T → T → bool) (l : list T) : Prop :=
  ∀ i a b, l !! i = Some a → l !! S i = Some b → comp a b = false.

(** What every reachable state satisfies, however the handles passed to
    [erase] were obtained. *)
Definition basic_shape s : Prop :=
  length (m_meta s) = length (m_items s) ∧
  (m_sparseIds s = [] →
   m_fragmented s = 0 ∧ m_items s = [] ∧ m_freeListFront s = sentinel).

(** The order as the specification words it: no adjacent pair with
    [less next prev]. *)
Definition ascending (less : T → T → bool) (l : list T) : Prop :=
  ∀ i prev next, l !! i = Some prev → l !! S i = Some next →
                 less next prev = false.

(** Successive [defragment] calls with the same predicate, one per swap
    budget. *)
Fixpoint defragment_all (comp : T → T → bool) (budgets : list Z)
    (trivially_copyable : bool) s : handle_map :=
  match budgets with
  | [] => s
  | m :: rest =>
      defragment_all comp rest trivially_copyable
        (snd (defragment comp m trivially_copyable s))
  end.

(** *** Histories *)

Section Reachability.
Variable vector_grow : nat → nat.
(** [std::is_trivially_copyable<T>::value], fixed by the item type. *)
Variable trivially_copyable : bool.

(** The states a container can be in: those produced from the constructor
    by the public operations. *)
Inductive reachable : handle_map → Prop :=
| reach_new itemTypeId reserveCount :
    reachable (handle_map_new itemTypeId reserveCount)
| reach_insert s x :
    reachable s → reachable (snd (insert vector_grow s x))
| reach_emplaceItems s n x hs s' :
    reachable s → emplaceItems vector_grow s n x = Some (hs, s') →
    reachable s'
| reach_erase s h : reachable s → reachable (snd (erase s h))
| reach_eraseItems s hs : reachable s → reachable (snd (eraseItems s hs))
| reach_clear s : reachable s → reachable (clear s)
| reach_reset s : reachable s → reachable (reset s)
| reach_defragment s comp maxSwaps :
    reachable s →
    reachable (snd (defragment comp maxSwaps trivially_copyable s))
| reach_at_put s h v s' :
    reachable s → at_put s h v = Some s' → reachable s'.

(** The [for] loop of this [defragment] call has visited every dense
    position: it was not stopped by the swap budget. *)
Definition pass_completed (comp : T → T → bool) (maxSwaps : Z) s : Prop :=
  (length (m_items s)
   ≤ fst (fst (defrag_loop comp maxSwaps trivially_copyable
                 (length (m_items s) - 1) 1 0
                 (mkArrays (m_items s) (m_meta s) (m_sparseIds s)))))%nat.

(** No [insert] or [erase] has occurred since construction, [clear],
    [reset] or the last [defragment] pass that ran to completion. *)
Inductive quiet : handle_map → Prop :=
| quiet_new itemTypeId reserveCount :
    quiet (handle_map_new itemTypeId reserveCount)
| quiet_clear s :
    reachable s → Z.of_nat (length (m_sparseIds s)) ≤ sentinel →
    quiet (clear s)
| quiet_reset s : quiet (reset s)
| quiet_completed s comp maxSwaps :
    pass_completed comp maxSwaps s →
    quiet (snd (defragment comp maxSwaps trivially_copyable s))
| quiet_defragment s comp maxSwaps :
    quiet s → quiet (snd (defragment comp maxSwaps trivially_copyable s))
| quiet_at_put s h v s' :
    quiet s → at_put s h v = Some s' → quiet s'.

End Reachability.

(** *** Histories with the issued handles *)

(** The operations of a history. *)
Inductive op : Type :=
| OpInsert (x : T)
| OpErase (h : Id_T)
| OpClear
| OpDefragment (comp : T → T → bool) (maxSwaps : Z).

(** A state together with the handles [insert] has returned so far, most
    recent first. *)
Record tracked : Type := mkTracked {
  t_state : @handle_map T;
  t_issued : list Id_T
}.

(** [insert] finds a free entry or room for a new outer index below the
    sentinel. *)
Definition insert_in_range s : bool :=
  negb (freeListEmpty s) ||
  (Z.of_nat (length (m_sparseIds s)) <? sentinel).

(** [erase s h] would remove the last of several dense items. *)
Definition erases_last_of_many s h : bool :=
  (1 <? length (m_items s))%nat &&
  (index (ids_at (m_sparseIds s) (index h))
   =? Z.of_nat (pred (length (m_items s)))).

(** [erase s h] is a no-op, or [h] refers to an occupied entry whose
    generation will not wrap, and is not the last of several dense items. *)
Definition erase_in_contract s h : bool :=
  negb (isValid s h) ||
  ((0 <=? index h) &&
   (free (ids_at (m_sparseIds s) (index h)) =? 0) &&
   (generation h <? 65535) &&
   negb (erases_last_of_many s h)).

(** No generation wraps in [clear]. *)
Definition clear_in_contract s : bool :=
  forallb (λ e, generation e <? 65535) (m_sparseIds s).

Section Run.
Variable vector_grow : nat → nat.
Variable trivially_copyable : bool.

Definition step_in_contract (tr : tracked) (o : op) : bool :=
  match o with
  | OpInsert _ => insert_in_range (t_state tr)
  | OpErase h => erase_in_contract (t_state tr) h
  | OpClear => clear_in_contract (t_state tr)
  | OpDefragment _ _ => true
  end.

Definition step (tr : tracked) (o : op) : tracked :=
  match o with
  | OpInsert x =>
      mkTracked (snd (insert vector_grow (t_state tr) x))
                (fst (insert vector_grow (t_state tr) x) :: t_issued tr)
  | OpErase h => mkTracked (snd (erase (t_state tr) h)) (t_issued tr)
  | OpClear => mkTracked (clear (t_state tr)) (t_issued tr)
  | OpDefragment comp maxSwaps =>
      mkTracked (snd (defragment comp maxSwaps trivially_copyable (t_state tr)))
                (t_issued tr)
  end.

(** The history [ops] run from [tr]; [None] when a step leaves the
    contract. *)
Fixpoint run (ops : list op) (tr : tracked) : option tracked :=
  match ops with
  | [] => Some tr
  | o :: rest =>
      if step_in_contract tr o then run rest (step tr o) else None
  end.

(** The history [ops] run from [tr], whatever the steps. *)
Definition run_all (ops : list op) (tr : tracked) : tracked :=
  fold_left step ops tr.

End Run.

(** Every issued handle is at most as young as its entry, and older than
    its entry when the entry is free. *)
Definition issued_older (tr : tracked) : Prop :=
  ∀ h, h ∈ t_issued tr →
    0 ≤ index h ∧
    ∃ e, m_sparseIds (t_state tr) !! Z.to_nat (index h) = Some e ∧
         generation h ≤ generation e ∧
         (free e = 1 → generation h < generation e).

(** The invariant of histories within the contract. *)
Definition history_ok (tr : tracked) : Prop :=
  (∃ fl, Inv (t_state tr) fl sentinel) ∧
  (∀ i e, m_sparseIds (t_state tr) !! i = Some e → 0 ≤ generation e) ∧
  issued_older tr.

(** *** Representation of the entries *)

(** Every entry's index is a [uint32_t]: it is not negative. *)
Definition entries_unsigned s : bool :=
  forallb (λ e, 0 <=? index e) (m_sparseIds s).

(** Every entry carries the container's type id, cut to the 15 bits of
    the [typeId] field. *)
Definition entries_typed s : bool :=
  forallb (λ e, typeId e =? wrap15 (m_itemTypeId s)) (m_sparseIds s).

End Vocabulary.

(** ** A worked scenario

    The scenario of the specification: a container of integers with type
    id 3 that receives 10, 20 and 30. *)

Definition demo_grow (c : nat) : nat := (2 * c + 1)%nat.
Definition demo_new : @handle_map Z := handle_map_new 3 0.
Definition demo_h0 : Id_T := mkId 0 1 3 0.
Definition demo_h1 : Id_T := mkId 1 1 3 0.
Definition demo_h2 : Id_T := mkId 2 1 3 0.
Definition demo_h3 : Id_T := mkId 3 1 3 0.
Definition demo4 : @handle_map Z :=
  snd (insert_all demo_grow demo_new [10; 20; 30; 40]).
Definition demo3 : @handle_map Z :=
  snd (insert demo_grow
         (snd (insert demo_grow (snd (insert demo_grow demo_new 10)) 20)) 30).


(** The state after 10, 20 and 30 were inserted and the handle of 30, the
    last dense item, was erased. *)
Definition demo_erased_last : @handle_map Z := snd (erase demo3 demo_h2).

(** Two items, the handle of the second erased, then 40 and 50 inserted. *)
(** Three items, the first one erased: outer index 0 is free. *)
Definition demo_freed : @handle_map Z := snd (erase demo3 demo_h0).
Definition demo2 : @handle_map Z :=
  snd (insert_all demo_grow demo_new [10; 20]).
Definition demo_alias_40 : Id_T * @handle_map Z :=
  insert demo_grow (snd (erase demo2 demo_h1)) 40.
Definition demo_alias_50 : Id_T * @handle_map Z :=
  insert demo_grow (snd demo_alias_40) 50.

(** 20 and 10, inserted in that order. *)
Definition demo_desc : @handle_map Z :=
  snd (insert_all demo_grow demo_new [20; 10]).

(** A short history: two items, the first one erased, one pass of
    [defragment]. *)
Definition demo_hist_ops : list (@op Z) :=
  [OpInsert 10; OpInsert 20; OpErase demo_h0; OpDefragment Z.ltb 0].
Definition demo_hist : @tracked Z :=
  run_all demo_grow true demo_hist_ops (mkTracked demo_new []).

(** * Properties *)

(** ** The packed identifier *)

Section PackedId.

Lemma lor_shiftl_add (x y n : Z) :
  0 ≤ n → 0 ≤ x < 2 ^ n → Z.lor x (Z.shiftl y n) = x + y * 2 ^ n.
Proof.
  intros Hn Hx.
  rewrite <- Z.shiftl_mul_pow2 by done.
  rewrite <- Z.lxor_lor, <- Z.add_nocarry_lxor; [done | |];
    apply Z.bits_inj'; intros k Hk; rewrite Z.land_spec, Z.bits_0;
    destruct (Z_lt_ge_dec k n).
  - rewrite Z.shiftl_spec_low by lia. apply andb_false_r.
  - rewrite <- (Z.mod_small x (2 ^ n)) by lia.
    rewrite Z.mod_pow2_bits_high by lia. done.
  - rewrite Z.shiftl_spec_low by lia. apply andb_false_r.
  - rewrite <- (Z.mod_small x (2 ^ n)) by lia.
    rewrite Z.mod_pow2_bits_high by lia. done.
Qed.

(** The packed value as a positional sum of its fields. *)
Lemma value_sum (a : Id_T) :
  Id_wf a →
  value a =
    index a + 2 ^ 32 * generation a + 2 ^ 48 * typeId a + 2 ^ 63 * free a.
Proof.
  intros (Hi & Hg & Ht & Hf). unfold value.
  assert (Z.lor (Z.shiftl (typeId a) 48) (Z.shiftl (free a) 63)
          = Z.shiftl (typeId a + free a * 2 ^ 15) 48) as ->.
  { rewrite <- (lor_shiftl_add (typeId a) (free a) 15) by lia.
    rewrite Z.shiftl_lor, Z.shiftl_shiftl by lia. done. }
  assert (Z.lor (Z.shiftl (generation a) 32)
            (Z.shiftl (typeId a + free a * 2 ^ 15) 48)
          = Z.shiftl (generation a + (typeId a + free a * 2 ^ 15) * 2 ^ 16) 32)
    as ->.
  { rewrite <- (lor_shiftl_add (generation a) _ 16) by lia.
    rewrite Z.shiftl_lor, Z.shiftl_shiftl by lia. done. }
  rewrite lor_shiftl_add by lia. lia.
Qed.

Lemma value_range (a : Id_T) : Id_wf a → 0 ≤ value a < 2 ^ 64.
Proof.
  intros Hwf. rewrite value_sum by done.
  destruct Hwf as (Hi & Hg & Ht & Hf). lia.
Qed.

Lemma value_inj (a b : Id_T) :
  Id_wf a → Id_wf b → value a = value b → a = b.
Proof.
  intros Ha Hb. rewrite !value_sum by done.
  destruct Ha as (? & ? & ? & ?), Hb as (? & ? & ? & ?).
  destruct a as [ia ga ta fa], b as [ib gb tb fb]; simpl in *.
  intros E. assert (fa = fb) by lia. assert (ta = tb) by lia.
  assert (ga = gb) by lia. assert (ia = ib) by lia. congruence.
Qed.

Lemma value_lt_lex (a b : Id_T) :
  Id_wf a → Id_wf b → value a < value b ↔ Id_lex_lt a b.
Proof.
  intros Ha Hb. rewrite !value_sum by done. unfold Id_lex_lt.
  destruct Ha as (? & ? & ? & ?), Hb as (? & ? & ? & ?). lia.
Qed.

End PackedId.

(** C8. On identifiers whose fields fit their bit widths, [==] on the
    packed 64-bit value is equality of all four fields, [!=] is its
    negation, [<] and [>] are the lexicographic order with priority free,
    typeId, generation, index, and that order is total: exactly one of
    [a < b], [a == b], [a > b] holds. *)
Theorem Id_compare_packed (a b : Id_T) :
  Id_wf a → Id_wf b →
  (Id_eq a b = true ↔ a = b) ∧
  Id_ne a b = negb (Id_eq a b) ∧
  (Id_lt a b = true ↔ Id_lex_lt a b) ∧
  (Id_gt a b = true ↔ Id_lex_lt b a) ∧
  (Id_lex_lt a b ∨ a = b ∨ Id_lex_lt b a) ∧
  ¬ (Id_lex_lt a b ∧ Id_lex_lt b a) ∧
  ¬ Id_lex_lt a a.
Proof.
  intros Ha Hb.
  pose proof (value_lt_lex a b Ha Hb) as Hab.
  pose proof (value_lt_lex b a Hb Ha) as Hba.
  pose proof (value_lt_lex a a Ha Ha) as Haa.
  unfold Id_eq, Id_ne, Id_lt, Id_gt.
  rewrite Z.eqb_eq, Z.ltb_lt, Z.gtb_ltb, Z.ltb_lt.
  repeat split; try tauto.
  - apply value_inj; done.
  - by intros ->.
  - destruct (Z.lt_total (value a) (value b)) as [?|[E|?]]; [tauto | | tauto].
    right; left. by apply value_inj.
  - intros [H1 H2]. apply Hab in H1. apply Hba in H2. lia.
  - intros H1. apply Haa in H1. lia.
Qed.

(** The theorem at two concrete identifiers. *)
Lemma Id_compare_packed_witness :
  Id_wf (mkId 7 2 3 0) ∧ Id_wf (mkId 1 1 3 1) ∧
  (Id_lt (mkId 7 2 3 0) (mkId 1 1 3 1) = true ↔
   Id_lex_lt (mkId 7 2 3 0) (mkId 1 1 3 1)).
Proof.
  assert (Id_wf (mkId 7 2 3 0)) as H1 by (unfold Id_wf; simpl; lia).
  assert (Id_wf (mkId 1 1 3 1)) as H2 by (unfold Id_wf; simpl; lia).
  split; [exact H1 | split; [exact H2 |]].
  exact (proj1 (proj2 (proj2 (Id_compare_packed _ _ H1 H2)))).
Defined.


(** ** Vector operations *)

Section VectorLemmas.
Context {A : Type}.
Implicit Types (l : list A).

Lemma length_pop_back l : length (pop_back l) = pred (length l).
Proof. unfold pop_back. rewrite length_take. lia. Qed.

Lemma lookup_pop_back l (q : nat) :
  pop_back l !! q = if decide (q < pred (length l))%nat then l !! q else None.
Proof.
  unfold pop_back. case_decide.
  - by rewrite lookup_take_lt.
  - rewrite lookup_take_ge; [done | lia].
Qed.

Lemma length_swap_with_back (i : nat) l :
  length (swap_with_back i l) = length l.
Proof.
  unfold swap_with_back. repeat case_match; rewrite ?length_insert; done.
Qed.

Lemma lookup_swap_with_back (i q : nat) l :
  (i < length l)%nat →
  swap_with_back i l !! q =
    if decide (q = i) then last l
    else if decide (q = pred (length l)) then l !! i else l !! q.
Proof.
  intros Hi. unfold swap_with_back.
  destruct (lookup_lt_is_Some_2 l i Hi) as [x Hx]. rewrite Hx.
  assert (is_Some (last l)) as [y Hy].
  { rewrite last_lookup. apply lookup_lt_is_Some_2. lia. }
  rewrite Hy. repeat case_decide; subst.
  - rewrite list_lookup_insert_eq; [done | rewrite length_insert; lia].
  - rewrite list_lookup_insert_ne by done.
    rewrite list_lookup_insert_eq; [done | lia].
  - by rewrite !list_lookup_insert_ne by done.
Qed.

End VectorLemmas.
(** ** Reading the sparse table after a field update *)

Lemma ids_at_alter_index_fields (v : Z) (k : nat) (sp : list Id_T) (i : Z) :
  generation (ids_at (alter (set_index v) k sp) i) = generation (ids_at sp i) ∧
  typeId (ids_at (alter (set_index v) k sp) i) = typeId (ids_at sp i) ∧
  free (ids_at (alter (set_index v) k sp) i) = free (ids_at sp i).
Proof.
  unfold ids_at. destruct (decide (k = Z.to_nat i)) as [->|Hne].
  - rewrite list_lookup_alter_eq. by destruct (sp !! Z.to_nat i).
  - by rewrite list_lookup_alter_ne.
Qed.

Lemma ids_at_insert_eq (sp : list Id_T) (i : Z) (e : Id_T) :
  (Z.to_nat i < length sp)%nat → ids_at (<[Z.to_nat i := e]> sp) i = e.
Proof. intros H. unfold ids_at. by rewrite list_lookup_insert_eq. Qed.

Lemma ids_at_insert_ne (sp : list Id_T) (k : nat) (i : Z) (e : Id_T) :
  k ≠ Z.to_nat i → ids_at (<[k := e]> sp) i = ids_at sp i.
Proof. intros H. unfold ids_at. by rewrite list_lookup_insert_ne. Qed.

(** ** Erasure of invalid handles and batches *)

Section EraseInvalid.
Context {T : Type}.
Implicit Types (s : @handle_map T) (h : Id_T).

Lemma erase_invalid s h : isValid s h = false → erase s h = (0%nat, s).
Proof. intros H. unfold erase. by rewrite H. Qed.

Lemma isValid_cases s h :
  Z.of_nat (length (m_sparseIds s)) ≤ index h ∨
  typeId h ≠ m_itemTypeId s ∨
  generation h ≠ gen_at s (index h) →
  isValid s h = false.
Proof.
  unfold isValid, gen_at. intros H. case_match; [done|].
  destruct H as [H|[H|H]].
  - apply Z.leb_gt in H0. lia.
  - apply Z.eqb_neq in H. rewrite H. by rewrite andb_false_r.
  - apply Z.eqb_neq in H. rewrite H. by rewrite andb_false_r.
Qed.

Lemma isValid_gen s h : isValid s h = true → generation h = gen_at s (index h).
Proof.
  unfold isValid, gen_at. case_match; [done|].
  rewrite !andb_true_iff, !Z.eqb_eq. tauto.
Qed.

Lemma isValid_range s h :
  0 ≤ index h →
  isValid s h = true →
  (Z.to_nat (index h) < length (m_sparseIds s))%nat ∧
  index (ids_at (m_sparseIds s) (index h)) < Z.of_nat (length (m_items s)) ∧
  typeId h = m_itemTypeId s.
Proof.
  intros H0. unfold isValid. case_match eqn:E; [done|]. apply Z.leb_gt in E.
  rewrite !andb_true_iff, !Z.eqb_eq, Z.ltb_lt. intros [[? ?] ?].
  split; [lia | done].
Qed.

Lemma checked_inner_valid s h :
  isValid s h = true →
  checked_inner s h = Some (ids_at (m_sparseIds s) (index h)).
Proof.
  unfold isValid, checked_inner.
  destruct (Z.of_nat (length (m_sparseIds s)) <=? index h); [done|].
  rewrite !andb_true_iff. intros [[-> ->] ->]. done.
Qed.

Lemma checked_inner_invalid s h :
  isValid s h = false → checked_inner s h = None.
Proof.
  unfold isValid, checked_inner.
  destruct (Z.of_nat (length (m_sparseIds s)) <=? index h); [done|].
  destruct (typeId h =? m_itemTypeId s); [|done].
  destruct (generation h =? generation _); [|done].
  destruct (index _ <? _); done.
Qed.

Lemma at_valid s h :
  isValid s h = true →
  at_ s h =
    m_items s !! Z.to_nat (index (ids_at (m_sparseIds s) (index h))).
Proof. intros Hv. unfold at_. by rewrite checked_inner_valid. Qed.

Lemma erase_fst s h : fst (erase s h) = if isValid s h then 1%nat else 0%nat.
Proof.
  unfold erase. destruct (isValid s h); simpl; [|done].
  repeat case_match; done.
Qed.

Lemma erase_sparse_length s h :
  length (m_sparseIds (snd (erase s h))) = length (m_sparseIds s).
Proof.
  unfold erase. destruct (isValid s h); simpl; [|done].
  repeat case_match; simplify_eq; simpl;
    rewrite ?length_alter, ?length_insert; done.
Qed.

(** A successful erase increments the generation of its own slot and of
    no other. *)
Lemma erase_gen_at s h k :
  0 ≤ index h →
  isValid s h = true →
  gen_at (snd (erase s h)) k =
    if decide (Z.to_nat k = Z.to_nat (index h))
    then wrap16 (gen_at s k + 1) else gen_at s k.
Proof.
  intros H0 Hv. pose proof (isValid_range _ _ H0 Hv) as (Hr & _).
  unfold erase, gen_at. rewrite Hv. simpl.
  destruct (freeListEmpty s), (1 <? length (m_items s))%nat; simpl;
    rewrite ?(proj1 (ids_at_alter_index_fields _ _ _ _));
    case_decide as E;
    try (by rewrite ids_at_insert_ne by done);
    unfold ids_at; rewrite E, list_lookup_insert_eq by lia; done.
Qed.

Lemma eraseItems_snd_app s l1 l2 :
  snd (eraseItems s (l1 ++ l2)) = snd (eraseItems (snd (eraseItems s l1)) l2).
Proof.
  revert s. induction l1 as [|h l1 IH]; intros s; simpl; [done|].
  destruct (erase s h) as [c s1] eqn:E1. specialize (IH s1).
  destruct (eraseItems s1 (l1 ++ l2)) as [n s2] eqn:E2.
  destruct (eraseItems s1 l1) as [n' s2'] eqn:E3. simpl in *.
  by destruct (eraseItems s2' l2).
Qed.

Lemma eraseItems_cons s h hs :
  eraseItems s (h :: hs) =
    ((fst (erase s h) + fst (eraseItems (snd (erase s h)) hs))%nat,
     snd (eraseItems (snd (erase s h)) hs)).
Proof.
  simpl. destruct (erase s h) as [c s1]. simpl.
  by destruct (eraseItems s1 hs).
Qed.






End EraseInvalid.



(** ** The free-list chain *)

Lemma chain_ext (sp sp' : list Id_T) (c : Z) (l : list nat) (t : Z) :
  (∀ i, i ∈ l → sp' !! i = sp !! i) → chain sp c l t → chain sp' c l t.
Proof.
  revert c. induction l as [|i l IH]; intros c Hext; simpl; [done|].
  intros (-> & e & He & Hf & Hc). split; [done|]. exists e.
  rewrite Hext by left. split_and!; [done..|].
  apply IH; [|done]. intros j Hj. apply Hext. by right.
Qed.

Lemma chain_lookup (sp : list Id_T) (c : Z) (l : list nat) (t : Z) (i : nat) :
  chain sp c l t → i ∈ l → ∃ e, sp !! i = Some e ∧ free e = 1.
Proof.
  revert c. induction l as [|j l IH]; intros c; simpl.
  - intros _ Hi. by apply elem_of_nil in Hi.
  - intros (-> & e & He & Hf & Hc) [->|Hi]%elem_of_cons; eauto.
Qed.

Lemma chain_front (sp : list Id_T) (c : Z) (i : nat) (l : list nat) (t : Z) :
  chain sp c (i :: l) t → c = Z.of_nat i.
Proof. by intros [? _]. Qed.

(** Appending entry [k] behind the last entry [b] of a non-empty chain. *)
Lemma chain_snoc (sp : list Id_T) (c : Z) (l : list nat) (t t' : Z)
    (b k : nat) (ek : Id_T) :
  chain sp c l t → NoDup l → last l = Some b → k ∉ l →
  sp !! k = Some ek → free ek = 1 → index ek = t' →
  chain (alter (set_index (Z.of_nat k)) b sp) c (l ++ [k]) t'.
Proof.
  revert c. induction l as [|i l IH]; intros c Hc Hnd Hb Hk Hek Hf Hi;
    [done|].
  destruct Hc as (-> & e & He & Hfe & Hc).
  apply NoDup_cons in Hnd as [Hil Hnd].
  apply not_elem_of_cons in Hk as [Hki Hk].
  simpl. split; [done|]. destruct l as [|j l].
  - simpl in Hb. simplify_eq. simpl in Hc.
    exists (set_index (Z.of_nat k) e).
    rewrite list_lookup_alter_eq, He. split_and!; [done..|].
    simpl. split; [done|]. exists ek.
    rewrite list_lookup_alter_ne by done. done.
  - rewrite last_cons_cons in Hb. exists e.
    assert (b ∈ j :: l) as Hbl.
    { apply list_elem_of_lookup. exists (pred (length (j :: l))).
      by rewrite <- last_lookup. }
    rewrite list_lookup_alter_ne by (intros ->; done).
    split_and!; [done..|]. by apply IH.
Qed.

(** ** Insertion preserves the invariants *)

Section InsertInv.
Context {T : Type}.
Variable vector_grow : nat → nat.
Implicit Types (s : @handle_map T) (h : Id_T).

Lemma wrap32_small (z : Z) : 0 ≤ z ≤ sentinel → wrap32 z = z.
Proof. intros H. unfold wrap32, sentinel in *. apply Z.mod_small. lia. Qed.

Lemma Inv_items_bound s fl tail :
  Inv s fl tail → Z.of_nat (length (m_items s)) ≤ sentinel.
Proof. intros [? Hc Hb]. lia. Qed.

Lemma Inv_front_nil s tail : Inv s [] tail → freeListEmpty s = true.
Proof.
  intros HI. unfold freeListEmpty. apply Z.eqb_eq.
  pose proof (inv_chain _ _ _ HI) as Hc. simpl in Hc.
  rewrite Hc. by apply (inv_tail _ _ _ HI).
Qed.

Lemma Inv_front_cons s k fl tail :
  Inv s (k :: fl) tail →
  m_freeListFront s = Z.of_nat k ∧ freeListEmpty s = false ∧
  ∃ e, m_sparseIds s !! k = Some e ∧ free e = 1 ∧
       chain (m_sparseIds s) (index e) fl tail.
Proof.
  intros HI. destruct (inv_chain _ _ _ HI) as (Hf & e & He & Hfe & Hc).
  split; [done|]. split; [|eauto].
  unfold freeListEmpty. apply Z.eqb_neq. rewrite Hf.
  apply lookup_lt_Some in He. pose proof (inv_bound _ _ _ HI). lia.
Qed.

(** With an empty free-list, [insert] appends a fresh sparse entry. *)
Lemma insert_fresh_Inv s tail x :
  Inv s [] tail →
  Z.of_nat (length (m_sparseIds s)) < sentinel →
  Inv (snd (insert vector_grow s x)) [] sentinel ∧
  fst (insert vector_grow s x) =
    mkId (Z.of_nat (length (m_sparseIds s))) 1 (wrap15 (m_itemTypeId s)) 0.
Proof.
  intros HI Hlt. pose proof (Inv_front_nil _ _ HI) as Hfe.
  pose proof (Inv_items_bound _ _ _ HI) as Hib.
  destruct HI as [Hml Hcnt Hbd Hfb Hd Hs Hch Htl Hbk Hnd Hfi].
  simpl in Hcnt. unfold insert. rewrite Hfe. simpl.
  rewrite !wrap32_small by lia.
  split; [|done]. split; simpl.
  - rewrite !length_app, Hml. done.
  - rewrite !length_app. simpl. lia.
  - rewrite length_app. simpl. lia.
  - intros i e [He|[Hi He]]%lookup_app_Some; [eauto|].
    apply list_lookup_singleton_Some in He as [_ <-]. by left.
  - intros p m [Hm|[Hp Hm]]%lookup_app_Some.
    + destruct (Hd p m Hm) as (H0 & e & He & Hf & Hi).
      split; [done|]. exists e. rewrite lookup_app_l; [done|].
      by apply lookup_lt_Some in He.
    + apply list_lookup_singleton_Some in Hm as [Hp' <-]. simpl.
      split; [lia|]. rewrite Nat2Z.id, list_lookup_middle by done.
      eexists; split_and!; [done..|]. simpl. lia.
  - intros i e [He|[Hi He]]%lookup_app_Some Hf.
    + destruct (Hs i e He Hf) as (H0 & m & Hm & Hdm).
      split; [done|]. exists m. rewrite lookup_app_l; [done|].
      by apply lookup_lt_Some in Hm.
    + apply list_lookup_singleton_Some in He as [Hi' <-]. simpl.
      split; [lia|]. rewrite Nat2Z.id, <- Hml, list_lookup_middle by done.
      eexists; split; [done|]. simpl. lia.
  - rewrite Hch. by apply Htl.
  - done.
  - done.
  - constructor.
  - intros i e [He|[Hi He]]%lookup_app_Some Hf; [eauto|].
    apply list_lookup_singleton_Some in He as [_ <-]. done.
Qed.

(** With free entries available, [insert] reuses the front one. *)
Lemma insert_reuse_Inv s k fl tail x :
  Inv s (k :: fl) tail →
  index (fst (insert vector_grow s x)) = Z.of_nat k ∧
  generation (fst (insert vector_grow s x)) = gen_at s (Z.of_nat k) ∧
  free (fst (insert vector_grow s x)) = 0 ∧
  ((fl = [] → tail = sentinel) → Inv (snd (insert vector_grow s x)) fl tail).
Proof.
  intros HI. pose proof (Inv_front_cons _ _ _ _ HI) as (Hf & Hfe & e & He & Hfr & Hc).
  pose proof (Inv_items_bound _ _ _ HI) as Hib.
  destruct HI as [Hml Hcnt Hbd Hfb Hd Hs Hch Htl Hbk Hnd Hfi].
  apply NoDup_cons in Hnd as [Hk Hnd].
  assert (k < length (m_sparseIds s))%nat as Hklt by by apply lookup_lt_Some in He.
  unfold insert, gen_at. rewrite Hfe, Hf. cbn [fst snd].
  unfold ids_at. rewrite Nat2Z.id, He. cbn [default from_option id].
  split; [done|]. split; [done|]. split; [done|]. intros Htl'.
  rewrite wrap32_small by lia. simpl in Hcnt.
  split; cbn [m_meta m_items m_sparseIds m_freeListFront m_freeListBack index
              generation typeId free set_index set_free].
  - by rewrite !length_app, Hml.
  - rewrite length_app, length_insert. simpl. lia.
  - by rewrite length_insert.
  - intros i e' [(-> & <- & _)|[Hne He']]%list_lookup_insert_Some; [by left|eauto].
  - intros p m [Hm|[Hp Hm]]%lookup_app_Some.
    + destruct (Hd p m Hm) as (H0 & e' & He' & Hf' & Hi).
      split; [done|]. exists e'. split; [|done].
      rewrite list_lookup_insert_ne; [done|].
      intros E. rewrite <- E in He'. simplify_eq. lia.
    + apply list_lookup_singleton_Some in Hm as [Hp' <-]. simpl.
      split; [lia|]. rewrite Nat2Z.id, list_lookup_insert_eq by done.
      eexists; split_and!; [done..|]. simpl. lia.
  - intros i e' [(-> & <- & _)|[Hne He']]%list_lookup_insert_Some Hf'.
    + simpl. split; [lia|]. rewrite Nat2Z.id, <- Hml, list_lookup_middle by done.
      eexists; split; [done|]. done.
    + destruct (Hs i e' He' Hf') as (H0 & m & Hm & Hdm).
      split; [done|]. exists m. rewrite lookup_app_l; [done|].
      by apply lookup_lt_Some in Hm.
  - eapply chain_ext; [|done]. intros i Hi.
    rewrite list_lookup_insert_ne; [done|]. by intros ->.
  - done.
  - intros Hne. destruct fl as [|j fl]; [done|].
    rewrite last_cons_cons in Hbk. rewrite <- Hbk by done.
    destruct Hc as [-> _]. case_match eqn:E; [|done].
    apply Z.eqb_eq in E.
    assert (j ∈ k :: j :: fl) as Hj by (right; left).
    destruct (chain_lookup _ _ _ _ j Hch Hj) as (ej & Hej & _).
    apply lookup_lt_Some in Hej. lia.
  - done.
  - intros i e' [(-> & <- & _)|[Hne He']]%list_lookup_insert_Some Hf'; [done|].
    specialize (Hfi i e' He' Hf'). apply elem_of_cons in Hfi as [?|?]; done.
Qed.

End InsertInv.

(** ** Erasure of a live handle *)

Lemma lookup_alter_set_index (v : Z) (j i : nat) (l : list Id_T) (e' : Id_T) :
  alter (set_index v) j l !! i = Some e' ↔
  ∃ e0, l !! i = Some e0 ∧ e' = if decide (j = i) then set_index v e0 else e0.
Proof.
  rewrite list_lookup_alter. case_decide as E.
  - subst. destruct (l !! i) as [e0|]; simpl;
      [|split; [done | intros (? & ? & _); done]].
    split; [intros E; simplify_eq; eauto | intros (? & E & ->); by simplify_eq].
  - split; [eauto | intros (? & -> & ->); done].
Qed.

Lemma chain_alter_last (sp : list Id_T) (c : Z) (l : list nat) (k : nat)
    (t v : Z) :
  chain sp c (l ++ [k]) t → k ∉ l →
  chain (alter (set_index v) k sp) c (l ++ [k]) v.
Proof.
  revert c. induction l as [|i l IH]; intros c; simpl.
  - intros (-> & e & He & Hf & Hc) _. split; [done|].
    exists (set_index v e). by rewrite list_lookup_alter_eq, He.
  - intros (-> & e & He & Hf & Hc) [Hki Hk]%not_elem_of_cons. split; [done|].
    exists e. rewrite list_lookup_alter_ne by done. split_and!; [done..|].
    by apply IH.
Qed.

Section EraseInv.
Context {T : Type}.
Implicit Types (s : @handle_map T) (h : Id_T).

(** [erase] on a valid handle, with its tuple bindings spelled out. *)
Lemma erase_valid_eq s h :
  isValid s h = true →
  (let innerId := ids_at (m_sparseIds s) (index h) in
  let innerIndex := Z.to_nat (index innerId) in
  let sp1 :=
    <[Z.to_nat (index h) :=
        set_index sentinel (incr_generation (set_free 1 innerId))]>
      (m_sparseIds s) in
  let sp2 :=
    if freeListEmpty s then sp1
    else alter (set_index (index h)) (Z.to_nat (m_freeListBack s)) sp1 in
  let big := (1 <? length (m_items s))%nat in
  let meta1 :=
    if big then swap_with_back innerIndex (m_meta s) else m_meta s in
  let moved := default (mkMeta 0) (meta1 !! innerIndex) in
  erase s h =
    (1%nat,
     mkMap (if freeListEmpty s then index h else m_freeListFront s)
           (index h) (m_itemTypeId s) 1
           (if big
            then alter (set_index (Z.of_nat innerIndex))
                       (Z.to_nat (denseToSparse moved)) sp2
            else sp2)
           (pop_back (if big then swap_with_back innerIndex (m_items s)
                      else m_items s))
           (pop_back meta1) (m_items_capacity s))).
Proof.
  intros Hv. unfold erase. rewrite Hv. simpl.
  destruct (freeListEmpty s), (1 <? length (m_items s))%nat; reflexivity.
Qed.

(** What a live handle says about the state it is valid in. *)
Lemma live_facts s fl tail h :
  Inv s fl tail → 0 ≤ index h → live s h →
  (let k := Z.to_nat (index h) in
  let e := ids_at (m_sparseIds s) (index h) in
  let p := Z.to_nat (index e) in
  index h = Z.of_nat k ∧ m_sparseIds s !! k = Some e ∧ free e = 0 ∧
  index e = Z.of_nat p ∧ (p < length (m_items s))%nat ∧
  (∃ m, m_meta s !! p = Some m ∧ denseToSparse m = Z.of_nat k) ∧
  (k ∉ fl) ∧ generation h = generation e ∧ typeId h = m_itemTypeId s).
Proof.
  intros HI H0 [Hv Hact] k e p.
  pose proof (isValid_range _ _ H0 Hv) as (Hk & Hp & Ht).
  destruct (lookup_lt_is_Some_2 _ _ Hk) as [e0 He0].
  assert (e = e0) as He by (subst e; unfold ids_at; by rewrite He0).
  rewrite <- He in He0.
  destruct (inv_sparse _ _ _ HI _ _ He0 Hact) as (Hi0 & m & Hm & Hdm).
  split_and!.
  - subst k. lia.
  - done.
  - done.
  - subst p e. lia.
  - subst p e. lia.
  - eauto.
  - intros Hin.
    destruct (chain_lookup _ _ _ _ _ (inv_chain _ _ _ HI) Hin) as (e1 & He1 & Hf1).
    fold k in He0. simplify_eq. lia.
  - apply (isValid_gen _ _ Hv).
  - done.
Qed.

(** Erasing a live handle appends its entry to the free-list and keeps the
    dense arrays and the sparse table consistent. The link left in the
    freed entry is the sentinel, unless the erased item was the last of
    several dense items: then the back-reference fix-up of the swap writes
    the dense position into the freed entry. *)
Lemma erase_live_Inv s fl tail h :
  Inv s fl tail → 0 ≤ index h → live s h →
  (let k := Z.to_nat (index h) in
   let p := Z.to_nat (index (ids_at (m_sparseIds s) (index h))) in
   fst (erase s h) = 1%nat ∧
   Inv (snd (erase s h)) (fl ++ [k])
       (if decide (1 < length (m_items s) ∧ p = pred (length (m_items s)))%nat
        then Z.of_nat p else sentinel)).
Proof.
  intros HI H0 Hlive.
  pose proof (live_facts _ _ _ _ HI H0 Hlive) as Hfacts. cbn zeta in Hfacts.
  destruct Hlive as [Hv Hact].
  pose proof (erase_valid_eq s h Hv) as Heq. cbn zeta in Heq. cbn zeta.
  rewrite Heq. cbn [fst snd]. clear Heq. split; [done|].
  set (k := Z.to_nat (index h)) in *.
  set (e := ids_at (m_sparseIds s) (index h)) in *.
  set (p := Z.to_nat (index e)) in *.
  set (n := length (m_items s)) in *.
  destruct Hfacts as (Hhk & Hek & Hfe & Hep & Hpn & (mp & Hmp & Hdmp) & Hkfl & Hgen & Htid).
  pose proof HI as [Hml Hcnt Hbd Hfb Hd Hs Hch Htl Hbk Hnd Hfi].
  fold n in Hml, Hcnt.
  assert (k < length (m_sparseIds s))%nat as Hklt by by apply lookup_lt_Some in Hek.
  set (freed := set_index sentinel (incr_generation (set_free 1 e))).
  set (sp1 := <[k := freed]> (m_sparseIds s)).
  set (front' := if freeListEmpty s then index h else m_freeListFront s).
  set (sp2 := if freeListEmpty s then sp1
              else alter (set_index (index h)) (Z.to_nat (m_freeListBack s)) sp1).
  (* the free-list after the append *)
  assert (sp2 !! k = Some freed ∧
          (∀ i e', i ≠ k → sp2 !! i = Some e' →
             ∃ e0, m_sparseIds s !! i = Some e0 ∧ free e' = free e0 ∧
                   (free e0 = 0 → e' = e0)) ∧
          chain sp2 front' (fl ++ [k]) sentinel ∧
          length sp2 = length (m_sparseIds s)) as (Hs2k & Hs2o & Hs2c & Hs2l).
  { destruct fl as [|f0 fl0] eqn:Efl.
    - pose proof (Inv_front_nil _ _ HI) as Hempty.
      subst sp2 front'. rewrite Hempty. subst sp1. split_and!.
      + by rewrite list_lookup_insert_eq.
      + intros i e' Hi He'. rewrite list_lookup_insert_ne in He' by done. eauto.
      + simpl. split; [done|]. exists freed.
        by rewrite list_lookup_insert_eq.
      + by rewrite length_insert.
    - rewrite <- Efl in *.
      assert (fl ≠ []) as Hne by (rewrite Efl; done).
      assert (freeListEmpty s = false) as Hempty.
      { rewrite Efl in HI. apply (Inv_front_cons _ _ _ _ HI). }
      specialize (Hbk Hne).
      destruct (last fl) as [b|] eqn:Hlast; [|done]. simpl in Hbk.
      injection Hbk as Hbk.
      assert (b ∈ fl) as Hbfl.
      { apply list_elem_of_lookup. exists (pred (length fl)).
        by rewrite <- last_lookup. }
      destruct (chain_lookup _ _ _ _ _ Hch Hbfl) as (eb & Heb & Hfb1).
      assert (b ≠ k) as Hbk' by (intros ->; done).
      subst sp2 front'. rewrite Hempty, Hbk, Nat2Z.id. split_and!.
      + rewrite list_lookup_alter_ne by done. subst sp1.
        by rewrite list_lookup_insert_eq.
      + intros i e' Hi [e0 [He0 ->]]%lookup_alter_set_index.
        subst sp1. rewrite list_lookup_insert_ne in He0 by done.
        exists e0. case_decide; [|done]. subst i.
        split_and!; [done..|]. simplify_eq. lia.
      + rewrite Hhk. eapply chain_snoc with (ek := freed); try done.
        * eapply chain_ext; [|done]. intros i Hi. subst sp1.
          rewrite list_lookup_insert_ne; [done|]. by intros ->.
        * subst sp1. by rewrite list_lookup_insert_eq.
      + subst sp1. by rewrite length_alter, length_insert. }
  (* the dense arrays after the swap and pop *)
  assert (∀ q, pop_back (if (1 <? n)%nat then swap_with_back p (m_meta s)
                         else m_meta s) !! q =
               if decide (q < pred n)%nat
               then (if decide (q = p) then m_meta s !! pred n
                     else m_meta s !! q)
               else None) as Hmeta'.
  { intros q. rewrite lookup_pop_back.
    destruct (1 <? n)%nat eqn:Ebig.
    - rewrite length_swap_with_back, Hml. case_decide; [|done].
      rewrite lookup_swap_with_back by lia. case_decide; [|].
      + by rewrite last_lookup, Hml.
      + rewrite Hml, decide_False by lia. done.
    - rewrite Hml. case_decide; [|done].
      apply Nat.ltb_ge in Ebig. lia. }
  destruct (1 <? n)%nat eqn:Ebig.
  - (* several items: swap with the last one *)
    apply Nat.ltb_lt in Ebig.
    destruct (lookup_lt_is_Some_2 (m_meta s) (pred n)) as [ml Hml1]; [lia|].
    destruct (Hd _ _ Hml1) as (Hdl0 & el & Hel & Hfl & Hil).
    rewrite lookup_swap_with_back by lia.
    rewrite decide_True by done. rewrite last_lookup, Hml, Hml1.
    cbn [default from_option id]. fold p.
    set (kl := Z.to_nat (denseToSparse ml)) in *.
    destruct (decide (p = pred n)) as [Hpl|Hpl].
    + (* the erased item is the last one *)
      rewrite decide_True by done.
      assert (kl = k) as Hkl.
      { rewrite <- Hpl in Hml1. simplify_eq. subst kl. rewrite Hdmp. lia. }
      rewrite Hkl. split; cbn [m_meta m_items m_sparseIds m_freeListFront
                                m_freeListBack].
      * rewrite !length_pop_back, !length_swap_with_back. by rewrite Hml.
      * rewrite length_pop_back, length_swap_with_back, length_alter, Hs2l.
        rewrite length_app. simpl. fold n. lia.
      * by rewrite length_alter, Hs2l.
      * intros i e' [e0 [He0 ->]]%lookup_alter_set_index.
        destruct (decide (i = k)) as [->|Hik].
        -- rewrite decide_True by done. simplify_eq. by right.
        -- rewrite decide_False by done.
           destruct (Hs2o _ _ Hik He0) as (e1 & He1 & -> & _). eauto.
      * intros q m Hm. rewrite Hmeta' in Hm.
        case_decide as Hq; [|done]. rewrite decide_False in Hm by lia.
        destruct (Hd _ _ Hm) as (Hd0 & eq & Heq & Hfq & Hiq).
        split; [done|]. exists eq. split; [|done].
        assert (Z.to_nat (denseToSparse m) ≠ k) as Hne.
        { intros E. rewrite E in Heq. simplify_eq. lia. }
        rewrite list_lookup_alter_ne by done.
        destruct (lookup_lt_is_Some_2 sp2 (Z.to_nat (denseToSparse m)))
          as [e2 He2]; [rewrite Hs2l; by apply lookup_lt_Some in Heq|].
        destruct (Hs2o _ _ Hne He2) as (e1 & He1 & _ & Hsame).
        simplify_eq. by rewrite He2, Hsame.
      * intros i e' [e0 [He0 ->]]%lookup_alter_set_index Hf'.
        destruct (decide (i = k)) as [->|Hik].
        -- rewrite decide_True in Hf' by done. by simplify_eq.
        -- rewrite decide_False in Hf' |- * by done.
           destruct (Hs2o _ _ Hik He0) as (e1 & He1 & Hf1 & Hsame).
           assert (e0 = e1) as -> by (apply Hsame; lia).
           destruct (Hs _ _ He1 Hf') as (Hi0 & m & Hm & Hdm).
           split; [done|]. exists m. split; [|done].
           rewrite Hmeta'.
           assert (Z.to_nat (index e1) ≠ p) as Hnp.
           { intros E. rewrite E in Hm. simplify_eq. lia. }
           apply lookup_lt_Some in Hm as Hlt. rewrite Hml in Hlt. fold n in Hlt.
           rewrite decide_True by lia. by rewrite decide_False.
      * eapply chain_alter_last; done.
      * intros E. by apply app_eq_nil in E as [_ ?].
      * intros _. rewrite last_snoc. simpl. by rewrite Hhk.
      * apply NoDup_app. split_and!; [done| |apply NoDup_singleton].
        intros x Hx ->%list_elem_of_singleton. done.
      * intros i e' [e0 [He0 ->]]%lookup_alter_set_index Hf'.
        destruct (decide (i = k)) as [->|Hik];
          [apply elem_of_app; right; by apply list_elem_of_singleton|].
        rewrite decide_False in Hf' by done.
        destruct (Hs2o _ _ Hik He0) as (e1 & He1 & Hf1 & _).
        apply elem_of_app; left. apply (Hfi _ _ He1). lia.
    + (* another item is moved into the vacated position *)
      rewrite decide_False by lia.
      assert (kl ≠ k) as Hkl.
      { intros E. rewrite E in Hel. simplify_eq. lia. }
      assert (kl ∉ fl) as Hklfl.
      { intros Hin. destruct (chain_lookup _ _ _ _ _ Hch Hin) as (e1 & He1 & Hf1).
        simplify_eq. lia. }
      assert (sp2 !! kl = Some el) as Hs2kl.
      { destruct (lookup_lt_is_Some_2 sp2 kl) as [e2 He2];
          [rewrite Hs2l; by apply lookup_lt_Some in Hel|].
        destruct (Hs2o _ _ Hkl He2) as (e1 & He1 & _ & Hsame).
        simplify_eq. by rewrite He2, Hsame. }
      split; cbn [m_meta m_items m_sparseIds m_freeListFront m_freeListBack].
      * rewrite !length_pop_back, !length_swap_with_back. by rewrite Hml.
      * rewrite length_pop_back, length_swap_with_back, length_alter, Hs2l.
        rewrite length_app. simpl. fold n. lia.
      * by rewrite length_alter, Hs2l.
      * intros i e' [e0 [He0 ->]]%lookup_alter_set_index.
        assert (free e0 = 0 ∨ free e0 = 1) as Hfe0.
        { destruct (decide (i = k)) as [->|Hik]; [simplify_eq; by right|].
          destruct (Hs2o _ _ Hik He0) as (e1 & He1 & -> & _). eauto. }
        by case_decide.
      * intros q m Hm. rewrite Hmeta' in Hm.
        case_decide as Hq; [|done]. case_decide as Hqp.
        -- subst q. simplify_eq. split; [done|]. fold kl.
           exists (set_index (Z.of_nat p) el).
           rewrite list_lookup_alter_eq, Hs2kl. done.
        -- destruct (Hd _ _ Hm) as (Hd0 & eq & Heq & Hfq & Hiq).
           split; [done|]. exists eq. split; [|done].
           assert (Z.to_nat (denseToSparse m) ≠ k) as Hne.
           { intros E. rewrite E in Heq. simplify_eq. lia. }
           assert (Z.to_nat (denseToSparse m) ≠ kl) as Hnel.
           { intros E. rewrite E in Heq. simplify_eq. lia. }
           rewrite list_lookup_alter_ne by done.
           destruct (lookup_lt_is_Some_2 sp2 (Z.to_nat (denseToSparse m)))
             as [e2 He2]; [rewrite Hs2l; by apply lookup_lt_Some in Heq|].
           destruct (Hs2o _ _ Hne He2) as (e1 & He1 & _ & Hsame).
           simplify_eq. by rewrite He2, Hsame.
      * intros i e' [e0 [He0 ->]]%lookup_alter_set_index Hf'.
        destruct (decide (kl = i)) as [<-|Hikl].
        -- simpl. split; [lia|]. rewrite Nat2Z.id, Hmeta'.
           rewrite decide_True by lia. rewrite decide_True by done.
           exists ml. split; [done|]. subst kl. lia.
        -- destruct (decide (i = k)) as [->|Hik]; [simplify_eq; done|].
           destruct (Hs2o _ _ Hik He0) as (e1 & He1 & Hf1 & Hsame).
           assert (e0 = e1) as -> by (apply Hsame; lia).
           destruct (Hs _ _ He1 Hf') as (Hi0 & m & Hm & Hdm).
           split; [done|]. exists m. split; [|done].
           rewrite Hmeta'.
           assert (Z.to_nat (index e1) ≠ p) as Hnp.
           { intros E. rewrite E in Hm. simplify_eq. lia. }
           assert (Z.to_nat (index e1) ≠ pred n) as Hnl.
           { intros E. rewrite E in Hm. simplify_eq. subst kl. lia. }
           apply lookup_lt_Some in Hm as Hlt. rewrite Hml in Hlt. fold n in Hlt.
           rewrite decide_True by lia. by rewrite decide_False.
      * eapply chain_ext; [|done]. intros i Hi.
        rewrite list_lookup_alter_ne; [done|].
        intros <-. apply elem_of_app in Hi as [?|?%list_elem_of_singleton]; done.
      * done.
      * intros _. rewrite last_snoc. simpl. by rewrite Hhk.
      * apply NoDup_app. split_and!; [done| |apply NoDup_singleton].
        intros x Hx ->%list_elem_of_singleton. done.
      * intros i e' [e0 [He0 ->]]%lookup_alter_set_index Hf'.
        assert (free e0 = 1) as Hf0 by by case_decide.
        destruct (decide (i = k)) as [->|Hik];
          [apply elem_of_app; right; by apply list_elem_of_singleton|].
        destruct (Hs2o _ _ Hik He0) as (e1 & He1 & Hf1 & _).
        apply elem_of_app; left. apply (Hfi _ _ He1). lia.
  - (* a single item: nothing to swap *)
    apply Nat.ltb_ge in Ebig.
    rewrite decide_False by lia.
    split; cbn [m_meta m_items m_sparseIds m_freeListFront m_freeListBack].
    + rewrite !length_pop_back. by rewrite Hml.
    + rewrite length_pop_back, Hs2l, length_app. simpl. fold n. lia.
    + by rewrite Hs2l.
    + intros i e' He'.
      destruct (decide (i = k)) as [->|Hik]; [simplify_eq; by right|].
      destruct (Hs2o _ _ Hik He') as (e1 & He1 & -> & _). eauto.
    + intros q m Hm. rewrite Hmeta' in Hm. case_decide; [lia | done].
    + intros i e' He' Hf'.
      destruct (decide (i = k)) as [->|Hik]; [simplify_eq; done|].
      destruct (Hs2o _ _ Hik He') as (e1 & He1 & Hf1 & Hsame).
      assert (e' = e1) as -> by (apply Hsame; lia).
      destruct (Hs _ _ He1 Hf') as (Hi0 & m & Hm & Hdm).
      apply lookup_lt_Some in Hm as Hlt. rewrite Hml in Hlt. fold n in Hlt.
      assert (Z.to_nat (index e1) = p) as E by lia.
      rewrite E in Hm. simplify_eq. lia.
    + done.
    + done.
    + intros _. rewrite last_snoc. simpl. by rewrite Hhk.
    + apply NoDup_app. split_and!; [done| |apply NoDup_singleton].
      intros x Hx ->%list_elem_of_singleton. done.
    + intros i e' He' Hf'.
      destruct (decide (i = k)) as [->|Hik];
        [apply elem_of_app; right; by apply list_elem_of_singleton|].
      destruct (Hs2o _ _ Hik He') as (e1 & He1 & Hf1 & _).
      apply elem_of_app; left. apply (Hfi _ _ He1). lia.
Qed.

End EraseInv.

(** ** FIFO reuse of freed outer indices *)

Section Fifo.
Context {T : Type}.
Variable vector_grow : nat → nat.
Implicit Types (s : @handle_map T) (h : Id_T).

Lemma insert_all_cons s x xs :
  insert_all vector_grow s (x :: xs) =
    (fst (insert vector_grow s x)
       :: fst (insert_all vector_grow (snd (insert vector_grow s x)) xs),
     snd (insert_all vector_grow (snd (insert vector_grow s x)) xs)).
Proof.
  simpl. destruct (insert vector_grow s x) as [h s1]. simpl.
  by destruct (insert_all vector_grow s1 xs).
Qed.

(** Insertions pop the free-list front to back. *)
Lemma insert_all_pops s fl tail xs :
  Inv s fl tail → (length xs ≤ length fl)%nat →
  index <$> fst (insert_all vector_grow s xs) =
    Z.of_nat <$> take (length xs) fl.
Proof.
  revert s fl. induction xs as [|x xs IH]; intros s fl HI Hlen; [done|].
  destruct fl as [|k fl]; [simpl in Hlen; lia|].
  rewrite insert_all_cons. cbn [fst length take fmap list_fmap].
  destruct (insert_reuse_Inv vector_grow s k fl tail x HI) as (Hi & _ & _ & HI').
  rewrite Hi. f_equal. simpl in Hlen.
  destruct xs as [|x' xs]; [done|].
  apply IH; [|lia]. apply HI'. intros ->. simpl in Hlen. lia.
Qed.

Lemma new_Inv (itemTypeId : Z) (reserveCount : nat) :
  Inv (@handle_map_new T itemTypeId reserveCount) [] sentinel.
Proof.
  split; simpl; try done.
  - constructor.
Qed.

Lemma insert_all_fresh_Inv s xs :
  Inv s [] sentinel →
  Z.of_nat (length (m_sparseIds s)) + Z.of_nat (length xs) ≤ sentinel →
  Inv (snd (insert_all vector_grow s xs)) [] sentinel.
Proof.
  revert s. induction xs as [|x xs IH]; intros s HI Hlen; [done|].
  rewrite insert_all_cons. cbn [snd]. simpl in Hlen.
  destruct (insert_fresh_Inv vector_grow s _ x HI) as [HI' _]; [lia|].
  apply IH; [done|].
  pose proof (inv_count _ _ _ HI') as Hc. pose proof (inv_count _ _ _ HI) as Hc0.
  assert (length (m_items (snd (insert vector_grow s x))) =
          S (length (m_items s))) as Hi.
  { unfold insert. case_match; simpl; rewrite length_app; simpl; lia. }
  simpl in Hc, Hc0. lia.
Qed.

End Fifo.

(** C6 (as amended). In a well-formed state with free-list [fl], after
    erasing three live handles [h1], [h2], [h3] in that order, the next
    insertions reuse first the outer indices already on the free-list and
    then those of [h1], [h2], [h3], in that order; with an empty free-list
    beforehand, three insertions reuse exactly the indices of [h1], [h2],
    [h3] in that order. *)
Theorem fifo_reuse {T : Type} (vector_grow : nat → nat)
    (s : @handle_map T) (fl : list nat) (h1 h2 h3 : Id_T) (xs : list T) :
  Inv s fl sentinel →
  0 ≤ index h1 → 0 ≤ index h2 → 0 ≤ index h3 →
  live s h1 →
  live (snd (erase s h1)) h2 →
  live (snd (erase (snd (erase s h1)) h2)) h3 →
  length xs = (length fl + 3)%nat →
  let s3 := snd (eraseItems s [h1; h2; h3]) in
  fst (eraseItems s [h1; h2; h3]) = 3%nat ∧
  index <$> fst (insert_all vector_grow s3 xs) =
    (Z.of_nat <$> fl) ++ [index h1; index h2; index h3] ∧
  (fl = [] →
   index <$> fst (insert_all vector_grow s3 xs) =
     [index h1; index h2; index h3]).
Proof.
  intros HI H1 H2 H3 L1 L2 L3 Hlen s3.
  destruct (erase_live_Inv s fl _ h1 HI H1 L1) as [E1 HI1].
  destruct (erase_live_Inv _ _ _ h2 HI1 H2 L2) as [E2 HI2].
  destruct (erase_live_Inv _ _ _ h3 HI2 H3 L3) as [E3 HI3].
  assert (s3 = snd (erase (snd (erase (snd (erase s h1)) h2)) h3)) as Hs3.
  { subst s3. by rewrite !eraseItems_cons. }
  assert (index <$> fst (insert_all vector_grow s3 xs) =
          (Z.of_nat <$> fl) ++ [index h1; index h2; index h3]) as Hfifo.
  { rewrite Hs3.
    rewrite (insert_all_pops vector_grow _ _ _ xs HI3)
      by (rewrite !length_app; simpl; lia).
    rewrite take_ge by (rewrite !length_app; simpl; lia).
    rewrite <- !(assoc_L (++)). rewrite fmap_app. simpl.
    rewrite !Z2Nat.id by done. done. }
  split; [|split; [done|]].
  - rewrite !eraseItems_cons. cbn [fst snd eraseItems]. rewrite E1, E2, E3. done.
  - intros ->. by rewrite Hfifo.
Qed.

Lemma demo4_Inv : Inv demo4 [] sentinel.
Proof.
  apply insert_all_fresh_Inv; [apply new_Inv | vm_compute; discriminate].
Qed.

(** The theorem on the worked scenario with a fourth item 40: handles 3, 1
    and 0 are erased in that order, and three insertions reuse the outer
    indices 3, 1, 0. *)
Lemma fifo_reuse_witness :
  index <$> fst (insert_all demo_grow
                   (snd (eraseItems demo4 [demo_h3; demo_h1; demo_h0]))
                   [50; 60; 70]) = [3; 1; 0].
Proof.
  refine (proj2 (proj2 (fifo_reuse demo_grow demo4 [] demo_h3 demo_h1 demo_h0
                          [50; 60; 70] demo4_Inv _ _ _ _ _ _ _)) eq_refl).
  - vm_compute. discriminate.
  - vm_compute. discriminate.
  - vm_compute. discriminate.
  - split; vm_compute; reflexivity.
  - split; vm_compute; reflexivity.
  - split; vm_compute; reflexivity.
  - reflexivity.
Defined.

(** C6 as stated fails: from a state whose free-list already holds outer
    index 0, erasing the valid handles 1, 2, 3 and inserting three items
    reuses the outer indices 0, 1, 2. *)
Lemma fifo_any_state_fails :
  ¬ (∀ (s : @handle_map Z) (h1 h2 h3 : Id_T) (x1 x2 x3 : Z),
       isValid s h1 = true →
       isValid (snd (erase s h1)) h2 = true →
       isValid (snd (erase (snd (erase s h1)) h2)) h3 = true →
       index <$> fst (insert_all demo_grow
                        (snd (eraseItems s [h1; h2; h3])) [x1; x2; x3]) =
         [index h1; index h2; index h3]).
Proof.
  intros H.
  specialize (H (snd (erase demo4 demo_h0)) demo_h1 demo_h2 demo_h3 50 60 70).
  vm_compute in H. specialize (H eq_refl eq_refl eq_refl). discriminate.
Qed.

(** ** Erasing the last of several dense items *)

(** In a terminated chain the walk finds exactly the chain. *)
Lemma chain_free_walk (sp : list Id_T) (c : Z) (l : list nat) (fuel : nat) :
  chain sp c l sentinel → Z.of_nat (length sp) ≤ sentinel →
  (length l ≤ fuel)%nat → free_walk fuel sp c = Some l.
Proof.
  revert c fuel. induction l as [|i l IH]; intros c fuel Hc Hb Hf.
  - simpl in Hc. subst c. by destruct fuel.
  - destruct Hc as (-> & e & He & Hfe & Hc).
    destruct fuel as [|fuel]; [simpl in Hf; lia|]. simpl.
    assert ((Z.of_nat i =? sentinel) = false) as ->.
    { apply Z.eqb_neq. apply lookup_lt_Some in He. lia. }
    rewrite Nat2Z.id, He. rewrite (IH _ fuel); [done..|]. simpl in Hf. lia.
Qed.

(** Well-formed states satisfy the free-list invariant. *)
Lemma well_formed_free_list_ok {T : Type} (s : @handle_map T) :
  well_formed s → free_list_ok s.
Proof.
  intros [fl HI]. exists fl. split_and!.
  - apply chain_free_walk; [apply HI.. |].
    pose proof (inv_count _ _ _ HI). lia.
  - apply HI.
  - intros i e He. split; [apply (inv_free_in _ _ _ HI _ _ He)|].
    intros Hin.
    destruct (chain_lookup _ _ _ _ _ (inv_chain _ _ _ HI) Hin) as (e' & He' & Hf).
    by simplify_eq.
  - apply HI.
Qed.

(** C1 (the code breaks it). After 10, 20, 30 are inserted and the handle
    of 30 — the last dense item — is erased, the freed entry 2 is the front
    and the back of the free-list but its link is 2, not the sentinel: the
    back-reference fix-up of the swap has overwritten it. The walk from the
    front never reaches the sentinel, whatever the number of steps. *)
Theorem erase_last_breaks_free_list :
  isValid demo3 demo_h2 = true ∧
  m_freeListFront demo_erased_last = 2 ∧
  m_freeListBack demo_erased_last = 2 ∧
  m_sparseIds demo_erased_last !! 2%nat = Some (mkId 2 2 3 1) ∧
  (∀ fuel, free_walk fuel (m_sparseIds demo_erased_last)
             (m_freeListFront demo_erased_last) = None) ∧
  ¬ free_list_ok demo_erased_last.
Proof.
  assert (∀ fuel, free_walk fuel (m_sparseIds demo_erased_last) 2 = None) as Hw.
  { induction fuel as [|fuel IH]; [done|].
    change (free_walk (S fuel) (m_sparseIds demo_erased_last) 2)
      with ((2%nat ::.) <$> free_walk fuel (m_sparseIds demo_erased_last) 2).
    by rewrite IH. }
  split_and!; try (vm_compute; reflexivity).
  - exact Hw.
  - intros (l & Hl & _). change (m_freeListFront demo_erased_last) with 2 in Hl.
    by rewrite Hw in Hl.
Qed.

(** C2 (the code breaks it). With 10 and 20 stored, 20 — the last dense
    item — is erased, then 40 and 50 are inserted. Both insertions return
    the same handle; it resolves to 50; three items are stored but every
    valid handle resolves to 10 or to 50, so 40 is out of reach. *)
Theorem erase_last_aliases_handles :
  isValid demo2 demo_h1 = true ∧
  at_ (snd demo_alias_40) (fst demo_alias_40) = Some 40 ∧
  fst demo_alias_50 = fst demo_alias_40 ∧
  at_ (snd demo_alias_50) (fst demo_alias_40) = Some 50 ∧
  m_items (snd demo_alias_50) = [10; 40; 50] ∧
  size (snd demo_alias_50) = 3%nat ∧
  (∀ h, isValid (snd demo_alias_50) h = true →
        at_ (snd demo_alias_50) h = Some 10 ∨
        at_ (snd demo_alias_50) h = Some 50).
Proof.
  split_and!; try (vm_compute; reflexivity).
  intros h Hv. rewrite at_valid by done.
  pose proof (isValid_gen _ _ Hv) as Hg. revert Hv Hg.
  unfold isValid, gen_at, ids_at.
  change (m_sparseIds (snd demo_alias_50))
    with [mkId 0 1 3 0; mkId 2 2 3 0].
  change (m_items (snd demo_alias_50)) with [10; 40; 50].
  destruct (Z.of_nat _ <=? index h) eqn:E; [done|]. apply Z.leb_gt in E.
  simpl in E.
  destruct (Z.to_nat (index h)) as [|[|n]] eqn:En; [| |lia]; simpl; auto.
Qed.

(** ** clear and reset *)

Lemma wrap16_succ_ne (g : Z) : wrap16 (g + 1) ≠ g.
Proof.
  unfold wrap16. intros E.
  pose proof (Z.div_mod (g + 1) (2 ^ 16)) as Hdm.
  pose proof (Z.mod_pos_bound (g + 1) (2 ^ 16)) as Hb.
  change (2 ^ 16) with 65536 in *. lia.
Qed.

Section ClearReset.
Context {T : Type}.
Implicit Types (s : @handle_map T) (h : Id_T).

Lemma length_clear_loop (i : Z) (l : list Id_T) :
  length (@clear_loop i l) = length l.
Proof. revert i. induction l as [|e l IH]; intros i; simpl; [done|]. by rewrite IH. Qed.

Lemma lookup_clear_loop (i : Z) (l : list Id_T) (j : nat) :
  @clear_loop i l !! j =
    (λ e, set_index (wrap32 (i + Z.of_nat j + 1))
            (incr_generation (set_free 1 e))) <$> l !! j.
Proof.
  revert i j. induction l as [|e l IH]; intros i j; [done|].
  destruct j as [|j]; simpl.
  - by rewrite Z.add_0_r.
  - rewrite IH. destruct (l !! j); simpl; [|done].
    do 3 f_equal. lia.
Qed.

(** [clear] on a non-empty table that fits the 32-bit index range. *)
Lemma clear_nonempty s :
  m_sparseIds s ≠ [] → Z.of_nat (length (m_sparseIds s)) ≤ sentinel →
  clear s =
    mkMap 0 (Z.of_nat (length (m_sparseIds s)) - 1) (m_itemTypeId s) 0
      (alter (set_index sentinel) (pred (length (m_sparseIds s)))
         (@clear_loop 0 (m_sparseIds s)))
      [] [] (m_items_capacity s).
Proof.
  intros Hne Hb. unfold clear.
  assert (0 < length (m_sparseIds s))%nat as Hpos
    by (destruct (m_sparseIds s); simpl; [done | lia]).
  rewrite wrap32_small by lia.
  assert ((0 <? Z.of_nat (length (m_sparseIds s))) = true) as ->
    by (apply Z.ltb_lt; lia).
  rewrite Nat2Z.id, firstn_all, drop_all, app_nil_r.
  do 2 f_equal. lia.
Qed.

Lemma clear_empty s : m_sparseIds s = [] → clear s = s.
Proof. intros E. unfold clear. by rewrite E. Qed.

Lemma lookup_clear_sparse s (j : nat) :
  m_sparseIds s ≠ [] → Z.of_nat (length (m_sparseIds s)) ≤ sentinel →
  m_sparseIds (clear s) !! j =
    (λ e, mkId (if decide (j = pred (length (m_sparseIds s)))
                then sentinel else Z.of_nat j + 1)
               (wrap16 (generation e + 1)) (typeId e) 1)
      <$> m_sparseIds s !! j.
Proof.
  intros Hne Hb. rewrite clear_nonempty by done. cbn [m_sparseIds].
  rewrite list_lookup_alter.
  case_decide as E.
  - rewrite lookup_clear_loop, <- E, decide_True by done.
    by destruct (m_sparseIds s !! _).
  - rewrite lookup_clear_loop, decide_False by done.
    destruct (m_sparseIds s !! j) eqn:Ej; simpl; [|done].
    unfold set_index, incr_generation, set_free. simpl.
    rewrite wrap32_small; [done|]. apply lookup_lt_Some in Ej. lia.
Qed.

Lemma chain_seq (sp : list Id_T) (a m : nat) :
  (∀ j, (a ≤ j < a + m)%nat →
     ∃ e, sp !! j = Some e ∧ free e = 1 ∧
          index e = if decide (S j = a + m)%nat then sentinel
                    else Z.of_nat (S j)) →
  (0 < m)%nat →
  chain sp (Z.of_nat a) (seq a m) sentinel.
Proof.
  revert a. induction m as [|m IH]; intros a H Hm; [lia|].
  simpl. split; [done|].
  destruct (H a) as (e & He & Hf & Hi); [lia|]. exists e.
  split_and!; [done..|]. rewrite Hi.
  destruct m as [|m].
  - rewrite decide_True by lia. done.
  - rewrite decide_False by lia. apply IH; [|lia].
    intros j Hj. destruct (H j) as (e' & He' & Hf' & Hi'); [lia|].
    exists e'. split_and!; [done..|]. rewrite Hi'.
    repeat case_decide; lia || done.
Qed.

(** After [clear], every entry of the table is on the free-list, in index
    order. *)
Lemma clear_Inv s :
  Z.of_nat (length (m_sparseIds s)) ≤ sentinel →
  (m_sparseIds s = [] → m_items s = [] ∧ m_meta s = [] ∧
                        m_freeListFront s = sentinel) →
  Inv (clear s) (seq 0 (length (m_sparseIds s))) sentinel.
Proof.
  intros Hb Hempty. destruct (decide (m_sparseIds s = [])) as [E|Hne].
  - rewrite clear_empty by done. destruct (Hempty E) as (Ei & Em & Ef).
    rewrite E. split; simpl; rewrite ?E, ?Ei, ?Em; try done.
    constructor.
  - assert (0 < length (m_sparseIds s))%nat as Hpos
      by (destruct (m_sparseIds s); simpl; [done | lia]).
    assert (length (m_sparseIds (clear s)) = length (m_sparseIds s)) as Hlen.
    { rewrite clear_nonempty by done. simpl.
      by rewrite length_alter, length_clear_loop. }
    split.
    + by rewrite clear_nonempty.
    + rewrite Hlen, length_seq, clear_nonempty by done. done.
    + by rewrite Hlen.
    + intros i e. rewrite lookup_clear_sparse by done.
      destruct (m_sparseIds s !! i); simpl; intros [= <-]. by right.
    + intros p m. rewrite clear_nonempty by done. done.
    + intros i e. rewrite lookup_clear_sparse by done.
      destruct (m_sparseIds s !! i); simpl; intros [= <-]. done.
    + assert (m_freeListFront (clear s) = Z.of_nat 0) as ->
        by by rewrite clear_nonempty.
      apply chain_seq; [|done]. intros j Hj.
      destruct (lookup_lt_is_Some_2 (m_sparseIds s) j) as [e He]; [lia|].
      eexists. rewrite lookup_clear_sparse, He by done. simpl.
      split; [reflexivity|]. split; [done|]. simpl.
      repeat case_decide; lia || done.
    + done.
    + intros _. rewrite clear_nonempty by done. simpl.
      rewrite last_lookup, length_seq, lookup_seq_lt by lia. simpl.
      f_equal. lia.
    + apply NoDup_seq.
    + intros i e He _. apply elem_of_seq. apply lookup_lt_Some in He. lia.
Qed.

End ClearReset.

(** C7. After [clear] the container is empty, no handle is valid, every
    entry of the sparse table is free with its generation incremented — so
    a handle that was valid before no longer matches the generation of its
    entry — and the entries form one free-list in index order. After
    [reset] the container is empty with its capacity unchanged and no
    handle valid; but a handle issued before the reset is valid again once
    an insertion recreates its entry. *)
Theorem clear_reset_effects {T : Type} (s : @handle_map T) :
  Z.of_nat (length (m_sparseIds s)) ≤ sentinel →
  (m_sparseIds s = [] → m_items s = []) →
  (size (clear s) = 0%nat ∧
   (∀ h, isValid (clear s) h = false) ∧
   (∀ h, 0 ≤ index h → isValid s h = true →
         gen_at (clear s) (index h) = wrap16 (generation h + 1) ∧
         generation h ≠ gen_at (clear s) (index h)) ∧
   (∀ j e, m_sparseIds s !! j = Some e →
           m_sparseIds (clear s) !! j =
             Some (mkId (if decide (j = pred (length (m_sparseIds s)))
                         then sentinel else Z.of_nat j + 1)
                        (wrap16 (generation e + 1)) (typeId e) 1)) ∧
   (m_sparseIds s ≠ [] →
    m_freeListFront (clear s) = 0 ∧
    m_freeListBack (clear s) = Z.of_nat (length (m_sparseIds s)) - 1 ∧
    chain (m_sparseIds (clear s)) 0 (seq 0 (length (m_sparseIds s)))
      sentinel)) ∧
  (size (reset s) = 0%nat ∧ capacity (reset s) = capacity s ∧
   (∀ h, isValid (reset s) h = false)) ∧
  (let before := insert demo_grow demo_new 10 in
   let after := insert demo_grow (reset (snd before)) 50 in
   isValid (snd after) (fst before) = true ∧
   at_ (snd after) (fst before) = Some 50).
Proof.
  intros Hb Hempty.
  assert (∀ j e, m_sparseIds s !! j = Some e →
            m_sparseIds (clear s) !! j =
              Some (mkId (if decide (j = pred (length (m_sparseIds s)))
                          then sentinel else Z.of_nat j + 1)
                         (wrap16 (generation e + 1)) (typeId e) 1)) as Hlook.
  { intros j e He. rewrite lookup_clear_sparse, He; [done| |done].
    intros E. by rewrite E in He. }
  split; [|split].
  - split_and!.
    + unfold size. destruct (decide (m_sparseIds s = [])) as [E|Hne].
      * rewrite clear_empty, Hempty by done. done.
      * by rewrite clear_nonempty.
    + intros h. destruct (decide (m_sparseIds s = [])) as [E|Hne].
      * rewrite clear_empty by done. unfold isValid, ids_at.
        rewrite E, Hempty by done. simpl.
        case_match; [done|]. done.
      * unfold isValid. case_match; [done|].
        assert (m_items (clear s) = []) as -> by by rewrite clear_nonempty.
        simpl. unfold ids_at.
        destruct (m_sparseIds (clear s) !! Z.to_nat (index h)) as [e'|] eqn:E';
          [|done].
        rewrite lookup_clear_sparse in E' by done.
        destruct (m_sparseIds s !! Z.to_nat (index h)); [|done].
        simpl in E'. injection E' as <-. simpl.
        change (Z.of_nat 0) with 0.
        destruct (decide (Z.to_nat (index h) = pred (length (m_sparseIds s))));
          [done|].
        assert ((Z.of_nat (Z.to_nat (index h)) + 1 <? 0) = false) as ->;
          [apply Z.ltb_ge; lia | done].
    + intros h H0 Hv.
      pose proof (isValid_range _ _ H0 Hv) as (Hk & _).
      destruct (lookup_lt_is_Some_2 _ _ Hk) as [e He].
      assert (gen_at (clear s) (index h) = wrap16 (generation h + 1)) as Hg.
      { unfold gen_at at 1, ids_at. rewrite (Hlook _ _ He). simpl.
        rewrite (isValid_gen _ _ Hv). unfold gen_at, ids_at. by rewrite He. }
      split; [done|]. rewrite Hg. intros E. by apply (wrap16_succ_ne (generation h)).
    + exact Hlook.
    + intros Hne. rewrite clear_nonempty by done. simpl. split_and!; [done..|].
      assert (Inv (clear s) (seq 0 (length (m_sparseIds s))) sentinel) as HI
        by (apply clear_Inv; [done | intros E; done]).
      pose proof (inv_chain _ _ _ HI) as Hc.
      rewrite clear_nonempty in Hc by done. exact Hc.
  - split_and!; [done..|]. intros h. unfold isValid. simpl.
    case_match eqn:E; [done|]. unfold ids_at. simpl.
    destruct (index h); done.
  - split; vm_compute; reflexivity.
Qed.

(** The theorem on the worked scenario: after [clear], handle 1 is stale. *)
Lemma clear_reset_effects_witness :
  size (clear demo3) = 0%nat ∧ isValid (clear demo3) demo_h1 = false ∧
  generation demo_h1 ≠ gen_at (clear demo3) (index demo_h1).
Proof.
  assert (Z.of_nat (length (m_sparseIds demo3)) ≤ sentinel) as Hb
    by (vm_compute; discriminate).
  assert (m_sparseIds demo3 = [] → m_items demo3 = []) as He
    by (vm_compute; discriminate).
  destruct (clear_reset_effects demo3 Hb He) as ((Hs & Hv & Hg & _) & _).
  split; [exact Hs|]. split; [apply Hv|].
  apply Hg; [vm_compute; discriminate | vm_compute; reflexivity].
Defined.

(** ** defragment: shapes of the arrays *)

Section DefragBasics.
Context {T : Type}.
Variable comp : T → T → bool.
Variable maxSwaps : Z.
Implicit Types (a : @arrays T) (s : @handle_map T).

Lemma scan_trivial_spec (items : list T) (meta : list Meta_T) (tmp : T)
    (tmpMeta : Meta_T) (j1 : nat) (sp : list Id_T) :
  (fst (scan_trivial comp items meta tmp tmpMeta j1 sp) ≤ j1)%nat ∧
  length (snd (scan_trivial comp items meta tmp tmpMeta j1 sp)) = length sp.
Proof.
  revert sp. induction j1 as [|j IH]; intros sp; simpl; [done|].
  case_match; simpl; [|done].
  destruct (IH (alter (set_index (wrap32 (Z.of_nat (S j))))
                  (Z.to_nat (denseToSparse (default tmpMeta (meta !! j)))) sp))
    as [H1 H2].
  rewrite length_alter in H2. split; [lia | done].
Qed.

Lemma shift_standard_spec (tmp : T) (tmpMeta : Meta_T) (j1 : nat)
    (swaps : Z) a :
  let r := shift_standard comp maxSwaps tmp tmpMeta j1 swaps a in
  (fst (fst r) ≤ j1)%nat ∧ swaps ≤ snd (fst r) ∧
  length (a_items (snd r)) = length (a_items a) ∧
  length (a_meta (snd r)) = length (a_meta a) ∧
  length (a_sparse (snd r)) = length (a_sparse a).
Proof.
  revert swaps a. induction j1 as [|j IH]; intros swaps a; simpl;
    [split_and!; done || lia|].
  case_match; simpl; [|split_and!; done || lia].
  match goal with |- context [shift_standard _ _ _ _ _ ?sw ?a'] =>
    destruct (IH sw a') as (H1 & H2 & H3 & H4 & H5) end.
  simpl in *. rewrite ?length_insert, ?length_alter in *.
  split_and!; done || lia.
Qed.

Lemma length_memmove_up {A} (j1 i : nat) (l : list A) :
  (j1 ≤ i < length l)%nat → length (memmove_up j1 i l) = length l.
Proof.
  intros H. unfold memmove_up.
  rewrite !length_app, !length_take, !length_drop. lia.
Qed.

Lemma defrag_step_spec (tc : bool) (i : nat) (swaps : Z) a :
  length (a_meta a) = length (a_items a) →
  let r := defrag_step comp maxSwaps tc i swaps a in
  swaps ≤ fst r ∧
  length (a_items (snd r)) = length (a_items a) ∧
  length (a_meta (snd r)) = length (a_meta a) ∧
  length (a_sparse (snd r)) = length (a_sparse a).
Proof.
  intros Hlen. unfold defrag_step.
  destruct (a_items a !! i) as [tmp|] eqn:Ei; [|simpl; split_and!; done || lia].
  destruct (a_meta a !! i) as [tmpMeta|] eqn:Em; [|simpl; split_and!; done || lia].
  apply lookup_lt_Some in Ei as Hi.
  destruct tc.
  - destruct (scan_trivial comp (a_items a) (a_meta a) tmp tmpMeta i (a_sparse a))
      as [j1 sp] eqn:Es.
    pose proof (scan_trivial_spec (a_items a) (a_meta a) tmp tmpMeta i (a_sparse a))
      as [H1 H2].
    rewrite Es in H1, H2. simpl in H1, H2.
    case_match; simpl; [split_and!; done || lia|].
    rewrite !length_insert, length_alter, !length_memmove_up by lia.
    split_and!; done || lia.
  - destruct (shift_standard comp maxSwaps tmp tmpMeta i swaps a)
      as [[j1 swaps1] a1] eqn:Es.
    pose proof (shift_standard_spec tmp tmpMeta i swaps a) as Hs.
    cbn zeta in Hs. rewrite Es in Hs. simpl in Hs.
    destruct Hs as (H1 & H2 & H3 & H4 & H5).
    case_match; simpl; rewrite ?length_insert, ?length_alter;
      split_and!; done || lia.
Qed.

Lemma defrag_loop_spec (tc : bool) (r i : nat) (swaps : Z) a :
  length (a_meta a) = length (a_items a) →
  let res := defrag_loop comp maxSwaps tc r i swaps a in
  (i ≤ fst (fst res) ≤ i + r)%nat ∧ swaps ≤ snd (fst res) ∧
  length (a_items (snd res)) = length (a_items a) ∧
  length (a_meta (snd res)) = length (a_meta a) ∧
  length (a_sparse (snd res)) = length (a_sparse a).
Proof.
  revert i swaps a. induction r as [|r IH]; intros i swaps a Hlen; simpl;
    [split_and!; done || lia|].
  case_match; simpl; [|split_and!; done || lia].
  destruct (defrag_step comp maxSwaps tc i swaps a) as [swaps1 a1] eqn:Es.
  pose proof (defrag_step_spec tc i swaps a Hlen) as Hs.
  cbn zeta in Hs. rewrite Es in Hs. simpl in Hs.
  destruct Hs as (H1 & H2 & H3 & H4).
  destruct (IH (S i) swaps1 a1) as (H5 & H6 & H7 & H8 & H9); [congruence|].
  split_and!; try lia; congruence.
Qed.

Lemma defrag_loop_index (tc : bool) (r i : nat) (swaps : Z) a :
  (fst (fst (defrag_loop comp maxSwaps tc r i swaps a)) ≤ i + r)%nat.
Proof.
  revert i swaps a. induction r as [|r IH]; intros i swaps a; simpl; [lia|].
  case_match; simpl; [|lia].
  destruct (defrag_step comp maxSwaps tc i swaps a) as [swaps1 a1].
  specialize (IH (S i) swaps1 a1). lia.
Qed.

(** Without items the loop does not run. *)
Lemma defragment_no_items (tc : bool) s :
  m_items s = [] → defragment comp maxSwaps tc s = (0, s).
Proof.
  intros E. unfold defragment. case_match; [done|].
  rewrite E. simpl. destruct s; simpl in *. by subst.
Qed.

Lemma defragment_not_fragmented (tc : bool) s :
  m_fragmented s = 0 → defragment comp maxSwaps tc s = (0, s).
Proof. intros E. unfold defragment. by rewrite E. Qed.

End DefragBasics.

(** ** Moving one item towards the front *)

Section Relocate.
Context {A : Type}.
Implicit Types (l : list A).

Lemma lookup_memmove_up (j1 i q : nat) l :
  (j1 ≤ i < length l)%nat →
  memmove_up j1 i l !! q =
    if decide (q ≤ j1)%nat then l !! q
    else if decide (q ≤ i)%nat then l !! pred q else l !! q.
Proof.
  intros H. unfold memmove_up.
  destruct (decide (q ≤ j1)%nat) as [Hq|Hq].
  - rewrite lookup_app_l by (rewrite length_take; lia).
    rewrite lookup_take_lt by lia. done.
  - rewrite lookup_app_r by (rewrite length_take; lia).
    rewrite length_take, Nat.min_l by lia.
    destruct (decide (q ≤ i)%nat) as [Hi|Hi].
    + rewrite lookup_app_l by (rewrite length_take, length_drop; lia).
      rewrite lookup_take_lt by lia. rewrite lookup_drop. f_equal. lia.
    + rewrite lookup_app_r by (rewrite length_take, length_drop; lia).
      rewrite length_take, length_drop, Nat.min_l by lia.
      rewrite lookup_drop. f_equal. lia.
Qed.

Lemma memmove_up_same (i : nat) l : memmove_up i i l = l.
Proof.
  unfold memmove_up. rewrite Nat.sub_diag. simpl. apply take_drop.
Qed.

(** One more element moved up: the step of the standard shifting loop. *)
Lemma memmove_up_step (j i : nat) l (x : A) :
  (S j ≤ i < length l)%nat → l !! j = Some x →
  <[S j := x]> (memmove_up (S j) i l) = memmove_up j i l.
Proof.
  intros H Hx. apply list_eq. intros q.
  rewrite list_lookup_insert, length_memmove_up by lia.
  rewrite !lookup_memmove_up by lia.
  repeat case_decide; try lia; try done.
  destruct_and!. subst q. simpl. done.
Qed.

Lemma length_relocate (j1 i : nat) l :
  (j1 ≤ i < length l)%nat → length (relocate j1 i l) = length l.
Proof.
  intros H. unfold relocate. destruct (l !! i); [|done].
  rewrite length_insert, length_memmove_up; [done | lia].
Qed.

Lemma lookup_relocate (j1 i q : nat) l :
  (j1 ≤ i < length l)%nat →
  relocate j1 i l !! q =
    if decide (q < j1)%nat then l !! q
    else if decide (q = j1) then l !! i
    else if decide (q ≤ i)%nat then l !! pred q else l !! q.
Proof.
  intros H. unfold relocate.
  destruct (lookup_lt_is_Some_2 l i) as [x Hx]; [lia|]. rewrite Hx.
  rewrite list_lookup_insert, length_memmove_up by lia.
  rewrite lookup_memmove_up by lia.
  repeat case_decide; try lia; try done.
Qed.

Lemma relocate_same (i : nat) l : relocate i i l = l.
Proof.
  unfold relocate. destruct (l !! i) eqn:E; [|done].
  rewrite memmove_up_same. by apply list_insert_id.
Qed.

(** Relocation keeps the items: it is a permutation. *)
Lemma relocate_Permutation (j1 i : nat) l :
  (j1 ≤ i < length l)%nat → relocate j1 i l ≡ₚ l.
Proof.
  intros H. destruct (lookup_lt_is_Some_2 l i) as [x Hx]; [lia|].
  assert (relocate j1 i l =
          take j1 l ++ x :: take (i - j1) (drop j1 l) ++ drop (S i) l) as ->.
  { apply list_eq. intros q. rewrite lookup_relocate by lia.
    destruct (decide (q < j1)%nat).
    - rewrite lookup_app_l by (rewrite length_take; lia).
      by rewrite lookup_take_lt.
    - rewrite lookup_app_r by (rewrite length_take; lia).
      rewrite length_take, Nat.min_l by lia.
      destruct (decide (q = j1)) as [->|]; [by rewrite Nat.sub_diag|].
      destruct (q - j1)%nat as [|d] eqn:Ed; [lia|]. simpl.
      destruct (decide (q ≤ i)%nat).
      + rewrite lookup_app_l by (rewrite length_take, length_drop; lia).
        rewrite lookup_take_lt, lookup_drop by lia. f_equal. lia.
      + rewrite lookup_app_r by (rewrite length_take, length_drop; lia).
        rewrite length_take, length_drop, Nat.min_l, lookup_drop by lia.
        f_equal. lia. }
  rewrite <- (take_drop j1 l) at 4.
  apply Permutation_app_head.
  rewrite <- (take_drop (i - j1) (drop j1 l)) at 2.
  rewrite drop_drop.
  assert (drop (j1 + (i - j1)) l = x :: drop (S i) l) as ->.
  { replace (j1 + (i - j1))%nat with i by lia. by apply drop_S. }
  by rewrite Permutation_middle.
Qed.

End Relocate.

(** ** The sparse table follows the moved items *)

Lemma set_index_set_index (v w : Z) (e : Id_T) :
  set_index v (set_index w e) = set_index v e.
Proof. done. Qed.

Lemma set_index_same (e : Id_T) : set_index (index e) e = e.
Proof. by destruct e. Qed.

Lemma lookup_remap_with (f : Z → Z) (sp : list Id_T) (k : nat) :
  remap_with f sp !! k =
    (λ e, if decide (free e = 0) then set_index (f (index e)) e else e)
      <$> sp !! k.
Proof. unfold remap_with. by rewrite list_lookup_fmap. Qed.

Lemma length_remap_with (f : Z → Z) (sp : list Id_T) :
  length (remap_with f sp) = length sp.
Proof. unfold remap_with. by rewrite length_fmap. Qed.

Lemma remap_with_id (f : Z → Z) (sp : list Id_T) :
  (∀ e, e ∈ sp → free e = 0 → f (index e) = index e) →
  remap_with f sp = sp.
Proof.
  intros H. apply list_eq. intros k. rewrite lookup_remap_with.
  destruct (sp !! k) as [e|] eqn:E; [|done]. simpl. case_decide; [|done].
  rewrite H; [by rewrite set_index_same | by eapply list_elem_of_lookup_2 | done].
Qed.

Lemma same_entries_refl (sp : list Id_T) : same_entries sp sp.
Proof. split; [done|]. intros k e He. exists e. done. Qed.

Lemma same_entries_trans (sp1 sp2 sp3 : list Id_T) :
  same_entries sp1 sp2 → same_entries sp2 sp3 → same_entries sp1 sp3.
Proof.
  intros [L1 H1] [L2 H2]. split; [congruence|]. intros k e3 He3.
  destruct (H2 _ _ He3) as (e2 & He2 & Hg2 & Ht2 & Hf2 & Hi2).
  destruct (H1 _ _ He2) as (e1 & He1 & Hg1 & Ht1 & Hf1 & Hi1).
  exists e1. split_and!; try congruence.
  intros Hne. rewrite Hi2, Hi1; [done..|]. congruence.
Qed.

Lemma same_entries_remap_with (f : Z → Z) (sp : list Id_T) :
  same_entries sp (remap_with f sp).
Proof.
  split; [apply length_remap_with|]. intros k e'.
  rewrite lookup_remap_with. destruct (sp !! k) as [e|]; [|done]. simpl.
  intros [= <-]. exists e. case_decide; done.
Qed.

Section Remap.
Context {T : Type}.
Implicit Types (a : @arrays T).

(** In consistent arrays, position [p] belongs to one occupied entry. *)
Lemma arrays_ok_slot a (p : nat) (m : Meta_T) (k : nat) (e : Id_T) :
  arrays_ok a → a_meta a !! p = Some m →
  a_sparse a !! k = Some e → free e = 0 → index e = Z.of_nat p →
  k = Z.to_nat (denseToSparse m).
Proof.
  intros (_ & _ & _ & Hs) Hm He Hf Hi.
  destruct (Hs _ _ He Hf) as (_ & m' & Hm' & Hd).
  rewrite Hi, Nat2Z.id in Hm'. simplify_eq. lia.
Qed.

(** The write of the shifting loops: the entry of the item at [j] now
    refers to [j + 1]. *)
Lemma remap_shift_step a (j i : nat) (m : Meta_T) :
  arrays_ok a → (S j ≤ i)%nat → a_meta a !! j = Some m →
  alter (set_index (Z.of_nat (S j))) (Z.to_nat (denseToSparse m))
    (remap_with (shifted_pos (S j) i) (a_sparse a))
  = remap_with (shifted_pos j i) (a_sparse a).
Proof.
  intros Hok Hji Hm. pose proof Hok as (_ & _ & Hd & Hs).
  destruct (Hd _ _ Hm) as (H0 & e & He & Hf & Hi).
  apply list_eq. intros k.
  rewrite list_lookup_alter, !lookup_remap_with.
  destruct (decide (Z.to_nat (denseToSparse m) = k)) as [<-|Hk].
  - rewrite He. simpl. rewrite !decide_True by done.
    rewrite set_index_set_index. f_equal. f_equal.
    unfold shifted_pos. rewrite decide_True by lia. lia.
  - destruct (a_sparse a !! k) as [e'|] eqn:He'; [|done]. simpl.
    case_decide as Hf'; [|done]. do 2 f_equal.
    destruct (Hs _ _ He' Hf') as (Hi0 & m' & Hm' & Hd').
    assert (index e' ≠ Z.of_nat j) as Hne.
    { intros E. rewrite E, Nat2Z.id in Hm'. simplify_eq. lia. }
    unfold shifted_pos. repeat case_decide; lia.
Qed.

(** The write of [place]: the entry of the moved item refers to [j1]. *)
Lemma remap_place a (j1 i : nat) (m : Meta_T) :
  arrays_ok a → (j1 ≤ i)%nat → a_meta a !! i = Some m →
  alter (set_index (Z.of_nat j1)) (Z.to_nat (denseToSparse m))
    (remap_with (shifted_pos j1 i) (a_sparse a))
  = remap j1 i (a_sparse a).
Proof.
  intros Hok Hji Hm. pose proof Hok as (_ & _ & Hd & Hs).
  destruct (Hd _ _ Hm) as (H0 & e & He & Hf & Hi).
  apply list_eq. intros k. unfold remap.
  rewrite list_lookup_alter, !lookup_remap_with.
  destruct (decide (Z.to_nat (denseToSparse m) = k)) as [<-|Hk].
  - rewrite He. simpl. rewrite !decide_True by done.
    rewrite set_index_set_index. f_equal. f_equal.
    unfold relocated_pos. by rewrite decide_True.
  - destruct (a_sparse a !! k) as [e'|] eqn:He'; [|done]. simpl.
    case_decide as Hf'; [|done]. do 2 f_equal.
    destruct (Hs _ _ He' Hf') as (Hi0 & m' & Hm' & Hd').
    assert (index e' ≠ Z.of_nat i) as Hne.
    { intros E. rewrite E, Nat2Z.id in Hm'. simplify_eq. lia. }
    unfold relocated_pos. by rewrite decide_False.
Qed.

Lemma remap_shift_none a (i : nat) :
  remap_with (shifted_pos i i) (a_sparse a) = a_sparse a.
Proof.
  apply remap_with_id. intros e _ _. unfold shifted_pos.
  rewrite decide_False; [done | lia].
Qed.

Lemma remap_same a (i : nat) : remap i i (a_sparse a) = a_sparse a.
Proof.
  apply remap_with_id. intros e _ _. unfold relocated_pos, shifted_pos.
  case_decide; [done|]. rewrite decide_False; [done | lia].
Qed.

End Remap.

(** ** One iteration of defragment is a relocation *)

Section DefragStep.
Context {T : Type}.
Variable comp : T → T → bool.
Variable maxSwaps : Z.
Implicit Types (a : @arrays T).

Lemma scan_trivial_relocates a (i c : nat) (tmp : T) (tmpMeta : Meta_T) :
  arrays_ok a → (c ≤ i < length (a_items a))%nat →
  let r := scan_trivial comp (a_items a) (a_meta a) tmp tmpMeta c
             (remap_with (shifted_pos c i) (a_sparse a)) in
  (fst r ≤ c)%nat ∧
  snd r = remap_with (shifted_pos (fst r) i) (a_sparse a) ∧
  (∀ q x, (fst r ≤ q < c)%nat → a_items a !! q = Some x →
          comp x tmp = true) ∧
  (fst r = 0%nat ∨
   ∃ x, a_items a !! pred (fst r) = Some x ∧ comp x tmp = false).
Proof.
  intros Hok. pose proof Hok as (Hl & Hb & _ & _).
  induction c as [|j IH]; intros Hc; simpl.
  - split_and!; [done..| |by left]. intros q x Hq. lia.
  - destruct (lookup_lt_is_Some_2 (a_items a) j) as [x Hx]; [lia|].
    destruct (lookup_lt_is_Some_2 (a_meta a) j) as [m Hm]; [lia|].
    rewrite Hx, Hm. cbn [default from_option id].
    destruct (comp x tmp) eqn:Ecmp.
    + rewrite wrap32_small by lia.
      rewrite (remap_shift_step a j i m) by (done || lia).
      destruct IH as (H1 & H2 & H3 & H4); [lia|].
      split_and!; [lia | done | | done].
      intros q y Hq Hy. destruct (decide (q = j)) as [->|]; [by simplify_eq|].
      apply (H3 q); [lia | done].
    + simpl. split_and!; [done..| |right; eauto].
      intros q y Hq. lia.
Qed.

Lemma shift_standard_relocates a (i c : nat) (tmp : T) (tmpMeta : Meta_T)
    (swaps : Z) :
  arrays_ok a → (c ≤ i < length (a_items a))%nat →
  let r := shift_standard comp maxSwaps tmp tmpMeta c swaps
             (mkArrays (memmove_up c i (a_items a))
                       (memmove_up c i (a_meta a))
                       (remap_with (shifted_pos c i) (a_sparse a))) in
  let j1 := fst (fst r) in
  (j1 ≤ c)%nat ∧
  snd r = mkArrays (memmove_up j1 i (a_items a))
                   (memmove_up j1 i (a_meta a))
                   (remap_with (shifted_pos j1 i) (a_sparse a)) ∧
  snd (fst r) = swaps + Z.of_nat (c - j1) ∧
  (∀ q x, (j1 ≤ q < c)%nat → a_items a !! q = Some x → comp x tmp = true) ∧
  (j1 = 0%nat ∨ budget_left maxSwaps (snd (fst r)) = false ∨
   ∃ x, a_items a !! pred j1 = Some x ∧ comp x tmp = false).
Proof.
  intros Hok. pose proof Hok as (Hl & Hb & _ & _). revert swaps.
  induction c as [|j IH]; intros swaps Hc; cbn zeta; simpl.
  - split_and!; [done..|lia| |by left]. intros q x Hq. lia.
  - destruct (lookup_lt_is_Some_2 (a_items a) j) as [x Hx]; [lia|].
    destruct (lookup_lt_is_Some_2 (a_meta a) j) as [m Hm]; [lia|].
    rewrite !lookup_memmove_up by lia.
    rewrite !decide_True by lia. rewrite Hx, Hm. cbn [default from_option id].
    destruct (budget_left maxSwaps swaps) eqn:Eb; simpl.
    + destruct (comp x tmp) eqn:Ecmp.
      * rewrite wrap32_small by lia.
        rewrite (remap_shift_step a j i m) by (done || lia).
        rewrite !memmove_up_step by (done || lia).
        specialize (IH (swaps + 1)). cbn zeta in IH.
        destruct IH as (H1 & H2 & H3 & H4 & H5); [lia|].
        split_and!; [lia | done | lia | | done].
        intros q y Hq Hy. destruct (decide (q = j)) as [->|]; [by simplify_eq|].
        apply (H4 q); [lia | done].
      * simpl. split_and!; [done|done|lia| |right; right; eauto].
        intros q y Hq. lia.
    + simpl. split_and!; [done|done|lia| |right; left; done].
      intros q y Hq. lia.
Qed.

(** The iteration at position [i]: the item moves to some [j1 ≤ i], past
    items that [comp] orders after it, and stops at the front, at an item
    that [comp] does not order after it or — on the standard path — when
    the budget is used up. *)
Lemma defrag_step_relocates (tc : bool) a (i : nat) (swaps : Z) (tmp : T) :
  arrays_ok a → a_items a !! i = Some tmp →
  ∃ j1 : nat,
    (j1 ≤ i)%nat ∧
    snd (defrag_step comp maxSwaps tc i swaps a) =
      mkArrays (relocate j1 i (a_items a)) (relocate j1 i (a_meta a))
               (remap j1 i (a_sparse a)) ∧
    fst (defrag_step comp maxSwaps tc i swaps a) =
      (if tc then swaps + (if decide (j1 = i) then 0 else 1)
       else swaps + Z.of_nat (i - j1)) ∧
    (∀ q x, (j1 ≤ q < i)%nat → a_items a !! q = Some x →
            comp x tmp = true) ∧
    (j1 = 0%nat ∨
     (tc = false ∧
      budget_left maxSwaps (fst (defrag_step comp maxSwaps tc i swaps a))
        = false) ∨
     ∃ x, a_items a !! pred j1 = Some x ∧ comp x tmp = false).
Proof.
  intros Hok Htmp. pose proof Hok as (Hl & Hb & _ & _).
  apply lookup_lt_Some in Htmp as Hi.
  destruct (lookup_lt_is_Some_2 (a_meta a) i) as [tmpMeta Hm]; [lia|].
  unfold defrag_step. rewrite Htmp, Hm. destruct tc.
  - pose proof (scan_trivial_relocates a i i tmp tmpMeta Hok) as Hs.
    cbn zeta in Hs. rewrite remap_shift_none in Hs.
    destruct (scan_trivial comp (a_items a) (a_meta a) tmp tmpMeta i (a_sparse a))
      as [j1 sp] eqn:Es. simpl in Hs.
    destruct Hs as (H1 & H2 & H3 & H4); [lia|]. exists j1.
    destruct (j1 =? i)%nat eqn:Ej.
    + apply Nat.eqb_eq in Ej. subst j1. simpl.
      rewrite !relocate_same, remap_same, decide_True by done.
      rewrite remap_shift_none in H2. subst sp.
      split_and!; [done| by destruct a |lia|done|].
      destruct H4 as [?|?]; [by left | by right; right].
    + apply Nat.eqb_neq in Ej. simpl. rewrite decide_False by done.
      unfold place. simpl. rewrite wrap32_small by lia.
      rewrite H2, (remap_place a j1 i tmpMeta) by (done || lia).
      unfold relocate. rewrite Htmp, Hm.
      split_and!; [done..|].
      destruct H4 as [?|?]; [by left | by right; right].
  - pose proof (shift_standard_relocates a i i tmp tmpMeta swaps Hok) as Hs.
    cbn zeta in Hs. rewrite remap_shift_none, !memmove_up_same in Hs.
    assert (mkArrays (a_items a) (a_meta a) (a_sparse a) = a) as Ea
      by by destruct a.
    rewrite Ea in Hs.
    destruct (shift_standard comp maxSwaps tmp tmpMeta i swaps a)
      as [[j1 swaps1] a1] eqn:Es. simpl in Hs.
    destruct Hs as (H1 & H2 & H3 & H4 & H5); [lia|]. exists j1.
    destruct (j1 =? i)%nat eqn:Ej.
    + apply Nat.eqb_eq in Ej. subst j1. simpl.
      rewrite !relocate_same, remap_same.
      rewrite !memmove_up_same, remap_shift_none in H2.
      split_and!; [done|done|done|done|].
      destruct H5 as [?|[?|?]]; [by left | by right; left | by right; right].
    + apply Nat.eqb_neq in Ej. simpl. subst a1.
      unfold place. simpl. rewrite wrap32_small by lia.
      rewrite (remap_place a j1 i tmpMeta) by (done || lia).
      unfold relocate. rewrite Htmp, Hm.
      split_and!; [done..|].
      destruct H5 as [?|[?|?]]; [by left | by right; left | by right; right].
Qed.

End DefragStep.

(** ** What a relocation preserves *)

Section RelocatePreserves.
Context {T : Type}.
Implicit Types (a : @arrays T).

Lemma relocated_pos_nat (j1 i p : nat) :
  (j1 ≤ i)%nat →
  relocated_pos j1 i (Z.of_nat p) =
    Z.of_nat (if decide (p = i) then j1
              else if decide (j1 ≤ p < i)%nat then S p else p).
Proof.
  intros H. unfold relocated_pos, shifted_pos. repeat case_decide; lia.
Qed.

Lemma relocate_arrays_ok a (j1 i : nat) :
  arrays_ok a → (j1 ≤ i < length (a_items a))%nat →
  arrays_ok (mkArrays (relocate j1 i (a_items a)) (relocate j1 i (a_meta a))
                      (remap j1 i (a_sparse a))).
Proof.
  intros (Hl & Hb & Hd & Hs) Hi. split_and!; simpl.
  - rewrite !length_relocate by lia. done.
  - rewrite length_relocate by lia. done.
  - intros q m. rewrite lookup_relocate by lia. intros Hm.
    assert (∃ p : nat, a_meta a !! p = Some m ∧
              relocated_pos j1 i (Z.of_nat p) = Z.of_nat q) as (p & Hp & Hq).
    { rewrite <- Hl in Hi. repeat case_decide.
      - exists q. split; [done|]. rewrite relocated_pos_nat by lia.
        repeat case_decide; lia.
      - exists i. split; [done|]. rewrite relocated_pos_nat by lia.
        repeat case_decide; lia.
      - exists (pred q). split; [done|]. rewrite relocated_pos_nat by lia.
        repeat case_decide; lia.
      - exists q. split; [done|]. rewrite relocated_pos_nat by lia.
        repeat case_decide; lia. }
    destruct (Hd _ _ Hp) as (H0 & e & He & Hf & Hie).
    split; [done|]. exists (set_index (Z.of_nat q) e).
    unfold remap. rewrite lookup_remap_with, He. simpl.
    rewrite decide_True by done. by rewrite Hie, Hq.
  - intros k e'. unfold remap. rewrite lookup_remap_with.
    destruct (a_sparse a !! k) as [e|] eqn:He; [|done]. simpl.
    intros [= <-] Hf.
    assert (free e = 0) as Hfe by (by case_decide).
    rewrite decide_True by done. simpl.
    destruct (Hs _ _ He Hfe) as (H0 & m & Hm & Hdm).
    apply lookup_lt_Some in Hm as Hlt.
    rewrite <- (Z2Nat.id (index e)) by done.
    rewrite relocated_pos_nat by lia. split; [lia|].
    exists m. split; [|done]. rewrite Nat2Z.id.
    rewrite lookup_relocate by lia.
    set (p := Z.to_nat (index e)) in *.
    repeat case_decide; try lia; try done.
    all: try (by replace i with p by lia).
Qed.

Lemma relocate_resolve a (j1 i k : nat) :
  arrays_ok a → (j1 ≤ i < length (a_items a))%nat →
  resolve (mkArrays (relocate j1 i (a_items a)) (relocate j1 i (a_meta a))
                    (remap j1 i (a_sparse a))) k
  = resolve a k.
Proof.
  intros (Hl & Hb & Hd & Hs) Hi. unfold resolve, remap. simpl.
  rewrite lookup_remap_with.
  destruct (a_sparse a !! k) as [e|] eqn:He; [|done]. simpl.
  destruct (decide (free e = 0)) as [Hf|Hf]; [|by rewrite decide_False].
  simpl. rewrite decide_True by done.
  destruct (Hs _ _ He Hf) as (H0 & m & Hm & Hdm).
  apply lookup_lt_Some in Hm as Hlt. rewrite Hl in Hlt.
  rewrite <- (Z2Nat.id (index e)) at 1 by done.
  rewrite relocated_pos_nat, Nat2Z.id by lia.
  rewrite lookup_relocate by lia.
  set (p := Z.to_nat (index e)) in *.
  repeat case_decide; try lia; try done.
  all: try (by replace i with p by lia).
Qed.

(** With an asymmetric [comp], inserting the item at [i] into the sorted
    prefix extends the sorted prefix. *)
Lemma relocate_sorted_upto (comp : T → T → bool) (l : list T) (j1 i : nat)
    (tmp : T) :
  (∀ x y, comp x y = true → comp y x = false) →
  (j1 ≤ i < length l)%nat → l !! i = Some tmp →
  sorted_upto comp i l →
  (∀ q x, (j1 ≤ q < i)%nat → l !! q = Some x → comp x tmp = true) →
  (j1 = 0%nat ∨ ∃ x, l !! pred j1 = Some x ∧ comp x tmp = false) →
  sorted_upto comp (S i) (relocate j1 i l).
Proof.
  intros Hasym Hi Htmp Hsorted Hshift Hstop q x y Hq.
  rewrite !lookup_relocate by lia.
  destruct (decide (q < j1)%nat) as [Hq1|Hq1].
  - destruct (decide (S q < j1)%nat) as [Hq2|Hq2].
    + apply Hsorted. lia.
    + rewrite decide_True by lia. intros Hx Hy. simplify_eq.
      destruct Hstop as [?|(x' & Hx' & Hc)]; [lia|].
      replace (pred j1) with q in Hx' by lia. by simplify_eq.
  - rewrite (decide_False (P := (S q < j1)%nat)) by lia.
    rewrite (decide_False (P := (S q = j1))) by lia.
    rewrite (decide_True (P := (S q ≤ i)%nat)) by lia. simpl.
    destruct (decide (q = j1)) as [->|Hq2].
    + intros Hx Hy. simplify_eq. apply Hasym. apply (Hshift j1); [lia | done].
    + rewrite decide_True by lia. intros Hx Hy.
      apply (Hsorted (pred q)); [lia | done |].
      by replace (S (pred q)) with q by lia.
Qed.

End RelocatePreserves.

(** ** The defragment loop *)

Section DefragLoop.
Context {T : Type}.
Variable comp : T → T → bool.
Variable maxSwaps : Z.
Implicit Types (a : @arrays T).

(** Whatever the budget and the path, the loop permutes the dense arrays
    and keeps them consistent with the sparse table. *)
Lemma defrag_loop_preserves (tc : bool) (r i : nat) (swaps : Z) a :
  arrays_ok a → (r = 0 ∨ i + r ≤ length (a_items a))%nat →
  let a' := snd (defrag_loop comp maxSwaps tc r i swaps a) in
  arrays_ok a' ∧ same_entries (a_sparse a) (a_sparse a') ∧
  (∀ k, resolve a' k = resolve a k) ∧
  a_items a' ≡ₚ a_items a ∧ length (a_items a') = length (a_items a).
Proof.
  revert i swaps a. induction r as [|r IH]; intros i swaps a Hok Hr; simpl.
  - split_and!; [done|apply same_entries_refl|done..].
  - destruct Hr as [|Hr]; [done|].
    destruct (budget_left maxSwaps swaps);
      [|simpl; split_and!; [done|apply same_entries_refl|done..]].
    destruct (lookup_lt_is_Some_2 (a_items a) i) as [tmp Htmp]; [lia|].
    destruct (defrag_step_relocates comp maxSwaps tc a i swaps tmp Hok Htmp)
      as (j1 & Hj & Hsnd & _).
    destruct (defrag_step comp maxSwaps tc i swaps a) as [swaps1 a1].
    simpl in Hsnd. subst a1.
    match goal with |- context [defrag_loop _ _ _ _ _ _ ?a1] =>
      destruct (IH (S i) swaps1 a1) as (H1 & H2 & H3 & H4 & H5) end.
    { apply relocate_arrays_ok; [done | lia]. }
    { right. simpl. rewrite length_relocate by lia. lia. }
    simpl in H2, H3, H4, H5. split_and!.
    + done.
    + eapply same_entries_trans; [|done]. apply same_entries_remap_with.
    + intros k. rewrite H3. apply relocate_resolve; [done | lia].
    + rewrite H4. apply relocate_Permutation. lia.
    + rewrite H5. apply length_relocate. lia.
Qed.

(** With an unlimited budget the loop visits every position. *)
Lemma defrag_loop_unlimited (tc : bool) (r i : nat) (swaps : Z) a :
  maxSwaps = 0 →
  fst (fst (defrag_loop comp maxSwaps tc r i swaps a)) = (i + r)%nat.
Proof.
  intros Hm. revert i swaps a.
  induction r as [|r IH]; intros i swaps a; simpl; [lia|].
  assert (budget_left maxSwaps swaps = true) as ->
    by (unfold budget_left; by rewrite Hm).
  destruct (defrag_step comp maxSwaps tc i swaps a) as [swaps1 a1].
  rewrite IH. lia.
Qed.

Hypothesis comp_asym : ∀ x y, comp x y = true → comp y x = false.

(** On the trivially-copyable path, and on both paths with an unlimited
    budget, the items before the loop position are sorted. *)
Lemma defrag_loop_sorts (tc : bool) (r i : nat) (swaps : Z) a :
  arrays_ok a → (r = 0 ∨ i + r ≤ length (a_items a))%nat →
  tc = true ∨ maxSwaps = 0 →
  sorted_upto comp i (a_items a) →
  let res := defrag_loop comp maxSwaps tc r i swaps a in
  sorted_upto comp (fst (fst res)) (a_items (snd res)).
Proof.
  revert i swaps a. induction r as [|r IH]; intros i swaps a Hok Hr Hmode Hs;
    simpl; [done|].
  destruct Hr as [|Hr]; [done|].
  destruct (budget_left maxSwaps swaps); [|done].
  destruct (lookup_lt_is_Some_2 (a_items a) i) as [tmp Htmp]; [lia|].
  destruct (defrag_step_relocates comp maxSwaps tc a i swaps tmp Hok Htmp)
    as (j1 & Hj & Hsnd & Hfst & Hshift & Hstop).
  destruct (defrag_step comp maxSwaps tc i swaps a) as [swaps1 a1].
  simpl in Hsnd, Hfst, Hstop. subst a1.
  apply IH.
  - apply relocate_arrays_ok; [done | lia].
  - right. simpl. rewrite length_relocate by lia. lia.
  - done.
  - simpl. apply (relocate_sorted_upto comp _ j1 i tmp); try done; [lia|].
    destruct Hstop as [?|[(Htc & Hb)|?]]; [by left| |by right].
    subst tc.
    destruct Hmode as [Ht|Hm0]; [done|].
    unfold budget_left in Hb. rewrite Hm0 in Hb. done.
Qed.

(** On the trivially-copyable path a loop that starts in a sorted prefix of
    length [k] with no swap counted runs to the end or beyond [k]. *)
Lemma defrag_loop_progress (k r i : nat) (swaps : Z) a :
  arrays_ok a → (r = 0 ∨ i + r ≤ length (a_items a))%nat →
  0 ≤ maxSwaps → (1 ≤ i)%nat →
  ((i ≤ k)%nat → swaps = 0 ∧ sorted_upto comp k (a_items a)) →
  let res := defrag_loop comp maxSwaps true r i swaps a in
  (fst (fst res) = i + r ∨ k < fst (fst res))%nat.
Proof.
  revert i swaps a. induction r as [|r IH]; intros i swaps a Hok Hr Hm Hi Hk;
    simpl; [left; lia|].
  destruct Hr as [|Hr]; [done|].
  destruct (budget_left maxSwaps swaps) eqn:Eb.
  - destruct (lookup_lt_is_Some_2 (a_items a) i) as [tmp Htmp]; [lia|].
    destruct (defrag_step_relocates comp maxSwaps true a i swaps tmp Hok Htmp)
      as (j1 & Hj & Hsnd & Hfst & Hshift & Hstop).
    destruct (defrag_step comp maxSwaps true i swaps a) as [swaps1 a1].
    simpl in Hsnd, Hfst. subst a1.
    match goal with |- context [defrag_loop _ _ _ _ _ _ ?a1] =>
      destruct (IH (S i) swaps1 a1) as [H|H] end.
    + apply relocate_arrays_ok; [done | lia].
    + right. simpl. rewrite length_relocate by lia. lia.
    + done.
    + lia.
    + intros Hik. destruct Hk as [-> Hsk]; [lia|].
      assert (j1 = i) as ->.
      { destruct (decide (j1 = i)) as [|Hne]; [done|]. exfalso.
        destruct (lookup_lt_is_Some_2 (a_items a) (pred i)) as [x Hx]; [lia|].
        assert (comp x tmp = true) as Ht by (apply (Hshift (pred i)); [lia|done]).
        assert (comp x tmp = false) as Hf.
        { apply (Hsk (pred i)); [lia | done |].
          by replace (S (pred i)) with i by lia. }
        congruence. }
      rewrite decide_True in Hfst by done. simpl.
      rewrite relocate_same. split; [lia | done].
    + left. lia.
    + by right.
  - simpl. right.
    destruct (decide (i ≤ k)%nat) as [Hik|Hik]; [|lia].
    destruct (Hk Hik) as [-> _]. unfold budget_left in Eb.
    apply orb_false_iff in Eb as [E1 E2].
    apply Z.eqb_neq in E1. apply Z.ltb_ge in E2. lia.
Qed.

End DefragLoop.

(** ** defragment on well-formed states *)

Section DefragmentInv.
Context {T : Type}.
Variable comp : T → T → bool.
Implicit Types (s : @handle_map T) (h : Id_T).

Lemma Inv_arrays_ok s fl tail :
  Inv s fl tail →
  arrays_ok (mkArrays (m_items s) (m_meta s) (m_sparseIds s)).
Proof.
  intros HI. pose proof (Inv_items_bound _ _ _ HI).
  destruct HI. split_and!; done.
Qed.

(** Replacing the arrays by consistent ones that differ from the old at
    most in the positions of the occupied entries keeps the invariants. *)
Lemma Inv_replace_arrays s fl tail (a : @arrays T) (flag : Z) :
  Inv s fl tail → arrays_ok a →
  same_entries (m_sparseIds s) (a_sparse a) →
  length (a_items a) = length (m_items s) →
  Inv (mkMap (m_freeListFront s) (m_freeListBack s) (m_itemTypeId s) flag
             (a_sparse a) (a_items a) (a_meta a) (m_items_capacity s))
      fl tail.
Proof.
  intros [Hml Hcnt Hbd Hfb Hd Hs Hch Htl Hbk Hnd Hfi] (Al & Ab & Ad & As)
    [Sl Se] Hlen.
  assert (∀ k e, m_sparseIds s !! k = Some e → free e = 1 →
                 a_sparse a !! k = Some e) as Hfree.
  { intros k e He Hf.
    destruct (lookup_lt_is_Some_2 (a_sparse a) k) as [e' He'];
      [rewrite Sl; by apply lookup_lt_Some in He|].
    destruct (Se _ _ He') as (e0 & He0 & Hg & Ht & Hf' & Hi).
    simplify_eq. rewrite He'. f_equal.
    destruct e', e; simpl in *. rewrite Hi by lia. congruence. }
  split; simpl; try done.
  - congruence.
  - congruence.
  - intros k e' He'. destruct (Se _ _ He') as (e & He & _ & _ & -> & _). eauto.
  - eapply chain_ext; [|done]. intros k Hk.
    destruct (chain_lookup _ _ _ _ _ Hch Hk) as (e & He & Hf).
    rewrite He. by apply Hfree.
  - intros k e' He' Hf'. destruct (Se _ _ He') as (e & He & _ & _ & Hf & _).
    apply (Hfi _ _ He). congruence.
Qed.

Lemma defragment_Inv (maxSwaps : Z) (tc : bool) s fl tail :
  Inv s fl tail →
  let s' := snd (defragment comp maxSwaps tc s) in
  Inv s' fl tail ∧ m_items s' ≡ₚ m_items s ∧
  (∀ k, resolve (mkArrays (m_items s') (m_meta s') (m_sparseIds s')) k =
        resolve (mkArrays (m_items s) (m_meta s) (m_sparseIds s)) k) ∧
  same_entries (m_sparseIds s) (m_sparseIds s').
Proof.
  intros HI. cbn zeta. unfold defragment.
  destruct (m_fragmented s =? 0);
    [simpl; split_and!; [done..|apply same_entries_refl]|].
  pose proof (Inv_arrays_ok _ _ _ HI) as Hok.
  pose proof (defrag_loop_preserves comp maxSwaps tc (length (m_items s) - 1)
                1 0 _ Hok) as Hp.
  cbn zeta in Hp.
  destruct (defrag_loop _ _ _ _ _ _ _) as [[i swaps] a] eqn:El.
  simpl in Hp. destruct Hp as (H1 & H2 & H3 & H4 & H5); [simpl; lia|].
  simpl. split_and!; [|done| |done].
  - by apply Inv_replace_arrays.
  - intros k. rewrite <- H3. by destruct a.
Qed.

(** A live handle resolves through its occupied entry. *)
Lemma at_live_resolve s h :
  0 ≤ index h → live s h →
  at_ s h = resolve (mkArrays (m_items s) (m_meta s) (m_sparseIds s))
              (Z.to_nat (index h)).
Proof.
  intros H0 [Hv Hf]. rewrite at_valid by done.
  destruct (isValid_range _ _ H0 Hv) as (Hk & _).
  destruct (lookup_lt_is_Some_2 _ _ Hk) as [e He].
  unfold resolve, ids_at in *. simpl. rewrite He in *. simpl in *.
  by rewrite decide_True.
Qed.

Lemma defragment_live (maxSwaps : Z) (tc : bool) s fl tail h :
  Inv s fl tail → 0 ≤ index h → live s h →
  let s' := snd (defragment comp maxSwaps tc s) in
  live s' h ∧ at_ s' h = at_ s h.
Proof.
  intros HI H0 Hlive. cbn zeta.
  destruct (defragment_Inv maxSwaps tc s fl tail HI) as (HI' & _ & Hres & [Sl Se]).
  set (s' := snd (defragment comp maxSwaps tc s)) in *.
  pose proof (live_facts _ _ _ _ HI H0 Hlive) as Hfacts. cbn zeta in Hfacts.
  destruct Hfacts as (Hhk & Hek & Hfe & _ & _ & _ & _ & Hgen & Htid).
  set (k := Z.to_nat (index h)) in *.
  destruct (lookup_lt_is_Some_2 (m_sparseIds s') k) as [e' He'];
    [rewrite Sl; by apply lookup_lt_Some in Hek|].
  destruct (Se _ _ He') as (e & He & Hg & Ht & Hf & _).
  rewrite Hek in He. injection He as <-.
  destruct (inv_sparse _ _ _ HI' _ _ He') as (Hi0 & m & Hm & _); [congruence|].
  apply lookup_lt_Some in Hm as Hlt. rewrite (inv_meta_len _ _ _ HI') in Hlt.
  assert (ids_at (m_sparseIds s') (index h) = e') as Hids
    by (unfold ids_at; fold k; by rewrite He').
  assert (live s' h) as Hlive'.
  { split; [|rewrite Hids; congruence].
    unfold isValid. rewrite Hids.
    assert (m_itemTypeId s' = m_itemTypeId s) as ->.
    { unfold s', defragment. destruct (m_fragmented s =? 0); [done|].
      by destruct (defrag_loop _ _ _ _ _ _ _) as [[? ?] ?]. }
    assert ((Z.of_nat (length (m_sparseIds s')) <=? index h) = false) as ->.
    { apply Z.leb_gt. apply lookup_lt_Some in He'. lia. }
    rewrite Htid, Hgen, Hg, !Z.eqb_refl, !andb_true_r.
    apply Z.ltb_lt. lia. }
  split; [done|].
  rewrite !at_live_resolve by done. apply Hres.
Qed.

Lemma sorted_upto_all (k : nat) (l : list T) :
  sorted_upto comp k l → (length l ≤ k)%nat → dense_sorted comp l.
Proof.
  intros Hs Hk i x y Hx Hy. apply (Hs i); [|done..].
  apply lookup_lt_Some in Hy. lia.
Qed.

Lemma dense_sorted_upto (k : nat) (l : list T) :
  dense_sorted comp l → sorted_upto comp k l.
Proof. intros Hs i x y _. apply Hs. Qed.

Lemma sorted_upto_mono (k k' : nat) (l : list T) :
  sorted_upto comp k l → (k' ≤ k)%nat → sorted_upto comp k' l.
Proof. intros Hs Hk i x y Hi. apply Hs. lia. Qed.

Hypothesis comp_asym : ∀ x y, comp x y = true → comp y x = false.

(** One call with an unlimited budget sorts, on either path. *)
Lemma defragment_unlimited_sorts (tc : bool) s fl tail :
  Inv s fl tail → m_fragmented s ≠ 0 →
  dense_sorted comp (m_items (snd (defragment comp 0 tc s))) ∧
  (m_items s ≠ [] → m_fragmented (snd (defragment comp 0 tc s)) = 0).
Proof.
  intros HI Hfr. unfold defragment.
  assert ((m_fragmented s =? 0) = false) as -> by by apply Z.eqb_neq.
  pose proof (Inv_arrays_ok _ _ _ HI) as Hok.
  pose proof (defrag_loop_sorts comp 0 comp_asym tc (length (m_items s) - 1)
                1 0 _ Hok) as Hs.
  pose proof (defrag_loop_unlimited comp 0 tc (length (m_items s) - 1) 1 0
                (mkArrays (m_items s) (m_meta s) (m_sparseIds s)) eq_refl) as Hi.
  pose proof (defrag_loop_preserves comp 0 tc (length (m_items s) - 1)
                1 0 _ Hok) as Hp.
  cbn zeta in Hs, Hp.
  destruct (defrag_loop _ _ _ _ _ _ _) as [[i swaps] a] eqn:El.
  simpl in Hs, Hi, Hp.
  destruct Hp as (_ & _ & _ & _ & Hlen); [simpl; lia|].
  simpl. split.
  - apply (sorted_upto_all i); [|lia]. apply Hs; [simpl; lia|by right|].
    intros q x y Hq. lia.
  - intros Hne. destruct (m_items s) eqn:E; [done|]. simpl in *.
    assert (i = S (length l)) as -> by lia. by rewrite Nat.eqb_refl.
Qed.

(** One call on the trivially-copyable path, whatever its budget, extends
    the sorted prefix by one item, and clears the flag only once all items
    are sorted. *)
Lemma defragment_call_progress (maxSwaps : Z) (k : nat) s fl tail :
  Inv s fl tail → 0 ≤ maxSwaps →
  (m_fragmented s = 0 → dense_sorted comp (m_items s)) →
  sorted_upto comp k (m_items s) →
  let s' := snd (defragment comp maxSwaps true s) in
  Inv s' fl tail ∧
  (m_fragmented s' = 0 → dense_sorted comp (m_items s')) ∧
  sorted_upto comp (S k) (m_items s').
Proof.
  intros HI Hm Hflag Hk. cbn zeta.
  split; [apply (defragment_Inv maxSwaps true s fl tail HI)|].
  unfold defragment. destruct (m_fragmented s =? 0) eqn:Ef.
  { apply Z.eqb_eq in Ef. simpl. split; [done|].
    apply dense_sorted_upto. by apply Hflag. }
  pose proof (Inv_arrays_ok _ _ _ HI) as Hok.
  pose proof (defrag_loop_sorts comp maxSwaps comp_asym true
                (length (m_items s) - 1) 1 0 _ Hok) as Hs.
  pose proof (defrag_loop_progress comp maxSwaps k
                (length (m_items s) - 1) 1 0 _ Hok) as Hpr.
  pose proof (defrag_loop_preserves comp maxSwaps true (length (m_items s) - 1)
                1 0 _ Hok) as Hp.
  cbn zeta in Hs, Hp, Hpr.
  destruct (defrag_loop _ _ _ _ _ _ _) as [[i swaps] a] eqn:El.
  simpl in Hs, Hp, Hpr.
  destruct Hp as (_ & _ & _ & _ & Hlen); [simpl; lia|].
  assert (sorted_upto comp i (a_items a)) as Hsi.
  { apply Hs; [simpl; lia|by left|]. intros q x y Hq. lia. }
  destruct Hpr as [Hpr|Hpr]; [simpl; lia|done|lia|done| |].
  - simpl. destruct (decide (length (m_items s) = 0)%nat) as [E0|E0].
    + assert (a_items a = []) as -> by (apply nil_length_inv; lia).
      split; intros; intros q x y; done.
    + assert (dense_sorted comp (a_items a)) as Hds
        by (apply (sorted_upto_all i); [done | lia]).
      split; [done|]. by apply dense_sorted_upto.
  - simpl. split; [|apply (sorted_upto_mono i); [done | lia]].
    destruct (i =? length (m_items s))%nat eqn:Ei.
    + apply Nat.eqb_eq in Ei. intros _.
      apply (sorted_upto_all i); [done | lia].
    + intros E. by apply Z.eqb_neq in Ef.
Qed.

(** Repeated calls on the trivially-copyable path. *)
Lemma defragment_all_progress (budgets : list Z) (k : nat) s fl tail :
  Inv s fl tail → Forall (λ m, 0 ≤ m) budgets →
  (m_fragmented s = 0 → dense_sorted comp (m_items s)) →
  sorted_upto comp k (m_items s) →
  let s' := defragment_all comp budgets true s in
  Inv s' fl tail ∧ m_items s' ≡ₚ m_items s ∧
  sorted_upto comp (k + length budgets) (m_items s').
Proof.
  intros HI Hb. revert k s HI.
  induction Hb as [|m budgets Hm Hb IH]; intros k s HI Hflag Hk; simpl.
  - split_and!; [done..|]. by rewrite Nat.add_0_r.
  - destruct (defragment_call_progress m k s fl tail HI Hm Hflag Hk)
      as (HI' & Hflag' & Hk').
    destruct (IH (S k) _ HI' Hflag' Hk') as (H1 & H2 & H3).
    split_and!; [done| |].
    + rewrite H2. apply (defragment_Inv m true s fl tail HI).
    + by replace (k + S (length budgets))%nat with (S k + length budgets)%nat
        by lia.
Qed.

End DefragmentInv.

(** ** The fragmented flag *)

Section Quiet.
Context {T : Type}.
Variable vector_grow : nat → nat.
Variable tc : bool.
Implicit Types (s : @handle_map T) (h : Id_T).

Lemma insert_shape s x :
  length (m_meta s) = length (m_items s) →
  (m_sparseIds s = [] → m_freeListFront s = sentinel) →
  length (m_meta (snd (insert vector_grow s x)))
    = length (m_items (snd (insert vector_grow s x))) ∧
  m_sparseIds (snd (insert vector_grow s x)) ≠ [].
Proof.
  intros Hl Hf. unfold insert, freeListEmpty.
  destruct (m_freeListFront s =? sentinel) eqn:E; simpl.
  - rewrite !length_app, Hl. split; [done|].
    intros [_ ?]%app_eq_nil. done.
  - rewrite !length_app, Hl. split; [done|].
    apply Z.eqb_neq in E. intros E'.
    apply (f_equal length) in E'. rewrite length_insert in E'.
    destruct (m_sparseIds s); [by apply E, Hf | done].
Qed.

Lemma emplace_n_shape (n : nat) x s :
  length (m_meta s) = length (m_items s) →
  m_sparseIds s ≠ [] →
  length (m_meta (snd (emplace_n vector_grow n x s)))
    = length (m_items (snd (emplace_n vector_grow n x s))) ∧
  m_sparseIds (snd (emplace_n vector_grow n x s)) ≠ [].
Proof.
  revert s. induction n as [|n IH]; intros s Hl Hne; [done|]. simpl.
  destruct (insert vector_grow s x) as [h s1] eqn:E1.
  destruct (insert_shape s x Hl) as [Hl1 Hne1]; [done|].
  rewrite E1 in Hl1, Hne1. simpl in Hl1, Hne1.
  destruct (IH s1 Hl1 Hne1) as [Hl2 Hne2].
  by destruct (emplace_n vector_grow n x s1).
Qed.

Lemma erase_shape s h : basic_shape s → basic_shape (snd (erase s h)).
Proof.
  intros [Hl He]. destruct (isValid s h) eqn:Hv.
  - split.
    + rewrite (erase_valid_eq s h Hv). simpl.
      rewrite !length_pop_back.
      destruct (1 <? length (m_items s))%nat;
        rewrite ?length_swap_with_back; by rewrite Hl.
    + intros E. apply (f_equal length) in E.
      rewrite erase_sparse_length in E.
      destruct (m_sparseIds s) eqn:Es; [|done].
      destruct He as (_ & Hi & _); [done|].
      unfold isValid, ids_at in Hv. rewrite Es, Hi in Hv. simpl in Hv.
      by destruct (Z.of_nat 0 <=? index h).
  - by rewrite erase_invalid.
Qed.

Lemma clear_shape s : basic_shape s → basic_shape (clear s).
Proof.
  intros [Hl He]. unfold clear.
  destruct (0 <? wrap32 (Z.of_nat (length (m_sparseIds s)))) eqn:E; [|done].
  split; [done|]. simpl. intros E'. apply (f_equal length) in E'.
  rewrite length_alter, length_app, length_clear_loop, length_take,
    length_drop in E'.
  destruct (m_sparseIds s); [done|]. simpl in E'. lia.
Qed.

Lemma defragment_shape comp maxSwaps s :
  basic_shape s → basic_shape (snd (defragment comp maxSwaps tc s)).
Proof.
  intros [Hl He]. unfold defragment. case_match eqn:Ef; [done|].
  destruct (defrag_loop _ _ _ _ _ _ _) as [[i swaps] a] eqn:El.
  pose proof (defrag_loop_spec comp maxSwaps tc (length (m_items s) - 1) 1 0
                (mkArrays (m_items s) (m_meta s) (m_sparseIds s)) Hl) as Hs.
  cbn zeta in Hs. rewrite El in Hs. simpl in Hs.
  destruct Hs as (_ & _ & H1 & H2 & H3).
  split; simpl; [congruence|].
  intros E. destruct (m_sparseIds s) eqn:Es; [|by rewrite E in H3].
  destruct He as (Hfr & _); [done|]. apply Z.eqb_neq in Ef. done.
Qed.

Lemma reachable_shape s : reachable vector_grow tc s → basic_shape s.
Proof.
  induction 1 as [tid rc|s x Hr IH|s n x hs s' Hr IH He|s h Hr IH|s hs Hr IH
                 |s Hr IH|s Hr IH|s comp maxSwaps Hr IH|s h v s' Hr IH Hp].
  - done.
  - destruct IH as [Hl He].
    destruct (insert_shape s x Hl) as [Hl' Hne]; [intros E; by apply He|].
    split; done.
  - destruct IH as [Hl He0]. unfold emplaceItems in He.
    destruct (n <=? 0) eqn:En; [done|]. apply Z.leb_gt in En.
    injection He as He.
    destruct (Z.to_nat n) as [|k] eqn:Ek; [lia|]. simpl in He.
    match type of He with context [insert _ ?st _] => set (s0 := st) in * end.
    destruct (insert vector_grow s0 x) as [h1 s1] eqn:E1.
    destruct (insert_shape s0 x Hl) as [Hl1 Hne1]; [intros E; by apply He0|].
    rewrite E1 in Hl1, Hne1. simpl in Hl1, Hne1.
    destruct (emplace_n_shape k x s1 Hl1 Hne1) as [Hl2 Hne2].
    destruct (emplace_n vector_grow k x s1) as [hs2 s2]. simplify_eq.
    split; done.
  - by apply erase_shape.
  - clear Hr. revert s IH. induction hs as [|h hs IHh]; intros s IH; [done|].
    rewrite eraseItems_cons. simpl. apply IHh. by apply erase_shape.
  - by apply clear_shape.
  - done.
  - by apply defragment_shape.
  - destruct IH as [Hl He]. unfold at_put in Hp.
    destruct (checked_inner s h); [|done]. simpl in Hp. simplify_eq.
    split; simpl; [by rewrite length_insert|].
    intros E. destruct (He E) as (? & -> & ?). done.
Qed.

(** A quiet container has its flag clear, or nothing to reorder. *)
Lemma quiet_flag s :
  quiet vector_grow tc s → m_fragmented s = 0 ∨ m_items s = [].
Proof.
  induction 1 as [tid rc|s Hr Hb|s|s comp maxSwaps Hc|s comp maxSwaps Hq IH
                 |s h v s' Hq IH Hp].
  - by left.
  - pose proof (reachable_shape s Hr) as [Hl He]. unfold clear.
    destruct (0 <? wrap32 (Z.of_nat (length (m_sparseIds s)))) eqn:E;
      [by left|].
    apply Z.ltb_ge in E. rewrite wrap32_small in E by lia.
    destruct (m_sparseIds s); [|simpl in E; lia].
    left. by apply He.
  - by left.
  - unfold pass_completed in Hc. unfold defragment.
    case_match eqn:Ef; [left; by apply Z.eqb_eq|].
    destruct (defrag_loop _ _ _ _ _ _ _) as [[i swaps] a] eqn:El.
    destruct (decide (length (m_items s) = 0)%nat) as [E0|E0].
    + right. simpl. rewrite E0 in El. simpl in El. simplify_eq. simpl.
      by apply nil_length_inv.
    + left. simpl in *.
      pose proof (defrag_loop_index comp maxSwaps tc (length (m_items s) - 1)
                    1 0 (mkArrays (m_items s) (m_meta s) (m_sparseIds s)))
        as Hi.
      rewrite El in Hi. simpl in Hi.
      assert (i = length (m_items s)) as -> by lia.
      by rewrite Nat.eqb_refl.
  - destruct IH as [E|E].
    + rewrite defragment_not_fragmented by done. by left.
    + rewrite defragment_no_items by done. by right.
  - unfold at_put in Hp. destruct (checked_inner s h); [|done].
    simpl in Hp. simplify_eq. simpl. destruct IH as [E|E]; [by left|].
    right. by rewrite E.
Qed.

End Quiet.

(** C10. When no [insert] or [erase] has occurred since construction,
    [clear], [reset] or a [defragment] pass that ran to completion,
    [defragment] returns 0 and leaves the container as it is, for every
    predicate and every budget — also for a predicate other than that of
    the completed pass, which the dense order does not satisfy: after a
    completed pass with [<] over 10, 20, 30 the items are 30, 20, 10, and a
    pass with [>] changes nothing. *)
Theorem defragment_quiet_noop {T : Type} (vector_grow : nat → nat)
    (tc : bool) (s : @handle_map T) :
  quiet vector_grow tc s →
  (∀ comp maxSwaps, defragment comp maxSwaps tc s = (0, s)) ∧
  (let sorted := snd (defragment Z.ltb 0 tc demo3) in
   quiet demo_grow tc sorted ∧
   m_items sorted = [30; 20; 10] ∧
   ¬ dense_sorted Z.gtb (m_items sorted) ∧
   ∀ maxSwaps, defragment Z.gtb maxSwaps tc sorted = (0, sorted)).
Proof.
  intros Hq. split.
  - intros comp maxSwaps. destruct (quiet_flag _ _ _ Hq).
    + by apply defragment_not_fragmented.
    + by apply defragment_no_items.
  - assert (quiet demo_grow tc (snd (defragment Z.ltb 0 tc demo3))) as Hq'.
    { apply quiet_completed. destruct tc; vm_compute; lia. }
    split; [done|]. split; [by destruct tc|]. split.
    + intros Hs. specialize (Hs 0%nat 30 20).
      destruct tc; by specialize (Hs eq_refl eq_refl).
    + intros maxSwaps. apply defragment_not_fragmented. by destruct tc.
Qed.

(** The theorem after a [clear] of the worked scenario. *)
Lemma defragment_quiet_noop_witness :
  defragment Z.ltb 5 true (clear demo3) = (0, clear demo3).
Proof.
  apply (defragment_quiet_noop demo_grow true (clear demo3)).
  apply quiet_clear; [|vm_compute; discriminate].
  unfold demo3. do 3 apply reach_insert. apply reach_new.
Defined.

(** ** defragment: order, budget and the two paths *)

Lemma Zltb_asym (x y : Z) : (x <? y) = true → (y <? x) = false.
Proof. rewrite Z.ltb_lt, Z.ltb_ge. lia. Qed.

Lemma demo3_Inv : Inv demo3 [] sentinel.
Proof.
  change demo3 with (snd (insert_all demo_grow demo_new [10; 20; 30])).
  apply insert_all_fresh_Inv; [apply new_Inv | vm_compute; discriminate].
Qed.

(** C3 (as amended). On a well-formed state every [defragment] call —
    either path, any budget — permutes the dense items, keeps all
    invariants, and leaves every live handle live and resolving to the same
    item. With an asymmetric [comp] and a truthful fragmented flag, one
    call with an unlimited budget leaves no item directly followed by one
    that [comp] orders before it ([comp prev next] is false for every
    adjacent pair); on the trivially-copyable path so do repeated calls
    with any budgets, one call per item at most. *)
Theorem defragment_sorts {T : Type} (comp : T → T → bool) (tc : bool)
    (s : @handle_map T) (fl : list nat) (tail : Z) :
  Inv s fl tail →
  (∀ maxSwaps,
     let s' := snd (defragment comp maxSwaps tc s) in
     Inv s' fl tail ∧ m_items s' ≡ₚ m_items s ∧
     ∀ h, 0 ≤ index h → live s h → live s' h ∧ at_ s' h = at_ s h) ∧
  ((∀ x y, comp x y = true → comp y x = false) →
   (m_fragmented s = 0 → dense_sorted comp (m_items s)) →
   dense_sorted comp (m_items (snd (defragment comp 0 tc s))) ∧
   ∀ budgets,
     Forall (λ m, 0 ≤ m) budgets →
     (length (m_items s) ≤ length budgets)%nat →
     dense_sorted comp (m_items (defragment_all comp budgets true s)) ∧
     Inv (defragment_all comp budgets true s) fl tail ∧
     m_items (defragment_all comp budgets true s) ≡ₚ m_items s).
Proof.
  intros HI. split.
  - intros maxSwaps s'.
    destruct (defragment_Inv comp maxSwaps tc s fl tail HI) as (H1 & H2 & _).
    split_and!; [done..|]. intros h H0 Hl.
    by apply (defragment_live comp maxSwaps tc s fl tail h).
  - intros Hasym Hflag. split.
    + destruct (decide (m_fragmented s = 0)) as [E|E].
      * rewrite defragment_not_fragmented by done. by apply Hflag.
      * by apply (defragment_unlimited_sorts comp Hasym tc s fl tail).
    + intros budgets Hb Hlen.
      destruct (defragment_all_progress comp Hasym budgets 0 s fl tail HI Hb Hflag)
        as (H1 & H2 & H3).
      { intros q x y Hq. lia. }
      split_and!; [|done..].
      apply (sorted_upto_all comp _ _ H3).
      rewrite H2. simpl. lia.
Qed.

(** The theorem on the worked scenario, standard path, unlimited budget. *)
Lemma defragment_sorts_witness :
  dense_sorted Z.ltb (m_items (snd (defragment Z.ltb 0 false demo3))).
Proof.
  refine (proj1 (proj2 (defragment_sorts Z.ltb false demo3 [] sentinel
                          demo3_Inv) Zltb_asym _)).
  vm_compute. discriminate.
Defined.

(** A state that keeps its arrays whatever is called with [<]. *)
Lemma demo_desc_fixed (m : Z) (tc : bool) (flag : Z) :
  ∃ flag',
    snd (defragment Z.ltb m tc
           (mkMap sentinel sentinel 3 flag
                  [mkId 0 1 3 0; mkId 1 1 3 0] [20; 10]
                  [mkMeta 0; mkMeta 1] 3))
    = mkMap sentinel sentinel 3 flag'
            [mkId 0 1 3 0; mkId 1 1 3 0] [20; 10] [mkMeta 0; mkMeta 1] 3.
Proof.
  unfold defragment. cbn [m_fragmented].
  destruct (flag =? 0); [by exists flag|].
  cbn [m_items m_meta m_sparseIds length Nat.sub defrag_loop].
  destruct (budget_left m 0) eqn:Eb; [|by exists flag].
  destruct tc.
  - exists 0. reflexivity.
  - exists 0. unfold defrag_step. cbn [a_items a_meta lookup list_lookup].
    cbn [shift_standard]. rewrite Eb. reflexivity.
Qed.

Lemma demo_desc_items_fixed (budgets : list Z) (tc : bool) (flag : Z) :
  m_items (defragment_all Z.ltb budgets tc
             (mkMap sentinel sentinel 3 flag
                    [mkId 0 1 3 0; mkId 1 1 3 0] [20; 10]
                    [mkMeta 0; mkMeta 1] 3)) = [20; 10].
Proof.
  revert flag. induction budgets as [|m budgets IH]; intros flag; [done|].
  cbn [defragment_all].
  destruct (demo_desc_fixed m tc flag) as [flag' ->]. apply IH.
Qed.

(** C3 as stated fails: with 20 and 10 stored in that order and the strict
    order [<] as predicate, no sequence of [defragment] calls, on either
    path and with whatever budgets, leads to a dense sequence free of
    adjacent pairs with [next < prev]: the code moves an item towards the
    front past the items for which [comp item moved] holds, so it keeps
    20 before 10. *)
Lemma defragment_ascending_fails :
  ¬ (∃ (budgets : list Z) (tc : bool),
       ascending Z.ltb (m_items (defragment_all Z.ltb budgets tc demo_desc))).
Proof.
  intros (budgets & tc & Hasc).
  change demo_desc with (mkMap sentinel sentinel 3 1
                           [mkId 0 1 3 0; mkId 1 1 3 0] [20; 10]
                           [mkMeta 0; mkMeta 1] 3) in Hasc.
  rewrite demo_desc_items_fixed in Hasc. by specialize (Hasc 0%nat 20 10 eq_refl eq_refl).
Qed.

(** C9 (the code breaks it). On the worked scenario with predicate [<] and
    a budget of two swaps, the trivially-copyable path relocates two items
    and ends with 30, 20, 10, while the standard path spends the budget on
    two single shifts and ends with 20, 30, 10: other items, other
    metadata, other back-references. The standard path has nevertheless
    cleared the fragmented flag, so that further calls change nothing. *)
Theorem defragment_paths_differ :
  let fast := snd (defragment Z.ltb 2 true demo3) in
  let standard := snd (defragment Z.ltb 2 false demo3) in
  m_items fast = [30; 20; 10] ∧
  m_items standard = [20; 30; 10] ∧
  m_meta fast = [mkMeta 2; mkMeta 1; mkMeta 0] ∧
  m_meta standard = [mkMeta 1; mkMeta 2; mkMeta 0] ∧
  index <$> m_sparseIds fast = [2; 1; 0] ∧
  index <$> m_sparseIds standard = [2; 0; 1] ∧
  fst (defragment Z.ltb 2 true demo3) = 2 ∧
  fst (defragment Z.ltb 2 false demo3) = 2 ∧
  m_fragmented standard = 0 ∧
  ¬ dense_sorted Z.ltb (m_items standard) ∧
  (∀ maxSwaps, defragment Z.ltb maxSwaps false standard = (0, standard)).
Proof.
  cbn zeta.
  assert (¬ dense_sorted Z.ltb
            (m_items (snd (defragment Z.ltb 2 false demo3)))) as Hns.
  { intros Hs. by specialize (Hs 0%nat 20 30 eq_refl eq_refl). }
  assert (∀ maxSwaps,
            defragment Z.ltb maxSwaps false
              (snd (defragment Z.ltb 2 false demo3))
            = (0, snd (defragment Z.ltb 2 false demo3))) as Hnoop.
  { intros maxSwaps. by apply defragment_not_fragmented. }
  repeat (split; [vm_compute; reflexivity|]).
  split; [exact Hns | exact Hnoop].
Qed.

(** * Generations along a history *)

Section Generations.
Context {T : Type}.
Variable vector_grow : nat → nat.
Variable trivially_copyable : bool.
Implicit Types (s : @handle_map T) (h : Id_T) (tr : @tracked T).

(** What [erase] of a valid handle does to the generation and the free bit
    of every entry. *)
Lemma erase_entry_fields s h i e' :
  isValid s h = true →
  m_sparseIds (snd (erase s h)) !! i = Some e' →
  ∃ e, m_sparseIds s !! i = Some e ∧
       if decide (i = Z.to_nat (index h))
       then generation e' = wrap16 (generation e + 1) ∧ free e' = 1
       else generation e' = generation e ∧ free e' = free e.
Proof.
  intros Hv. pose proof (erase_valid_eq s h Hv) as E. cbn zeta in E.
  rewrite E. cbn [snd m_sparseIds]. clear E.
  set (k := Z.to_nat (index h)).
  set (e1 := set_index sentinel
               (incr_generation (set_free 1 (ids_at (m_sparseIds s) (index h))))).
  assert (Hbase : ∀ e2, <[k := e1]> (m_sparseIds s) !! i = Some e2 →
    ∃ e, m_sparseIds s !! i = Some e ∧
         if decide (i = k)
         then generation e2 = wrap16 (generation e + 1) ∧ free e2 = 1
         else generation e2 = generation e ∧ free e2 = free e).
  { intros e2 H2.
    apply list_lookup_insert_Some in H2 as [(Hik & He2 & Hlt)|[Hne H2]].
    - rewrite <- Hik in *. rewrite <- He2.
      destruct (m_sparseIds s !! k) as [e|] eqn:Hk.
      + exists e. split; [done|]. rewrite decide_True by done.
        unfold e1, ids_at. fold k. rewrite Hk. done.
      + apply lookup_ge_None in Hk. lia.
    - exists e2. split; [done|]. by rewrite decide_False by done. }
  assert (Hmid : ∀ e2,
    (if freeListEmpty s then <[k := e1]> (m_sparseIds s)
     else alter (set_index (index h)) (Z.to_nat (m_freeListBack s))
                (<[k := e1]> (m_sparseIds s))) !! i = Some e2 →
    ∃ e, m_sparseIds s !! i = Some e ∧
         if decide (i = k)
         then generation e2 = wrap16 (generation e + 1) ∧ free e2 = 1
         else generation e2 = generation e ∧ free e2 = free e).
  { intros e2 H2. destruct (freeListEmpty s); [by apply Hbase|].
    apply lookup_alter_set_index in H2 as (e0 & H0 & ->).
    destruct (Hbase e0 H0) as (e & He & Hf). exists e. split; [done|].
    by repeat case_decide. }
  intros H3. destruct (1 <? length (m_items s))%nat; [|by apply Hmid].
  apply lookup_alter_set_index in H3 as (e0 & H0 & ->).
  destruct (Hmid e0 H0) as (e & He & Hf). exists e. split; [done|].
  by repeat case_decide.
Qed.

(** What [insert] does to the generation and the free bit of every
    entry. *)
Lemma insert_entry_fields s x i e' :
  m_sparseIds (snd (insert vector_grow s x)) !! i = Some e' →
  (i = length (m_sparseIds s) ∧ freeListEmpty s = true ∧
   generation e' = 1 ∧ free e' = 0) ∨
  ∃ e, m_sparseIds s !! i = Some e ∧ generation e' = generation e ∧
       (free e' = free e ∨ free e' = 0).
Proof.
  unfold insert. destruct (freeListEmpty s) eqn:Hf; cbn [snd m_sparseIds].
  - intros [H|[Hi H]]%lookup_app_Some.
    + right. exists e'. auto.
    + left. apply list_lookup_singleton_Some in H as [Hz <-].
      split; [lia|]. done.
  - intros [(Hik & He & Hlt)|[Hne H]]%list_lookup_insert_Some.
    + right. rewrite <- Hik in *.
      destruct (m_sparseIds s !! Z.to_nat (m_freeListFront s)) as [e|] eqn:Hk.
      * exists e. split; [done|]. rewrite <- He. unfold ids_at. rewrite Hk.
        cbn. auto.
      * apply lookup_ge_None in Hk. lia.
    + right. exists e'. auto.
Qed.

Lemma insert_sparse_length_ge s x :
  (length (m_sparseIds s) ≤ length (m_sparseIds (snd (insert vector_grow s x))))%nat.
Proof.
  unfold insert. destruct (freeListEmpty s); cbn [snd m_sparseIds].
  - rewrite length_app. lia.
  - by rewrite length_insert.
Qed.

(** Issued handles stay older than their entries when no generation
    decreases and an entry only becomes free with a greater generation. *)
Lemma issued_older_advance tr (s' : @handle_map T) :
  issued_older tr →
  (length (m_sparseIds (t_state tr)) ≤ length (m_sparseIds s'))%nat →
  (∀ i e e', m_sparseIds (t_state tr) !! i = Some e →
     m_sparseIds s' !! i = Some e' →
     generation e ≤ generation e' ∧
     (free e' = 1 → free e = 1 ∨ generation e < generation e')) →
  issued_older (mkTracked s' (t_issued tr)).
Proof.
  intros HG Hlen Hadv h Hh. cbn in *.
  destruct (HG h Hh) as (H0 & e & He & Hle & Hfree). split; [done|].
  destruct (lookup_lt_is_Some_2 (m_sparseIds s') (Z.to_nat (index h)))
    as [e' He'].
  { apply lookup_lt_Some in He. lia. }
  exists e'. split; [done|].
  destruct (Hadv _ _ _ He He') as [Hge Hfr]. split; [lia|].
  intros H1. destruct (Hfr H1) as [?|?]; [specialize (Hfree ltac:(done))|]; lia.
Qed.

Lemma new_history_ok (itemTypeId : Z) (reserveCount : nat) :
  history_ok (mkTracked (@handle_map_new T itemTypeId reserveCount) []).
Proof.
  split_and!.
  - exists []. apply new_Inv.
  - intros i e. cbn. by rewrite lookup_nil.
  - intros h Hh. cbn in Hh. by apply not_elem_of_nil in Hh.
Qed.

Lemma step_insert_ok tr x :
  history_ok tr → insert_in_range (t_state tr) = true →
  history_ok (step vector_grow trivially_copyable tr (OpInsert x)).
Proof.
  intros ([fl HI] & Hgen & HG) Hrange. cbn [step].
  set (s := t_state tr) in *.
  assert (Hadv : ∀ i e e', m_sparseIds s !! i = Some e →
     m_sparseIds (snd (insert vector_grow s x)) !! i = Some e' →
     generation e ≤ generation e' ∧
     (free e' = 1 → free e = 1 ∨ generation e < generation e')).
  { intros i e e' He He'.
    apply insert_entry_fields in He' as [(Hi & _)|(e0 & He0 & Hg & Hf)].
    - apply lookup_lt_Some in He. lia.
    - rewrite He in He0. injection He0 as <-. split; [lia|].
      intros H1. left. destruct Hf; lia. }
  assert (Hold : issued_older
            (mkTracked (snd (insert vector_grow s x)) (t_issued tr))).
  { apply issued_older_advance; [done|apply insert_sparse_length_ge|done]. }
  assert (Hgen' : ∀ i e, m_sparseIds (snd (insert vector_grow s x)) !! i = Some e →
                         0 ≤ generation e).
  { intros i e' He'.
    apply insert_entry_fields in He' as [(_ & _ & -> & _)|(e0 & He0 & -> & _)];
      [lia|by eapply Hgen]. }
  destruct fl as [|k fl].
  - pose proof (Inv_front_nil _ _ HI) as Hempty.
    unfold insert_in_range in Hrange. fold s in Hempty. rewrite Hempty in Hrange.
    cbn in Hrange. apply Z.ltb_lt in Hrange.
    destruct (insert_fresh_Inv vector_grow s _ x HI Hrange) as [HI' Hh].
    split_and!; [by exists []|done|].
    intros h [->|Hin]%elem_of_cons; [|by apply Hold].
    cbn [t_state]. rewrite Hh. cbn [index generation]. split; [lia|].
    rewrite Nat2Z.id.
    destruct (lookup_lt_is_Some_2 (m_sparseIds (snd (insert vector_grow s x)))
                (length (m_sparseIds s))) as [e' He'].
    { unfold insert. rewrite Hempty. cbn. rewrite length_app. cbn. lia. }
    exists e'. split; [done|].
    apply insert_entry_fields in He' as [(_ & _ & -> & ->)|(e0 & He0 & _)].
    + split; [lia|]. intros; lia.
    + apply lookup_lt_Some in He0. lia.
  - destruct (insert_reuse_Inv vector_grow s k fl _ x HI)
      as (Hidx & Hg & Hfree & HI').
    destruct (Inv_front_cons _ _ _ _ HI) as (Hfront & Hne & e & He & Hfe & _).
    split_and!; [exists fl; by apply HI'|done|].
    intros h [->|Hin]%elem_of_cons; [|by apply Hold].
    cbn [t_state]. rewrite Hidx, Hg. split; [lia|]. rewrite Nat2Z.id.
    destruct (lookup_lt_is_Some_2 (m_sparseIds (snd (insert vector_grow s x))) k)
      as [e' He'].
    { pose proof (insert_sparse_length_ge s x). apply lookup_lt_Some in He. lia. }
    exists e'. split; [done|].
    unfold gen_at, ids_at. rewrite Nat2Z.id, He. cbn [default from_option id].
    revert He'. unfold insert. rewrite Hne. cbn [snd m_sparseIds].
    rewrite Hfront, Nat2Z.id.
    rewrite list_lookup_insert_eq by (by eapply lookup_lt_Some).
    intros [= <-]. unfold ids_at. rewrite Nat2Z.id, He. cbn. split; lia.
Qed.

Lemma step_erase_ok tr h :
  history_ok tr → erase_in_contract (t_state tr) h = true →
  history_ok (step vector_grow trivially_copyable tr (OpErase h)).
Proof.
  intros ([fl HI] & Hgen & HG) Hc. cbn [step].
  set (s := t_state tr) in *.
  destruct (isValid s h) eqn:Hv; cycle 1.
  { rewrite (erase_invalid s h Hv). cbn [snd].
    split_and!; [by exists fl|done|]. by destruct tr. }
  unfold erase_in_contract in Hc. rewrite Hv in Hc. cbn [negb orb] in Hc.
  apply andb_true_iff in Hc as [Hc Hlast].
  apply andb_true_iff in Hc as [Hc Hg].
  apply andb_true_iff in Hc as [H0 Hf].
  apply Z.leb_le in H0. apply Z.eqb_eq in Hf. apply Z.ltb_lt in Hg.
  apply negb_true_iff in Hlast.
  assert (Hlive : live s h) by done.
  destruct (live_facts s fl _ h HI H0 Hlive)
    as (Hk & He & _ & Hp & Hplt & _ & _ & Hgh & _).
  destruct (erase_live_Inv s fl _ h HI H0 Hlive) as [_ HI'].
  cbn zeta in HI'. rewrite decide_False in HI'; cycle 1.
  { intros [Hbig Hpe]. unfold erases_last_of_many in Hlast.
    apply andb_false_iff in Hlast as [Hl|Hl].
    - apply Nat.ltb_ge in Hl. lia.
    - apply Z.eqb_neq in Hl. fold s in Hl. lia. }
  assert (Hadv : ∀ i e e', m_sparseIds s !! i = Some e →
     m_sparseIds (snd (erase s h)) !! i = Some e' →
     generation e' = (if decide (i = Z.to_nat (index h))
                      then generation e + 1 else generation e) ∧
     (free e' = 1 → free e = 1 ∨ generation e < generation e')).
  { intros i e e' Hi Hi'.
    destruct (erase_entry_fields s h i e' Hv Hi') as (e0 & He0 & Hfld).
    rewrite Hi in He0. injection He0 as <-.
    case_decide as Hd.
    - destruct Hfld as [Hg' Hf']. subst i. rewrite Hi in He. injection He as ->.
      pose proof (Hgen _ _ Hi) as Hge. rewrite <- Hgh in *.
      unfold wrap16 in Hg'. rewrite Z.mod_small in Hg' by lia.
      split; [done|]. intros _. right. lia.
    - destruct Hfld as [Hg' Hf']. split; [done|]. intros H1. left. lia. }
  split_and!.
  - eexists. exact HI'.
  - intros i e' Hi'. cbn [t_state] in Hi'.
    destruct (lookup_lt_is_Some_2 (m_sparseIds s) i) as [e Hi].
    { apply lookup_lt_Some in Hi'. by rewrite erase_sparse_length in Hi'. }
    destruct (Hadv _ _ _ Hi Hi') as [-> _]. pose proof (Hgen _ _ Hi).
    case_decide; lia.
  - apply issued_older_advance; [done|by rewrite erase_sparse_length|].
    intros i e e' Hi Hi'. destruct (Hadv _ _ _ Hi Hi') as [-> Hfr].
    split; [case_decide; lia|done].
Qed.

Lemma step_clear_ok tr :
  history_ok tr → clear_in_contract (t_state tr) = true →
  history_ok (step vector_grow trivially_copyable tr OpClear).
Proof.
  intros ([fl HI] & Hgen & HG) Hc. cbn [step].
  set (s := t_state tr) in *.
  destruct (decide (m_sparseIds s = [])) as [Hnil|Hne].
  { rewrite (clear_empty s Hnil). split_and!; [by exists fl|done|by destruct tr]. }
  pose proof (inv_bound _ _ _ HI) as Hb.
  unfold clear_in_contract in Hc. rewrite forallb_forall in Hc.
  assert (Hadv : ∀ i e e', m_sparseIds s !! i = Some e →
     m_sparseIds (clear s) !! i = Some e' →
     generation e' = generation e + 1).
  { intros i e e' Hi Hi'. rewrite lookup_clear_sparse in Hi' by done.
    rewrite Hi in Hi'. cbn in Hi'. injection Hi' as <-. cbn [generation].
    pose proof (Hgen _ _ Hi) as Hge.
    assert (generation e < 65535).
    { apply Z.ltb_lt. apply Hc. apply list_elem_of_In.
      by eapply list_elem_of_lookup_2. }
    unfold wrap16. apply Z.mod_small. lia. }
  assert (Hlen : length (m_sparseIds (clear s)) = length (m_sparseIds s)).
  { rewrite (clear_nonempty s Hne Hb). cbn [m_sparseIds].
    rewrite length_alter. apply length_clear_loop. }
  split_and!.
  - eexists. apply clear_Inv; [done|]. intros; done.
  - intros i e' Hi'. cbn [t_state] in Hi'.
    destruct (lookup_lt_is_Some_2 (m_sparseIds s) i) as [e Hi].
    { apply lookup_lt_Some in Hi'. by rewrite Hlen in Hi'. }
    rewrite (Hadv _ _ _ Hi Hi'). pose proof (Hgen _ _ Hi). lia.
  - apply issued_older_advance; [done|by rewrite Hlen|].
    intros i e e' Hi Hi'. rewrite (Hadv _ _ _ Hi Hi'). split; [lia|].
    intros _. right. lia.
Qed.

Lemma step_defragment_ok tr (comp : T → T → bool) (maxSwaps : Z) :
  history_ok tr →
  history_ok (step vector_grow trivially_copyable tr (OpDefragment comp maxSwaps)).
Proof.
  intros ([fl HI] & Hgen & HG). cbn [step].
  set (s := t_state tr) in *.
  destruct (defragment_Inv comp maxSwaps trivially_copyable s fl _ HI)
    as (HI' & _ & _ & Hlen & Hsame).
  split_and!.
  - by exists fl.
  - intros i e' Hi'. cbn [t_state] in Hi'.
    destruct (Hsame _ _ Hi') as (e & Hi & -> & _).
    by eapply Hgen.
  - apply issued_older_advance; [done|by rewrite Hlen|].
    intros i e e' Hi Hi'. destruct (Hsame _ _ Hi') as (e0 & Hi0 & -> & _ & -> & _).
    unfold s in Hi0. rewrite Hi in Hi0. injection Hi0 as <-. split; [lia|]. auto.
Qed.

Lemma step_history_ok tr (o : op) :
  history_ok tr → step_in_contract tr o = true →
  history_ok (step vector_grow trivially_copyable tr o).
Proof.
  destruct o; cbn [step_in_contract]; intros H Hc.
  - by apply step_insert_ok.
  - by apply step_erase_ok.
  - by apply step_clear_ok.
  - by apply step_defragment_ok.
Qed.

Lemma run_history_ok (ops : list op) tr tr' :
  history_ok tr →
  run vector_grow trivially_copyable ops tr = Some tr' →
  history_ok tr'.
Proof.
  revert tr. induction ops as [|o ops IH]; intros tr H; cbn [run].
  - by intros [= <-].
  - destruct (step_in_contract tr o) eqn:Hc; [|done].
    apply IH. by apply step_history_ok.
Qed.

End Generations.

(** ** Reuse of an outer index *)

Lemma run_run_all {T} (vector_grow : nat → nat) (tc : bool)
    (ops : list (@op T)) (tr tr' : @tracked T) :
  run vector_grow tc ops tr = Some tr' → run_all vector_grow tc ops tr = tr'.
Proof.
  revert tr. induction ops as [|o ops IH]; intros tr; cbn [run].
  - by intros [= <-].
  - destruct (step_in_contract tr o); [|done]. apply IH.
Qed.




(** * Access through handles *)

Section Access.
Context {T : Type}.
Variable vector_grow : nat → nat.
Implicit Types (s : @handle_map T) (h : Id_T).

Lemma entries_unsigned_lookup s i e :
  entries_unsigned s = true → m_sparseIds s !! i = Some e → 0 ≤ index e.
Proof.
  unfold entries_unsigned. rewrite forallb_forall. intros H He.
  apply Z.leb_le, H, list_elem_of_In. by eapply list_elem_of_lookup_2.
Qed.

Lemma entries_typed_lookup s i e :
  entries_typed s = true → m_sparseIds s !! i = Some e →
  typeId e = wrap15 (m_itemTypeId s).
Proof.
  unfold entries_typed. rewrite forallb_forall. intros H He.
  apply Z.eqb_eq, H, list_elem_of_In. by eapply list_elem_of_lookup_2.
Qed.

Lemma isValid_iff s h :
  isValid s h = true ↔
  index h < Z.of_nat (length (m_sparseIds s)) ∧
  index (ids_at (m_sparseIds s) (index h)) < Z.of_nat (length (m_items s)) ∧
  typeId h = m_itemTypeId s ∧
  generation h = generation (ids_at (m_sparseIds s) (index h)).
Proof.
  unfold isValid. destruct (Z.leb_spec (Z.of_nat (length (m_sparseIds s))) (index h)).
  - split; [done|]. lia.
  - rewrite !andb_true_iff, Z.ltb_lt, !Z.eqb_eq. split; [|tauto].
    intros [[??]?]. done.
Qed.

(** A handle is valid when its entry says so. *)
Lemma isValid_entry s h e :
  0 ≤ index h → m_sparseIds s !! Z.to_nat (index h) = Some e →
  index e < Z.of_nat (length (m_items s)) →
  typeId h = m_itemTypeId s → generation h = generation e →
  isValid s h = true ∧ ids_at (m_sparseIds s) (index h) = e.
Proof.
  intros H0 He Hi Ht Hg.
  assert (ids_at (m_sparseIds s) (index h) = e) as Hat
    by (unfold ids_at; by rewrite He).
  split; [|done]. apply isValid_iff. rewrite Hat.
  apply lookup_lt_Some in He. split_and!; [lia|done..].
Qed.

Lemma checked_inner_Some s h e :
  checked_inner s h = Some e ↔
  isValid s h = true ∧ e = ids_at (m_sparseIds s) (index h).
Proof.
  destruct (isValid s h) eqn:Hv.
  - rewrite (checked_inner_valid s h Hv). split; [by intros [= <-]|].
    by intros [_ ->].
  - rewrite (checked_inner_invalid s h Hv). split; [done|]. by intros [? _].
Qed.

End Access.

Section AtValid.
Context {T : Type}.
Implicit Types (s : @handle_map T) (h : Id_T).

(** The assertions of [at] and [getInnerIndex] against [isValid]. *)
Lemma at_iff s h :
  entries_unsigned s = true →
  0 ≤ index h →
  (is_Some (getInnerIndex s h) ↔ isValid s h = true) ∧
  (is_Some (at_ s h) ↔ isValid s h = true) ∧
  (∀ p, getInnerIndex s h = Some p →
        0 ≤ p < Z.of_nat (size s) ∧ at_ s h = m_items s !! Z.to_nat p).
Proof.
  intros Hu H0.
  assert (Hin : ∀ e, checked_inner s h = Some e →
                     0 ≤ index e < Z.of_nat (length (m_items s))).
  { intros e [Hv ->]%checked_inner_Some.
    apply isValid_iff in Hv as (Hk & Hp & _).
    destruct (lookup_lt_is_Some_2 (m_sparseIds s) (Z.to_nat (index h)))
      as [e He]; [lia|].
    unfold ids_at in *. rewrite He in *. cbn in *.
    pose proof (entries_unsigned_lookup _ _ _ Hu He). lia. }
  unfold getInnerIndex, at_. split_and!.
  - rewrite fmap_is_Some. split.
    + by intros [e [Hv _]%checked_inner_Some].
    + intros Hv. exists (ids_at (m_sparseIds s) (index h)).
      by apply checked_inner_Some.
  - split.
    + destruct (checked_inner s h) as [e|] eqn:He; [|by intros [? ?]].
      intros _. by apply checked_inner_Some in He as [? _].
    + intros Hv. rewrite (checked_inner_valid s h Hv). cbn.
      apply lookup_lt_is_Some_2.
      specialize (Hin _ (checked_inner_valid s h Hv)). lia.
  - intros p Hp. destruct (checked_inner s h) as [e|] eqn:He; [|done].
    cbn in Hp. injection Hp as <-. split; [by apply Hin|done].
Qed.

End AtValid.

(** X1: [at], the index operator and [getInnerIndex] succeed on exactly
    the handles [isValid] accepts: on a table of unsigned entries their
    four assertions hold if and only if [isValid] returns true, and then
    [getInnerIndex] gives a position inside the dense array whose item
    [at] returns. *)
Theorem at_defined_iff_valid {T : Type} (s : @handle_map T) (h : Id_T) :
  entries_unsigned s = true →
  0 ≤ index h →
  (is_Some (getInnerIndex s h) ↔ isValid s h = true) ∧
  (is_Some (at_ s h) ↔ isValid s h = true) ∧
  (∀ p, getInnerIndex s h = Some p →
        0 ≤ p < Z.of_nat (size s) ∧ at_ s h = m_items s !! Z.to_nat p).
Proof.
  apply at_iff.
Qed.

(** The theorem on the three-item container and its second handle. *)
Lemma at_defined_iff_valid_witness :
  (is_Some (at_ demo3 demo_h1) ↔ isValid demo3 demo_h1 = true) ∧
  (∀ p, getInnerIndex demo3 demo_h1 = Some p →
        0 ≤ p < Z.of_nat (size demo3) ∧
        at_ demo3 demo_h1 = m_items demo3 !! Z.to_nat p).
Proof.
  refine (proj2 (at_defined_iff_valid demo3 demo_h1 _ _)).
  - reflexivity.
  - vm_compute. discriminate.
Defined.

Section LiveHandles.
Context {T : Type}.
Variable vector_grow : nat → nat.
Implicit Types (s : @handle_map T) (h : Id_T).

(** What [insert] leaves alone: the occupied entries, and the items
    stored so far. *)
Lemma insert_frame s fl tail x :
  Inv s fl tail →
  m_items (snd (insert vector_grow s x)) = m_items s ++ [x] ∧
  m_itemTypeId (snd (insert vector_grow s x)) = m_itemTypeId s ∧
  ∀ i e, m_sparseIds s !! i = Some e → free e = 0 →
         m_sparseIds (snd (insert vector_grow s x)) !! i = Some e.
Proof.
  intros HI. destruct fl as [|k fl].
  - pose proof (Inv_front_nil _ _ HI) as Hfe.
    unfold insert. rewrite Hfe. cbn. split_and!; [done..|].
    intros i e He _. rewrite lookup_app_l; [done|]. by eapply lookup_lt_Some.
  - destruct (Inv_front_cons _ _ _ _ HI) as (Hf & Hfe & ek & Hek & Hfk & _).
    unfold insert. rewrite Hfe. cbn. split_and!; [done..|].
    intros i e He Hfree. rewrite list_lookup_insert_ne; [done|].
    rewrite Hf, Nat2Z.id. intros <-. rewrite Hek in He. injection He as <-. lia.
Qed.

(** The handle [insert] returns, and the entry it stands for. *)
Lemma insert_handle s fl tail x :
  Inv s fl tail → insert_in_range s = true →
  ∃ (k : nat) (g t : Z),
    fst (insert vector_grow s x) = mkId (Z.of_nat k) g t 0 ∧
    m_sparseIds (snd (insert vector_grow s x)) !! k =
      Some (mkId (Z.of_nat (length (m_items s))) g t 0) ∧
    (∀ i, i ≠ k → m_sparseIds (snd (insert vector_grow s x)) !! i =
                  m_sparseIds s !! i) ∧
    ((fl = [] ∧ k = length (m_sparseIds s) ∧ g = 1 ∧
      t = wrap15 (m_itemTypeId s)) ∨
     (∃ e, head fl = Some k ∧ m_sparseIds s !! k = Some e ∧ free e = 1 ∧
           g = generation e ∧ t = typeId e)).
Proof.
  intros HI Hr. pose proof (Inv_items_bound _ _ _ HI) as Hib.
  destruct fl as [|k fl].
  - pose proof (Inv_front_nil _ _ HI) as Hfe.
    unfold insert_in_range in Hr. rewrite Hfe in Hr. cbn in Hr.
    apply Z.ltb_lt in Hr.
    exists (length (m_sparseIds s)), 1, (wrap15 (m_itemTypeId s)).
    unfold insert. rewrite Hfe. cbn. rewrite !wrap32_small by lia.
    split_and!; [done| | |by left].
    + by rewrite list_lookup_middle.
    + intros i Hi. destruct (decide (i < length (m_sparseIds s))%nat).
      * by rewrite lookup_app_l.
      * rewrite !lookup_ge_None_2; [done|lia|].
        rewrite length_app. cbn. lia.
  - destruct (Inv_front_cons _ _ _ _ HI) as (Hf & Hfe & ek & Hek & Hfk & _).
    exists k, (generation ek), (typeId ek).
    unfold insert. rewrite Hfe, Hf. cbn. unfold ids_at.
    rewrite Nat2Z.id, Hek. cbn. rewrite !wrap32_small by lia.
    split_and!; [done| | |right; by exists ek].
    + rewrite list_lookup_insert_eq; [done|]. by eapply lookup_lt_Some.
    + intros i Hi. by rewrite list_lookup_insert_ne.
Qed.

(** A live handle stays live, on the same item, when its entry and the
    item's position are left alone. *)
Lemma live_at s h e x :
  0 ≤ index h → m_sparseIds s !! Z.to_nat (index h) = Some e →
  free e = 0 → 0 ≤ index e →
  m_items s !! Z.to_nat (index e) = Some x →
  typeId h = m_itemTypeId s → generation h = generation e →
  live s h ∧ at_ s h = Some x.
Proof.
  intros H0 He Hf Hi Hx Ht Hg.
  destruct (isValid_entry s h e H0 He) as [Hv Hat]; [|done..|].
  { apply lookup_lt_Some in Hx. lia. }
  split; [split; [done|by rewrite Hat]|].
  by rewrite (at_valid s h Hv), Hat.
Qed.

End LiveHandles.

(** The inserted item behind the returned handle. *)
Lemma insert_live {T : Type} (vector_grow : nat → nat)
    (s : @handle_map T) (fl : list nat) (tail : Z) (x : T) :
  Inv s fl tail → entries_typed s = true → insert_in_range s = true →
  wrap15 (m_itemTypeId s) = m_itemTypeId s →
  (let h := fst (insert vector_grow s x) in
   let s' := snd (insert vector_grow s x) in
   0 ≤ index h ∧ live s' h ∧ at_ s' h = Some x ∧
   getInnerIndex s' h = Some (Z.of_nat (size s)) ∧
   size s' = S (size s)).
Proof.
  intros HI Hty Hr Htid. cbn zeta.
  destruct (insert_handle vector_grow s fl tail x HI Hr)
    as (k & g & t & Hh & Hk & _ & Hcase).
  destruct (insert_frame vector_grow s fl tail x HI) as (Hit & Hid & _).
  assert (t = m_itemTypeId s) as ->.
  { destruct Hcase as [(_ & _ & _ & ->)|(e & _ & He & _ & _ & ->)]; [done|].
    by rewrite (entries_typed_lookup _ _ _ Hty He). }
  rewrite Hh. cbn [index].
  destruct (live_at (snd (insert vector_grow s x)) (mkId (Z.of_nat k) g (m_itemTypeId s) 0)
              (mkId (Z.of_nat (length (m_items s))) g (m_itemTypeId s) 0) x)
    as [Hl Hat]; cbn [index generation typeId free]; try done; try lia.
  { by rewrite Nat2Z.id. }
  { rewrite Hit, Nat2Z.id. by rewrite list_lookup_middle. }
  split_and!; [lia|done|done| |].
  - unfold getInnerIndex. rewrite (checked_inner_valid _ _ (proj1 Hl)).
    cbn [index]. unfold ids_at. by rewrite Nat2Z.id, Hk.
  - unfold size. rewrite Hit, length_app. cbn. lia.
Qed.

(** The live handles across an insertion. *)
Lemma insert_keeps {T : Type} (vector_grow : nat → nat)
    (s : @handle_map T) (fl : list nat) (tail : Z) (x : T) (h : Id_T) :
  Inv s fl tail → 0 ≤ index h → live s h →
  live (snd (insert vector_grow s x)) h ∧
  at_ (snd (insert vector_grow s x)) h = at_ s h ∧
  index (fst (insert vector_grow s x)) ≠ index h.
Proof.
  intros HI H0 L.
  destruct (live_facts s fl tail h HI H0 L)
    as (Hk & He & Hf & Hp & Hplt & _ & Hnotin & Hg & Ht).
  destruct (insert_frame vector_grow s fl tail x HI) as (Hit & Hid & Hsp).
  destruct (lookup_lt_is_Some_2 (m_items s) _ Hplt) as [y Hy].
  rewrite (at_valid s h (proj1 L)), Hy.
  destruct (live_at (snd (insert vector_grow s x)) h
              (ids_at (m_sparseIds s) (index h)) y) as [Hl Hat];
    try done; try lia.
  { by apply Hsp. }
  { rewrite Hit. rewrite lookup_app_l; done. }
  split_and!; [done..|].
  intros Heq. destruct fl as [|k fl].
  - pose proof (Inv_front_nil _ _ HI) as Hfe. revert Heq.
    unfold insert. rewrite Hfe. cbn. intros Heq.
    apply lookup_lt_Some in He.
    pose proof (inv_bound _ _ _ HI).
    rewrite wrap32_small in Heq by lia. lia.
  - destruct (insert_reuse_Inv vector_grow s k fl tail x HI) as (Hi & _).
    rewrite Heq in Hi. apply Hnotin. rewrite Hi, Nat2Z.id. by left.
Qed.

(** X2: in a well-formed container, two live handles that resolve to the
    same dense position are one handle: they agree on the outer index, the
    generation and the type id. *)
Theorem live_handles_share_no_item {T : Type} (s : @handle_map T)
    (fl : list nat) (tail : Z) (h1 h2 : Id_T) :
  Inv s fl tail → 0 ≤ index h1 → 0 ≤ index h2 →
  live s h1 → live s h2 →
  getInnerIndex s h1 = getInnerIndex s h2 →
  index h1 = index h2 ∧ generation h1 = generation h2 ∧
  typeId h1 = typeId h2.
Proof.
  intros HI H1 H2 L1 L2 Hp.
  destruct (live_facts s fl tail h1 HI H1 L1)
    as (Hk1 & He1 & _ & Hp1 & _ & (m1 & Hm1 & Hd1) & _ & Hg1 & Ht1).
  destruct (live_facts s fl tail h2 HI H2 L2)
    as (Hk2 & He2 & _ & Hp2 & _ & (m2 & Hm2 & Hd2) & _ & Hg2 & Ht2).
  unfold getInnerIndex in Hp.
  rewrite (checked_inner_valid s h1 (proj1 L1)) in Hp.
  rewrite (checked_inner_valid s h2 (proj1 L2)) in Hp.
  cbn in Hp. injection Hp as Hp. rewrite Hp in Hm1. rewrite Hm1 in Hm2.
  injection Hm2 as <-.
  assert (index h1 = index h2) as Hi by lia.
  split; [done|]. rewrite Hg1, Hg2, Ht1, Ht2, Hi. done.
Qed.

(** The theorem on the three-item container and its first handle. *)
Lemma live_handles_share_no_item_witness :
  index demo_h0 = index demo_h0 ∧ generation demo_h0 = generation demo_h0 ∧
  typeId demo_h0 = typeId demo_h0.
Proof.
  refine (live_handles_share_no_item demo3 [] sentinel demo_h0 demo_h0
            demo3_Inv _ _ _ _ _).
  - vm_compute. discriminate.
  - vm_compute. discriminate.
  - split; reflexivity.
  - split; reflexivity.
  - reflexivity.
Defined.

(** X3: an item inserted into a well-formed container is found again
    through the returned handle.  When the container's type id fits the
    15-bit field of a handle and the sparse table has room, the handle is
    valid, [at] returns the item, [getInnerIndex] is the last dense
    position, and the size has grown by one. *)
Theorem insert_then_at {T : Type} (vector_grow : nat → nat)
    (s : @handle_map T) (fl : list nat) (tail : Z) (x : T) :
  Inv s fl tail → entries_typed s = true → insert_in_range s = true →
  wrap15 (m_itemTypeId s) = m_itemTypeId s →
  (let h := fst (insert vector_grow s x) in
   let s' := snd (insert vector_grow s x) in
   0 ≤ index h ∧ live s' h ∧ at_ s' h = Some x ∧
   getInnerIndex s' h = Some (Z.of_nat (size s)) ∧
   size s' = S (size s)).
Proof.
  apply insert_live.
Qed.

(** The theorem on the three-item container: a fourth item is found
    through its handle. *)
Lemma insert_then_at_witness :
  at_ (snd (insert demo_grow demo3 40)) (fst (insert demo_grow demo3 40))
    = Some 40.
Proof.
  refine (proj1 (proj2 (proj2
            (insert_then_at demo_grow demo3 [] sentinel 40 demo3_Inv _ _ _)))).
  - reflexivity.
  - reflexivity.
  - reflexivity.
Defined.

(** X4: [insert] disturbs no other handle.  Every handle that is live
    in a well-formed container is live after an insertion and resolves to
    the item it resolved to before. *)
Theorem insert_keeps_live_handles {T : Type} (vector_grow : nat → nat)
    (s : @handle_map T) (fl : list nat) (tail : Z) (x : T) (h : Id_T) :
  Inv s fl tail → 0 ≤ index h → live s h →
  live (snd (insert vector_grow s x)) h ∧
  at_ (snd (insert vector_grow s x)) h = at_ s h ∧
  index (fst (insert vector_grow s x)) ≠ index h.
Proof.
  apply insert_keeps.
Qed.

(** The theorem on the three-item container: the second handle keeps its
    item when a fourth item is inserted. *)
Lemma insert_keeps_live_handles_witness :
  at_ (snd (insert demo_grow demo3 40)) demo_h1 = at_ demo3 demo_h1.
Proof.
  refine (proj1 (proj2
            (insert_keeps_live_handles demo_grow demo3 [] sentinel 40 demo_h1
               demo3_Inv _ _))).
  - vm_compute. discriminate.
  - split; reflexivity.
Defined.

(** * Erasure: the item removed and the items kept *)

Lemma insert_Permutation {A} (l : list A) (p : nat) (x y : A) :
  l !! p = Some x → y :: l ≡ₚ x :: <[p := y]> l.
Proof.
  revert p. induction l as [|a l IH]; intros [|p] Hp; simplify_eq/=.
  - apply Permutation_swap.
  - rewrite Permutation_swap. rewrite (IH p Hp). apply Permutation_swap.
Qed.

(** Swap-and-pop removes the element at [p] and keeps the others. *)
Lemma pop_swap_Permutation {A} (p : nat) (l : list A) (x : A) :
  l !! p = Some x → l ≡ₚ x :: pop_back (swap_with_back p l).
Proof.
  intros Hp. pose proof (lookup_lt_Some _ _ _ Hp) as Hlt.
  destruct (last l) as [y|] eqn:Hy; cycle 1.
  { rewrite last_lookup in Hy. apply lookup_ge_None in Hy. lia. }
  unfold swap_with_back. rewrite Hp, Hy.
  apply last_Some in Hy as [l0 ->]. rewrite length_app in *. cbn in *.
  replace (pred (length l0 + 1)) with (length l0 + 0)%nat by lia.
  rewrite insert_app_r. cbn.
  destruct (decide (p = length l0)) as [->|Hne].
  - rewrite list_lookup_middle in Hp by done. injection Hp as <-.
    replace (length l0) with (length l0 + 0)%nat at 1 by lia.
    rewrite insert_app_r. cbn. unfold pop_back.
    rewrite length_app. cbn.
    replace (pred (length l0 + 1)) with (length l0) by lia.
    rewrite take_app_length. symmetry. apply Permutation_cons_append.
  - rewrite lookup_app_l in Hp by lia.
    rewrite insert_app_l by lia. unfold pop_back.
    rewrite length_app, length_insert. cbn.
    replace (pred (length l0 + 1)) with (length (<[p:=y]> l0))
      by (rewrite length_insert; lia).
    rewrite take_app_length. rewrite <- Permutation_cons_append.
    by apply insert_Permutation.
Qed.

Section EraseFrame.
Context {T : Type}.
Implicit Types (s : @handle_map T) (h : Id_T).

(** The entry of another live handle after [erase s h]: it is moved to
    the erased position when its item was the last one, and left alone
    otherwise. *)
Lemma erase_other_entry s fl tail h h' :
  Inv s fl tail → 0 ≤ index h → 0 ≤ index h' →
  live s h → live s h' → index h ≠ index h' →
  (let e := ids_at (m_sparseIds s) (index h) in
   let e' := ids_at (m_sparseIds s) (index h') in
   let last_pos := Z.of_nat (pred (length (m_items s))) in
   m_sparseIds (snd (erase s h)) !! Z.to_nat (index h') =
     Some (if decide (index e' = last_pos)
           then set_index (index e) e' else e') ∧
   index e ≠ index e' ∧
   m_items (snd (erase s h)) =
     pop_back (swap_with_back (Z.to_nat (index e)) (m_items s)) ∧
   m_itemTypeId (snd (erase s h)) = m_itemTypeId s).
Proof.
  intros HI H0 H0' L L' Hne. cbn zeta.
  destruct (live_facts s fl tail h HI H0 L)
    as (Hk & He & Hf & Hp & Hplt & (m & Hm & Hdm) & Hnotin & Hg & Ht).
  destruct (live_facts s fl tail h' HI H0' L')
    as (Hk' & He' & Hf' & Hp' & Hplt' & (m' & Hm' & Hdm') & Hnotin' & Hg' & Ht').
  set (k := Z.to_nat (index h)) in *. set (k' := Z.to_nat (index h')) in *.
  set (e := ids_at (m_sparseIds s) (index h)) in *.
  set (e' := ids_at (m_sparseIds s) (index h')) in *.
  set (p := Z.to_nat (index e)) in *. set (p' := Z.to_nat (index e')) in *.
  assert (k ≠ k') as Hkk by lia.
  assert (p ≠ p') as Hpp.
  { intros Hpp. rewrite <- Hpp, Hm in Hm'. injection Hm' as <-. lia. }
  assert (Hbig : (1 <? length (m_items s))%nat = true)
    by (apply Nat.ltb_lt; lia).
  pose proof (inv_meta_len _ _ _ HI) as Hml.
  pose proof (erase_valid_eq s h (proj1 L)) as E. cbn zeta in E.
  rewrite E, Hbig. cbn [snd m_sparseIds m_items m_itemTypeId]. clear E.
  fold e p k.
  split_and!; [|lia|done|done].
  (* the entry written last: the one of the item that was moved *)
  assert (default (mkMeta 0) (swap_with_back p (m_meta s) !! p) =
          default (mkMeta 0) (m_meta s !! pred (length (m_items s)))) as ->.
  { rewrite lookup_swap_with_back by lia. rewrite decide_True by done.
    by rewrite last_lookup, Hml. }
  destruct (lookup_lt_is_Some_2 (m_meta s) (pred (length (m_items s))))
    as [ml Hl]; [lia|]. rewrite Hl. cbn [default from_option id].
  destruct (inv_dense _ _ _ HI _ _ Hl) as (Hl0 & el & Hel & Hfl & Hil).
  (* the entries written before leave [k'] alone *)
  assert (Hsp2 :
    (if freeListEmpty s
     then <[k := set_index sentinel (incr_generation (set_free 1 e))]>
            (m_sparseIds s)
     else alter (set_index (index h)) (Z.to_nat (m_freeListBack s))
            (<[k := set_index sentinel (incr_generation (set_free 1 e))]>
               (m_sparseIds s))) !! k' = Some e').
  { destruct (freeListEmpty s) eqn:Hfe.
    - by rewrite list_lookup_insert_ne.
    - rewrite list_lookup_alter_ne; [by rewrite list_lookup_insert_ne|].
      destruct fl as [|i fl0].
      { pose proof (Inv_front_nil _ _ HI). congruence. }
      pose proof (inv_back _ _ _ HI ltac:(done)) as Hb.
      destruct (last (i :: fl0)) as [b|] eqn:Hlast; [|done].
      cbn in Hb. injection Hb as ->. rewrite Nat2Z.id. intros ->.
      apply Hnotin'. by eapply last_Some_elem_of. }
  apply lookup_alter_set_index. exists e'. split; [done|].
  rewrite Hp. destruct (decide (index e' = Z.of_nat (pred (length (m_items s)))))
    as [Hlast|Hlast].
  - rewrite decide_True; [done|].
    assert (p' = pred (length (m_items s))) as Hp'l by lia.
    rewrite <- Hp'l, Hm' in Hl. injection Hl as <-. rewrite Hdm'. lia.
  - rewrite decide_False; [done|]. intros Hkl.
    rewrite Hkl in Hel. rewrite He' in Hel. injection Hel as <-. lia.
Qed.

End EraseFrame.

(** X5: [erase] disturbs no other handle.  When [h] and [h'] are live
    handles of different outer indices in a well-formed container, [h']
    is live after [erase h] and resolves to the item it resolved to
    before, although that item may have been moved into the erased
    position. *)
Theorem erase_keeps_other_handles {T : Type} (s : @handle_map T)
    (fl : list nat) (tail : Z) (h h' : Id_T) :
  Inv s fl tail → 0 ≤ index h → 0 ≤ index h' →
  live s h → live s h' → index h ≠ index h' →
  live (snd (erase s h)) h' ∧ at_ (snd (erase s h)) h' = at_ s h'.
Proof.
  intros HI H0 H0' L L' Hne.
  destruct (erase_other_entry s fl tail h h' HI H0 H0' L L' Hne)
    as (Hsp & Hpp & Hit & Hid).
  destruct (live_facts s fl tail h HI H0 L)
    as (_ & _ & _ & Hp & Hplt & _).
  destruct (live_facts s fl tail h' HI H0' L')
    as (_ & _ & Hf' & Hp' & Hplt' & _ & _ & Hg' & Ht').
  set (e := ids_at (m_sparseIds s) (index h)) in *.
  set (e' := ids_at (m_sparseIds s) (index h')) in *.
  destruct (lookup_lt_is_Some_2 (m_items s) _ Hplt') as [y Hy].
  rewrite (at_valid s h' (proj1 L')). fold e'. rewrite Hy.
  eapply live_at; [done|exact Hsp|..].
  - by case_decide.
  - case_decide; cbn; lia.
  - rewrite Hit, lookup_pop_back, length_swap_with_back.
    case_decide as Hlast.
    + cbn [index set_index]. rewrite decide_True by lia.
      rewrite lookup_swap_with_back by lia. rewrite decide_True by done.
      rewrite last_lookup, <- Hy. f_equal. lia.
    + rewrite decide_True by lia.
      rewrite lookup_swap_with_back by lia.
      rewrite decide_False by lia. rewrite decide_False by lia. done.
  - by rewrite Hid.
  - by case_decide.
Qed.

(** The theorem on the three-item container: when the first handle is
    erased, the third one, whose item is moved to the front, still
    resolves to 30. *)
Lemma erase_keeps_other_handles_witness :
  at_ (snd (erase demo3 demo_h0)) demo_h2 = at_ demo3 demo_h2.
Proof.
  refine (proj2 (erase_keeps_other_handles demo3 [] sentinel demo_h0 demo_h2
                   demo3_Inv _ _ _ _ _)).
  - vm_compute. discriminate.
  - vm_compute. discriminate.
  - split; reflexivity.
  - split; reflexivity.
  - vm_compute. discriminate.
Defined.

(** X6: [erase] of a valid handle removes exactly the item the handle
    resolves to: the dense array before is a permutation of that item
    followed by the dense array after, the size drops by one, 1 is
    returned, and the handle is no longer valid. *)
Theorem erase_removes_its_item {T : Type} (s : @handle_map T) (h : Id_T) :
  entries_unsigned s = true → 0 ≤ index h → isValid s h = true →
  ∃ x, at_ s h = Some x ∧
       m_items s ≡ₚ x :: m_items (snd (erase s h)) ∧
       size (snd (erase s h)) = pred (size s) ∧
       fst (erase s h) = 1%nat ∧
       isValid (snd (erase s h)) h = false.
Proof.
  intros Hu H0 Hv.
  destruct (proj2 (proj1 (proj2 (at_iff s h Hu H0))) Hv) as [x Hx].
  exists x. split; [done|].
  rewrite (at_valid s h Hv) in Hx.
  pose proof (pop_swap_Permutation _ _ _ Hx) as HP.
  pose proof (erase_valid_eq s h Hv) as E. cbn zeta in E.
  assert (Hit : m_items (snd (erase s h)) =
                pop_back (swap_with_back
                            (Z.to_nat (index (ids_at (m_sparseIds s) (index h))))
                            (m_items s))).
  { rewrite E. cbn [snd m_items].
    destruct (1 <? length (m_items s))%nat eqn:Hbig; [done|].
    apply Nat.ltb_ge in Hbig. apply lookup_lt_Some in Hx as Hlt.
    destruct (m_items s) as [|a [|b l]]; cbn in *; try lia.
    by replace (Z.to_nat _) with 0%nat by lia. }
  split_and!.
  - by rewrite Hit.
  - unfold size. by rewrite Hit, length_pop_back, length_swap_with_back.
  - by rewrite erase_fst, Hv.
  - apply isValid_cases. right. right.
    rewrite (erase_gen_at s h (index h) H0 Hv). rewrite decide_True by done.
    rewrite (isValid_gen s h Hv). intros Heq. symmetry in Heq.
    by apply wrap16_succ_ne in Heq.
Qed.

(** The theorem on the three-item container and its second handle. *)
Lemma erase_removes_its_item_witness :
  ∃ x, at_ demo3 demo_h1 = Some x ∧
       m_items demo3 ≡ₚ x :: m_items (snd (erase demo3 demo_h1)) ∧
       size (snd (erase demo3 demo_h1)) = pred (size demo3) ∧
       fst (erase demo3 demo_h1) = 1%nat ∧
       isValid (snd (erase demo3 demo_h1)) demo_h1 = false.
Proof.
  refine (erase_removes_its_item demo3 demo_h1 _ _ _).
  - reflexivity.
  - vm_compute. discriminate.
  - reflexivity.
Defined.

(** * Batches, writes and the type id *)

Section EntryInvariants.
Context {T : Type}.
Variable vector_grow : nat → nat.
Implicit Types (s : @handle_map T) (h : Id_T).

Lemma entries_unsigned_intro s :
  (∀ i e, m_sparseIds s !! i = Some e → 0 ≤ index e) →
  entries_unsigned s = true.
Proof.
  intros H. unfold entries_unsigned. apply forallb_forall.
  intros e [i Hi]%list_elem_of_In%list_elem_of_lookup.
  apply Z.leb_le. by eapply H.
Qed.

Lemma entries_typed_intro s :
  (∀ i e, m_sparseIds s !! i = Some e →
          typeId e = wrap15 (m_itemTypeId s)) →
  entries_typed s = true.
Proof.
  intros H. unfold entries_typed. apply forallb_forall.
  intros e [i Hi]%list_elem_of_In%list_elem_of_lookup.
  apply Z.eqb_eq. by eapply H.
Qed.

Lemma wrap32_nonneg (z : Z) : 0 ≤ wrap32 z.
Proof. unfold wrap32. apply Z.mod_pos_bound. lia. Qed.

Lemma erase_entries_unsigned s h :
  entries_unsigned s = true → 0 ≤ index h →
  entries_unsigned (snd (erase s h)) = true.
Proof.
  intros Hu H0. destruct (isValid s h) eqn:Hv; cycle 1.
  { by rewrite (erase_invalid s h Hv). }
  pose proof (erase_valid_eq s h Hv) as E. cbn zeta in E.
  apply entries_unsigned_intro. rewrite E. cbn [snd m_sparseIds]. clear E.
  assert (H1 : ∀ i e,
    <[Z.to_nat (index h) :=
        set_index sentinel
          (incr_generation (set_free 1 (ids_at (m_sparseIds s) (index h))))]>
      (m_sparseIds s) !! i = Some e → 0 ≤ index e).
  { intros i e [(_ & <- & _)|[_ He]]%list_lookup_insert_Some.
    - cbn. unfold sentinel. lia.
    - by eapply entries_unsigned_lookup. }
  assert (H2 : ∀ i e,
    (if freeListEmpty s
     then <[Z.to_nat (index h) :=
              set_index sentinel
                (incr_generation
                   (set_free 1 (ids_at (m_sparseIds s) (index h))))]>
            (m_sparseIds s)
     else alter (set_index (index h)) (Z.to_nat (m_freeListBack s))
            (<[Z.to_nat (index h) :=
                 set_index sentinel
                   (incr_generation
                      (set_free 1 (ids_at (m_sparseIds s) (index h))))]>
               (m_sparseIds s))) !! i = Some e → 0 ≤ index e).
  { intros i e. destruct (freeListEmpty s); [apply H1|].
    intros (e0 & He0 & ->)%lookup_alter_set_index.
    case_decide; [done|by eapply H1]. }
  intros i e. destruct (1 <? length (m_items s))%nat; [|apply H2].
  intros (e0 & He0 & ->)%lookup_alter_set_index.
  case_decide; [cbn; lia|by eapply H2].
Qed.

Lemma insert_entries_unsigned s x :
  entries_unsigned s = true →
  entries_unsigned (snd (insert vector_grow s x)) = true.
Proof.
  intros Hu. apply entries_unsigned_intro. unfold insert.
  destruct (freeListEmpty s); cbn [snd m_sparseIds]; intros i e.
  - intros [He|[_ He]]%lookup_app_Some; [by eapply entries_unsigned_lookup|].
    apply list_lookup_singleton_Some in He as [_ <-]. apply wrap32_nonneg.
  - intros [(_ & <- & _)|[_ He]]%list_lookup_insert_Some.
    + apply wrap32_nonneg.
    + by eapply entries_unsigned_lookup.
Qed.

Lemma insert_entries_typed s x :
  entries_typed s = true →
  entries_typed (snd (insert vector_grow s x)) = true.
Proof.
  intros Hu. apply entries_typed_intro. unfold insert.
  destruct (freeListEmpty s); cbn [snd m_sparseIds m_itemTypeId]; intros i e.
  - intros [He|[_ He]]%lookup_app_Some; [by eapply entries_typed_lookup|].
    by apply list_lookup_singleton_Some in He as [_ <-].
  - intros [(<- & <- & Hlt)|[_ He]]%list_lookup_insert_Some.
    + destruct (lookup_lt_is_Some_2 _ _ Hlt) as [e He].
      unfold ids_at. rewrite He. cbn. by eapply entries_typed_lookup.
    + by eapply entries_typed_lookup.
Qed.

Lemma erase_size s h :
  entries_unsigned s = true → 0 ≤ index h →
  (size (snd (erase s h)) + fst (erase s h))%nat = size s.
Proof.
  intros Hu H0. destruct (isValid s h) eqn:Hv; cycle 1.
  { rewrite (erase_invalid s h Hv). cbn. lia. }
  destruct (proj2 (proj1 (proj2 (at_iff s h Hu H0))) Hv) as [x Hx].
  rewrite (at_valid s h Hv) in Hx. apply lookup_lt_Some in Hx.
  pose proof (erase_valid_eq s h Hv) as E. cbn zeta in E. rewrite E.
  cbn [fst snd]. unfold size. cbn [m_items]. rewrite length_pop_back.
  destruct (1 <? length (m_items s))%nat; rewrite ?length_swap_with_back; lia.
Qed.

End EntryInvariants.

(** X7: [eraseItems] returns the number of items it removed.  Whatever
    the handles (stale, duplicated, out of range), the size after the
    batch plus the returned count is the size before, and the count is at
    most the number of handles. *)
Theorem eraseItems_count_is_size_drop {T : Type} (s : @handle_map T)
    (hs : list Id_T) :
  entries_unsigned s = true →
  forallb (λ h, 0 <=? index h) hs = true →
  (size (snd (eraseItems s hs)) + fst (eraseItems s hs))%nat = size s ∧
  (fst (eraseItems s hs) ≤ length hs)%nat.
Proof.
  revert s. induction hs as [|h hs IH]; intros s Hu Hhs.
  - cbn. lia.
  - cbn in Hhs. apply andb_true_iff in Hhs as [H0 Hhs]. apply Z.leb_le in H0.
    rewrite eraseItems_cons. cbn [fst snd].
    destruct (IH (snd (erase s h)) (erase_entries_unsigned s h Hu H0) Hhs)
      as [IH1 IH2].
    pose proof (erase_size s h Hu H0) as Hs.
    pose proof (erase_fst s h) as Hf. cbn [length].
    destruct (isValid s h); lia.
Qed.

(** The theorem on the four-item container, with a stale duplicate and a
    handle out of range in the batch: two items go. *)
Lemma eraseItems_count_is_size_drop_witness :
  (size (snd (eraseItems demo4 [demo_h3; demo_h1; demo_h3; mkId 9 1 3 0]))
   + fst (eraseItems demo4 [demo_h3; demo_h1; demo_h3; mkId 9 1 3 0]))%nat
  = size demo4.
Proof.
  refine (proj1 (eraseItems_count_is_size_drop demo4
                   [demo_h3; demo_h1; demo_h3; mkId 9 1 3 0] _ _)).
  - reflexivity.
  - reflexivity.
Defined.

(** X8: a container whose type id does not fit the 15-bit [typeId] field
    of a handle rejects the handles it issues.  With a type id of 2^15 or
    more, the handle returned by [insert] is not valid in the resulting
    container, [at] fails its assertion on it, and [erase] removes
    nothing. *)
Theorem typeId_beyond_15_bits_never_valid {T : Type}
    (vector_grow : nat → nat) (s : @handle_map T) (x : T) :
  entries_typed s = true → 2 ^ 15 ≤ m_itemTypeId s →
  (let h := fst (insert vector_grow s x) in
   let s' := snd (insert vector_grow s x) in
   isValid s' h = false ∧ at_ s' h = None ∧ getInnerIndex s' h = None ∧
   erase s' h = (0%nat, s')).
Proof.
  intros Hty Hid. cbn zeta.
  assert (Hw : wrap15 (m_itemTypeId s) < 2 ^ 15).
  { unfold wrap15. apply Z.mod_pos_bound. lia. }
  assert (Hv : isValid (snd (insert vector_grow s x))
                 (fst (insert vector_grow s x)) = false).
  { apply isValid_cases. right. left. unfold insert.
    destruct (freeListEmpty s); cbn [fst snd typeId set_index set_free m_itemTypeId].
    - lia.
    - unfold ids_at.
      destruct (m_sparseIds s !! Z.to_nat (m_freeListFront s)) as [e|] eqn:He.
      + cbn. rewrite (entries_typed_lookup _ _ _ Hty He). lia.
      + cbn. lia. }
  split_and!; [done| | |by apply erase_invalid].
  - unfold at_. by rewrite (checked_inner_invalid _ _ Hv).
  - unfold getInnerIndex. by rewrite (checked_inner_invalid _ _ Hv).
Qed.

(** The theorem on a new container of type id 40000. *)
Lemma typeId_beyond_15_bits_never_valid_witness :
  isValid (snd (insert demo_grow (handle_map_new 40000 0) 10))
          (fst (insert demo_grow (handle_map_new 40000 0) 10)) = false.
Proof.
  refine (proj1 (typeId_beyond_15_bits_never_valid demo_grow
                   (handle_map_new 40000 0) 10 _ _)).
  - reflexivity.
  - vm_compute. discriminate.
Defined.

Section Emplace.
Context {T : Type}.
Variable vector_grow : nat → nat.
Implicit Types (s : @handle_map T) (h : Id_T).

Lemma emplace_n_S (n : nat) (x : T) s :
  emplace_n vector_grow (S n) x s =
    (fst (insert vector_grow s x)
       :: fst (emplace_n vector_grow n x (snd (insert vector_grow s x))),
     snd (emplace_n vector_grow n x (snd (insert vector_grow s x)))).
Proof.
  cbn [emplace_n]. destruct (insert vector_grow s x) as [h s1]. cbn [fst snd].
  by destruct (emplace_n vector_grow n x s1).
Qed.

(** [insert] keeps a well-formed container well-formed, and adds at most
    one sparse entry. *)
Lemma insert_well_formed s x :
  well_formed s → insert_in_range s = true →
  well_formed (snd (insert vector_grow s x)) ∧
  (length (m_sparseIds (snd (insert vector_grow s x)))
   ≤ S (length (m_sparseIds s)))%nat.
Proof.
  intros [fl HI] Hr. split.
  - destruct fl as [|k fl].
    + pose proof (Inv_front_nil _ _ HI) as Hfe.
      unfold insert_in_range in Hr. rewrite Hfe in Hr. cbn in Hr.
      apply Z.ltb_lt in Hr.
      exists []. by apply (insert_fresh_Inv vector_grow s sentinel x HI).
    + exists fl. by apply (insert_reuse_Inv vector_grow s k fl sentinel x HI).
  - unfold insert. destruct (freeListEmpty s); cbn [snd m_sparseIds].
    + rewrite length_app. cbn. lia.
    + rewrite length_insert. lia.
Qed.

Lemma in_range_room s :
  Z.of_nat (length (m_sparseIds s)) < sentinel → insert_in_range s = true.
Proof.
  intros H. unfold insert_in_range. apply orb_true_iff. right.
  by apply Z.ltb_lt.
Qed.

(** [n] successive insertions of [x]. *)
Lemma emplace_n_spec (n : nat) (x : T) s :
  well_formed s → entries_typed s = true →
  wrap15 (m_itemTypeId s) = m_itemTypeId s →
  Z.of_nat (length (m_sparseIds s)) + Z.of_nat n ≤ sentinel →
  (let hs := fst (emplace_n vector_grow n x s) in
   let s' := snd (emplace_n vector_grow n x s) in
   well_formed s' ∧ length hs = n ∧
   m_items s' = m_items s ++ replicate n x ∧
   (∀ h, h ∈ hs → 0 ≤ index h ∧ live s' h ∧ at_ s' h = Some x) ∧
   NoDup (index <$> hs) ∧
   (∀ h, 0 ≤ index h → live s h →
         live s' h ∧ at_ s' h = at_ s h ∧ index h ∉ index <$> hs)).
Proof.
  revert s. induction n as [|n IH]; intros s Hwf Hty Htid Hroom; cbn zeta.
  - cbn. rewrite app_nil_r. split_and!; [done..| | |].
    + intros h Hh. by apply elem_of_nil in Hh.
    + constructor.
    + intros h _ L. split_and!; [done..|]. apply not_elem_of_nil.
  - rewrite emplace_n_S. cbn [fst snd].
    assert (Hr : insert_in_range s = true) by (apply in_range_room; lia).
    destruct (insert_well_formed s x Hwf Hr) as [Hwf1 Hlen1].
    destruct Hwf as [fl HI].
    pose proof (insert_live vector_grow s fl sentinel x HI Hty Hr Htid)
      as (H0 & L1 & Hat1 & _ & _).
    destruct (insert_frame vector_grow s fl sentinel x HI) as (Hit & Hid & _).
    set (h1 := fst (insert vector_grow s x)) in *.
    set (s1 := snd (insert vector_grow s x)) in *.
    destruct (IH s1) as (Hwf2 & Hlen & Hitems & Hnew & Hnd & Hframe).
    { done. }
    { by apply insert_entries_typed. }
    { by rewrite Hid. }
    { lia. }
    destruct (Hframe h1 H0 L1) as (L2 & Hat2 & Hnotin).
    split_and!.
    + done.
    + cbn. by rewrite Hlen.
    + rewrite Hitems, Hit, <- app_assoc. done.
    + intros h [->|Hh]%elem_of_cons; [|by apply Hnew].
      split_and!; [done..|]. by rewrite Hat2.
    + cbn. by apply NoDup_cons.
    + intros h Hh0 L.
      destruct (insert_keeps vector_grow s fl sentinel x h HI Hh0 L)
        as (La & Hata & Hne).
      destruct (Hframe h Hh0 La) as (Lb & Hatb & Hnb).
      split_and!; [done|by rewrite Hatb|].
      cbn. apply not_elem_of_cons. split; [|done]. fold h1 in Hne. congruence.
Qed.

End Emplace.

(** X9: [emplaceItems] asserts [n > 0]; on a well-formed container with
    room for [n] more entries and a type id that fits a handle, it
    returns [n] handles of pairwise different outer indices, each live
    and resolving to the new item, appends [n] copies of the item to the
    dense array, and leaves every handle that was live before on its
    item. *)
Theorem emplaceItems_handles {T : Type} (vector_grow : nat → nat)
    (s : @handle_map T) (n : Z) (x : T) :
  well_formed s → entries_typed s = true →
  wrap15 (m_itemTypeId s) = m_itemTypeId s →
  Z.of_nat (length (m_sparseIds s)) + n ≤ sentinel →
  (n ≤ 0 → emplaceItems vector_grow s n x = None) ∧
  (0 < n →
   ∃ hs s', emplaceItems vector_grow s n x = Some (hs, s') ∧
     well_formed s' ∧ Z.of_nat (length hs) = n ∧
     m_items s' = m_items s ++ replicate (Z.to_nat n) x ∧
     (∀ h, h ∈ hs → live s' h ∧ at_ s' h = Some x) ∧
     NoDup (index <$> hs) ∧
     (∀ h, 0 ≤ index h → live s h → live s' h ∧ at_ s' h = at_ s h)).
Proof.
  intros Hwf Hty Htid Hroom. unfold emplaceItems. split.
  - intros Hn. by rewrite (proj2 (Z.leb_le n 0) Hn).
  - intros Hn. rewrite (proj2 (Z.leb_gt n 0) Hn).
    set (s0 := mkMap (m_freeListFront s) (m_freeListBack s) (m_itemTypeId s)
                 1 (m_sparseIds s) (m_items s) (m_meta s)
                 (Nat.max (m_items_capacity s)
                    (length (m_items s) + Z.to_nat n))).
    assert (Hwf0 : well_formed s0).
    { destruct Hwf as [fl [? ? ? ? ? ? ? ? ? ? ?]]. exists fl. by split. }
    destruct (emplace_n_spec vector_grow (Z.to_nat n) x s0 Hwf0 Hty Htid)
      as (Hwf' & Hlen & Hitems & Hnew & Hnd & Hframe).
    { cbn. lia. }
    eexists _, _. split; [apply f_equal, surjective_pairing|].
    split_and!; [done|lia|done| |done|].
    + intros h Hh. by destruct (Hnew h Hh) as (_ & ? & ?).
    + intros h H0 L. destruct (Hframe h H0) as (? & ? & _); [|done].
      destruct L as [Hv Hf]. split; done.
Qed.

Lemma demo_freed_well_formed : well_formed demo_freed.
Proof.
  exists [0%nat].
  assert (L : live demo3 demo_h0) by (split; reflexivity).
  assert (H0 : 0 ≤ index demo_h0) by (vm_compute; discriminate).
  exact (proj2 (erase_live_Inv demo3 [] sentinel demo_h0 demo3_Inv H0 L)).
Qed.

(** The theorem on the three-item container with its first item erased:
    two new items take the freed entry and a fresh one. *)
Lemma emplaceItems_handles_witness :
  ∃ hs s', emplaceItems demo_grow demo_freed 2 7 = Some (hs, s') ∧
    well_formed s' ∧ Z.of_nat (length hs) = 2 ∧
    m_items s' = m_items demo_freed ++ replicate (Z.to_nat 2) 7 ∧
    (∀ h, h ∈ hs → live s' h ∧ at_ s' h = Some 7) ∧
    NoDup (index <$> hs) ∧
    (∀ h, 0 ≤ index h → live demo_freed h →
          live s' h ∧ at_ s' h = at_ demo_freed h).
Proof.
  refine (proj2 (emplaceItems_handles demo_grow demo_freed 2 7 _ _ _ _) _).
  - exact demo_freed_well_formed.
  - reflexivity.
  - reflexivity.
  - vm_compute. discriminate.
  - reflexivity.
Defined.

(** X10: a write through the reference [at] returns is read back, and
    touches nothing else.  For a live handle of a well-formed container,
    [at(h) = v] succeeds, [at] then returns [v], every handle is valid
    after exactly when it was before, and every other live handle keeps
    its item; on a handle that is not valid the assertion fails. *)
Theorem at_put_then_at {T : Type} (s : @handle_map T) (fl : list nat)
    (tail : Z) (h : Id_T) (v : T) :
  Inv s fl tail → 0 ≤ index h →
  (isValid s h = false → at_put s h v = None) ∧
  (live s h →
   ∃ s', at_put s h v = Some s' ∧ at_ s' h = Some v ∧ size s' = size s ∧
     (∀ h', isValid s' h' = isValid s h') ∧
     (∀ h', 0 ≤ index h' → live s h' → index h' ≠ index h →
            at_ s' h' = at_ s h')).
Proof.
  intros HI H0. split.
  - intros Hv. unfold at_put. by rewrite (checked_inner_invalid s h Hv).
  - intros L.
    destruct (live_facts s fl tail h HI H0 L)
      as (Hk & He & Hf & Hp & Hplt & (m & Hm & Hdm) & _).
    unfold at_put. rewrite (checked_inner_valid s h (proj1 L)). cbn.
    eexists. split; [done|].
    assert (Hval : ∀ h',
      isValid (mkMap (m_freeListFront s) (m_freeListBack s) (m_itemTypeId s)
                 (m_fragmented s) (m_sparseIds s)
                 (<[Z.to_nat (index (ids_at (m_sparseIds s) (index h))) := v]>
                    (m_items s))
                 (m_meta s) (m_items_capacity s)) h' = isValid s h').
    { intros h'. unfold isValid. cbn. by rewrite length_insert. }
    split_and!.
    + rewrite at_valid by (by rewrite Hval; apply L). cbn.
      by rewrite list_lookup_insert_eq.
    + unfold size. cbn. by rewrite length_insert.
    + done.
    + intros h' H0' L' Hne.
      destruct (live_facts s fl tail h' HI H0' L')
        as (Hk' & He' & Hf' & Hp' & Hplt' & (m' & Hm' & Hdm') & _).
      rewrite at_valid by (by rewrite Hval; apply L').
      rewrite (at_valid s h' (proj1 L')). cbn.
      rewrite list_lookup_insert_ne; [done|].
      intros Hpp. rewrite Hpp, Hm' in Hm. injection Hm as <-. lia.
Qed.

(** The theorem on the three-item container: the second item is
    overwritten with 25 and read back. *)
Lemma at_put_then_at_witness :
  ∃ s', at_put demo3 demo_h1 25 = Some s' ∧ at_ s' demo_h1 = Some 25 ∧
    size s' = size demo3 ∧
    (∀ h', isValid s' h' = isValid demo3 h') ∧
    (∀ h', 0 ≤ index h' → live demo3 h' → index h' ≠ index demo_h1 →
           at_ s' h' = at_ demo3 h').
Proof.
  refine (proj2 (at_put_then_at demo3 [] sentinel demo_h1 25 demo3_Inv _) _).
  - vm_compute. discriminate.
  - split; reflexivity.
Defined.

(** * Sequences of insertions *)

Section InsertAll.
Context {T : Type}.
Variable vector_grow : nat → nat.
Implicit Types (s : @handle_map T) (h : Id_T).

Lemma in_range_items s fl :
  Inv s fl sentinel → Z.of_nat (length (m_items s)) < sentinel →
  insert_in_range s = true.
Proof.
  intros HI Hlt. unfold insert_in_range.
  destruct (freeListEmpty s) eqn:Hfe; [|done]. cbn.
  destruct fl as [|k fl].
  - pose proof (inv_count _ _ _ HI) as Hc. cbn in Hc. apply Z.ltb_lt. lia.
  - destruct (Inv_front_cons _ _ _ _ HI) as (_ & Hne & _). congruence.
Qed.

(** Successive insertions: the handles, the items and the handles that
    were live before. *)
Lemma insert_all_spec (xs : list T) s :
  well_formed s → entries_typed s = true →
  wrap15 (m_itemTypeId s) = m_itemTypeId s →
  Z.of_nat (length (m_items s)) + Z.of_nat (length xs) ≤ sentinel →
  (let hs := fst (insert_all vector_grow s xs) in
   let s' := snd (insert_all vector_grow s xs) in
   well_formed s' ∧ length hs = length xs ∧
   m_items s' = m_items s ++ xs ∧
   (∀ i h x, hs !! i = Some h → xs !! i = Some x →
             0 ≤ index h ∧ live s' h ∧ at_ s' h = Some x) ∧
   NoDup (index <$> hs) ∧
   (∀ h, 0 ≤ index h → live s h →
         live s' h ∧ at_ s' h = at_ s h ∧ index h ∉ index <$> hs)).
Proof.
  revert s. induction xs as [|x xs IH]; intros s Hwf Hty Htid Hroom; cbn zeta.
  - cbn. rewrite app_nil_r. split_and!; [done..| | |].
    + intros i h x Hh. by rewrite lookup_nil in Hh.
    + constructor.
    + intros h _ L. split_and!; [done..|]. apply not_elem_of_nil.
  - rewrite insert_all_cons. cbn [fst snd]. cbn [length] in Hroom.
    destruct Hwf as [fl HI].
    assert (Hr : insert_in_range s = true)
      by (apply (in_range_items s fl HI); lia).
    destruct (insert_well_formed vector_grow s x (ex_intro _ fl HI) Hr)
      as [Hwf1 _].
    pose proof (insert_live vector_grow s fl sentinel x HI Hty Hr Htid)
      as (H0 & L1 & Hat1 & _ & Hsz).
    destruct (insert_frame vector_grow s fl sentinel x HI) as (Hit & Hid & _).
    set (h1 := fst (insert vector_grow s x)) in *.
    set (s1 := snd (insert vector_grow s x)) in *.
    destruct (IH s1) as (Hwf2 & Hlen & Hitems & Hnew & Hnd & Hframe).
    { done. }
    { by apply insert_entries_typed. }
    { by rewrite Hid. }
    { rewrite Hit, length_app. cbn. lia. }
    destruct (Hframe h1 H0 L1) as (L2 & Hat2 & Hnotin).
    split_and!.
    + done.
    + cbn. by rewrite Hlen.
    + rewrite Hitems, Hit, <- app_assoc. done.
    + intros [|i] h y Hh Hy; cbn in Hh, Hy.
      * injection Hh as <-. injection Hy as <-.
        split_and!; [done..|]. by rewrite Hat2.
      * by eapply Hnew.
    + cbn. by apply NoDup_cons.
    + intros h Hh0 L.
      destruct (insert_keeps vector_grow s fl sentinel x h HI Hh0 L)
        as (La & Hata & Hne).
      destruct (Hframe h Hh0 La) as (Lb & Hatb & Hnb).
      split_and!; [done|by rewrite Hatb|].
      cbn. apply not_elem_of_cons. split; [|done]. fold h1 in Hne. congruence.
Qed.

(** The handles issued while the free-list lasts: its outer indices,
    front to back, with the generations their entries hold. *)
Lemma insert_all_reuse_handles s fl xs :
  Inv s fl sentinel → (length xs ≤ length fl)%nat →
  fst (insert_all vector_grow s xs) =
    (λ k, mkId (Z.of_nat k) (gen_at s (Z.of_nat k))
               (typeId (ids_at (m_sparseIds s) (Z.of_nat k))) 0)
      <$> take (length xs) fl.
Proof.
  revert s fl. induction xs as [|x xs IH]; intros s fl HI Hlen; [done|].
  destruct fl as [|k fl]; [cbn in Hlen; lia|].
  rewrite insert_all_cons. cbn [fst length take fmap list_fmap].
  cbn [length] in Hlen.
  destruct (insert_reuse_Inv vector_grow s k fl sentinel x HI)
    as (_ & _ & _ & HI'). specialize (HI' ltac:(done)).
  assert (Hr : insert_in_range s = true).
  { unfold insert_in_range.
    destruct (Inv_front_cons _ _ _ _ HI) as (_ & -> & _). done. }
  destruct (insert_handle vector_grow s (k :: fl) sentinel x HI Hr)
    as (k0 & g & t & Hh & _ & Hother & Hcase).
  destruct Hcase as [(? & _)|(e & Hhd & He & _ & -> & ->)]; [done|].
  cbn in Hhd. injection Hhd as <-.
  f_equal.
  - rewrite Hh. unfold gen_at, ids_at. by rewrite Nat2Z.id, He.
  - rewrite (IH _ fl HI') by lia.
    apply list_eq. intros i. rewrite !list_lookup_fmap.
    destruct (take (length xs) fl !! i) as [k'|] eqn:Hk'; [|done]. cbn.
    assert (k' ≠ k) as Hne.
    { intros ->. pose proof (inv_nodup _ _ _ HI) as Hnd.
      apply NoDup_cons in Hnd as [Hnotin _]. apply Hnotin.
      apply list_elem_of_lookup_2 in Hk'. by eapply subseteq_take. }
    unfold gen_at, ids_at. rewrite Nat2Z.id. by rewrite (Hother k' Hne).
Qed.

End InsertAll.

(** X13: successive insertions into a well-formed container return one
    handle per item, of pairwise different outer indices, each live and
    resolving to its own item; the items are appended to the dense array
    in insertion order, and every handle that was live before stays on
    its item. *)
Theorem insert_all_round_trip {T : Type} (vector_grow : nat → nat)
    (s : @handle_map T) (xs : list T) :
  well_formed s → entries_typed s = true →
  wrap15 (m_itemTypeId s) = m_itemTypeId s →
  Z.of_nat (length (m_items s)) + Z.of_nat (length xs) ≤ sentinel →
  (let hs := fst (insert_all vector_grow s xs) in
   let s' := snd (insert_all vector_grow s xs) in
   well_formed s' ∧ length hs = length xs ∧
   m_items s' = m_items s ++ xs ∧
   (∀ i h x, hs !! i = Some h → xs !! i = Some x →
             live s' h ∧ at_ s' h = Some x) ∧
   NoDup (index <$> hs) ∧
   (∀ h, 0 ≤ index h → live s h → live s' h ∧ at_ s' h = at_ s h)).
Proof.
  intros Hwf Hty Htid Hroom. cbn zeta.
  destruct (insert_all_spec vector_grow xs s Hwf Hty Htid Hroom)
    as (Hwf' & Hlen & Hitems & Hnew & Hnd & Hframe).
  split_and!; [done..| |done|].
  - intros i h x Hh Hx. by destruct (Hnew i h x Hh Hx) as (_ & ? & ?).
  - intros h H0 L. by destruct (Hframe h H0 L) as (? & ? & _).
Qed.

(** The theorem on the container with outer index 0 free: 50 takes the
    free entry, 60 a new one; the dense array becomes 30, 20, 50, 60. *)
Lemma insert_all_round_trip_witness :
  m_items (snd (insert_all demo_grow demo_freed [50; 60])) =
    m_items demo_freed ++ [50; 60].
Proof.
  refine (proj1 (proj2 (proj2
            (insert_all_round_trip demo_grow demo_freed [50; 60]
               demo_freed_well_formed _ _ _)))).
  - reflexivity.
  - reflexivity.
  - vm_compute. discriminate.
Defined.

(** X14: after [clear], the outer indices are reissued in index order
    with the next generation.  On a well-formed, non-empty container
    whose type id fits a handle, the insertions that follow [clear]
    return the handles of outer index 0, 1, 2, ... whose generation is
    one more (modulo 2^16) than the entry's before, each live and
    resolving to its item, and the dense array holds exactly the new
    items. *)
Theorem clear_then_insert_all {T : Type} (vector_grow : nat → nat)
    (s : @handle_map T) (fl : list nat) (tail : Z) (xs : list T) :
  Inv s fl tail → entries_typed s = true →
  wrap15 (m_itemTypeId s) = m_itemTypeId s →
  (0 < length xs ≤ length (m_sparseIds s))%nat →
  (let hs := fst (insert_all vector_grow (clear s) xs) in
   let s' := snd (insert_all vector_grow (clear s) xs) in
   hs = (λ k, mkId (Z.of_nat k) (wrap16 (gen_at s (Z.of_nat k) + 1))
                   (m_itemTypeId s) 0) <$> seq 0 (length xs) ∧
   m_items s' = xs ∧
   (∀ i h x, hs !! i = Some h → xs !! i = Some x →
             live s' h ∧ at_ s' h = Some x)).
Proof.
  intros HI Hty Htid Hlen. cbn zeta.
  pose proof (inv_bound _ _ _ HI) as Hb.
  assert (Hne : m_sparseIds s ≠ []).
  { intros E. rewrite E in Hlen. cbn in Hlen. lia. }
  assert (HIc : Inv (clear s) (seq 0 (length (m_sparseIds s))) sentinel).
  { apply clear_Inv; [done|]. intros; done. }
  assert (Hspc : ∀ k e, m_sparseIds s !! k = Some e →
            ids_at (m_sparseIds (clear s)) (Z.of_nat k) =
              mkId (if decide (k = pred (length (m_sparseIds s)))
                    then sentinel else Z.of_nat k + 1)
                   (wrap16 (generation e + 1)) (typeId e) 1).
  { intros k e He. unfold ids_at.
    rewrite Nat2Z.id, (lookup_clear_sparse s k Hne Hb), He. done. }
  assert (Hidc : m_itemTypeId (clear s) = m_itemTypeId s).
  { by rewrite (clear_nonempty s Hne Hb). }
  assert (Htyc : entries_typed (clear s) = true).
  { apply entries_typed_intro. intros i e.
    rewrite (lookup_clear_sparse s i Hne Hb), Hidc.
    destruct (m_sparseIds s !! i) as [e0|] eqn:He0; [|done].
    cbn. intros [= <-]. cbn. by eapply entries_typed_lookup. }
  assert (Hitc : m_items (clear s) = []).
  { by rewrite (clear_nonempty s Hne Hb). }
  destruct (insert_all_spec vector_grow xs (clear s))
    as (_ & _ & Hitems & Hnew & _).
  { by eexists. }
  { done. }
  { by rewrite Hidc. }
  { rewrite Hitc. cbn. lia. }
  split_and!.
  - rewrite (insert_all_reuse_handles vector_grow (clear s) _ xs HIc)
      by (rewrite length_seq; lia).
    rewrite take_seq, Nat.min_l by lia.
    apply list_eq. intros i. rewrite !list_lookup_fmap.
    destruct (seq 0 (length xs) !! i) as [k|] eqn:Hk; [|done]. cbn.
    apply lookup_seq in Hk as [-> Hi]. cbn.
    destruct (lookup_lt_is_Some_2 (m_sparseIds s) i) as [e He]; [lia|].
    unfold gen_at. rewrite (Hspc i e He). cbn.
    unfold ids_at. rewrite Nat2Z.id, He. cbn.
    rewrite (entries_typed_lookup _ _ _ Hty He), Htid. done.
  - by rewrite Hitems, Hitc.
  - intros i h x Hh Hx. by destruct (Hnew i h x Hh Hx) as (_ & ? & ?).
Qed.

(** The theorem on the three-item container: after [clear], two items
    get the outer indices 0 and 1 with generation 2. *)
Lemma clear_then_insert_all_witness :
  fst (insert_all demo_grow (clear demo3) [70; 80]) =
    [mkId 0 2 3 0; mkId 1 2 3 0].
Proof.
  refine (proj1 (clear_then_insert_all demo_grow demo3 [] sentinel [70; 80]
                   demo3_Inv _ _ _)).
  - reflexivity.
  - reflexivity.
  - cbn. lia.
Defined.

(** * defragment: the budget, and the two paths without one *)

Section DefragBudget.
Context {T : Type}.
Variable comp : T → T → bool.
Variable maxSwaps : Z.
Implicit Types (a : @arrays T).

Lemma budget_left_lt (swaps : Z) :
  0 < maxSwaps → budget_left maxSwaps swaps = true → swaps < maxSwaps.
Proof.
  intros Hm. unfold budget_left. intros [H|H]%orb_true_iff.
  - apply Z.eqb_eq in H. lia.
  - by apply Z.ltb_lt.
Qed.

Lemma shift_standard_budget (tmp : T) (tmpMeta : Meta_T) (j1 : nat)
    (swaps : Z) a :
  0 < maxSwaps → swaps ≤ maxSwaps →
  swaps ≤ snd (fst (shift_standard comp maxSwaps tmp tmpMeta j1 swaps a))
        ≤ maxSwaps.
Proof.
  intros Hm. revert swaps a.
  induction j1 as [|j IH]; intros swaps a Hs; cbn [shift_standard].
  - cbn. lia.
  - destruct (budget_left maxSwaps swaps) eqn:Hb; cbn [andb]; [|cbn; lia].
    destruct (comp _ tmp); [|cbn; lia].
    pose proof (budget_left_lt swaps Hm Hb).
    match goal with |- context [shift_standard _ _ _ _ _ _ ?a1] =>
      specialize (IH (swaps + 1) a1 ltac:(lia)) end.
    lia.
Qed.

Lemma defrag_step_budget (tc : bool) (i : nat) (swaps : Z) a :
  0 < maxSwaps → swaps < maxSwaps →
  swaps ≤ fst (defrag_step comp maxSwaps tc i swaps a) ≤ maxSwaps.
Proof.
  intros Hm Hs. unfold defrag_step.
  destruct (a_items a !! i) as [tmp|]; [|cbn; lia].
  destruct (a_meta a !! i) as [tmpMeta|]; [|cbn; lia].
  destruct tc.
  - destruct (scan_trivial _ _ _ _ _ _ _) as [j1 sp].
    destruct (j1 =? i)%nat; cbn; lia.
  - pose proof (shift_standard_budget tmp tmpMeta i swaps a Hm ltac:(lia)).
    destruct (shift_standard _ _ _ _ _ _ _) as [[j1 swaps1] a1].
    cbn in *. destruct (j1 =? i)%nat; cbn; lia.
Qed.

Lemma defrag_loop_budget (tc : bool) (r i : nat) (swaps : Z) a :
  0 < maxSwaps → swaps ≤ maxSwaps →
  swaps ≤ snd (fst (defrag_loop comp maxSwaps tc r i swaps a)) ≤ maxSwaps.
Proof.
  intros Hm. revert i swaps a.
  induction r as [|r IH]; intros i swaps a Hs; cbn [defrag_loop].
  - cbn. lia.
  - destruct (budget_left maxSwaps swaps) eqn:Hb; [|cbn; lia].
    pose proof (budget_left_lt swaps Hm Hb) as Hlt.
    pose proof (defrag_step_budget tc i swaps a Hm Hlt).
    destruct (defrag_step comp maxSwaps tc i swaps a) as [swaps1 a1].
    cbn in *. specialize (IH (S i) swaps1 a1 ltac:(lia)). lia.
Qed.

(** On the trivially-copyable path every visited position costs at most
    one swap. *)
Lemma defrag_loop_fast_count (r i : nat) (swaps : Z) a :
  swaps ≤ snd (fst (defrag_loop comp maxSwaps true r i swaps a))
        ≤ swaps + Z.of_nat r.
Proof.
  revert i swaps a.
  induction r as [|r IH]; intros i swaps a; cbn [defrag_loop].
  - cbn. lia.
  - destruct (budget_left maxSwaps swaps); [|cbn; lia].
    assert (swaps ≤ fst (defrag_step comp maxSwaps true i swaps a)
            ≤ swaps + 1) as Hstep.
    { unfold defrag_step.
      destruct (a_items a !! i) as [tmp|]; [|cbn; lia].
      destruct (a_meta a !! i) as [tmpMeta|]; [|cbn; lia].
      destruct (scan_trivial _ _ _ _ _ _ _) as [j1 sp].
      destruct (j1 =? i)%nat; cbn; lia. }
    destruct (defrag_step comp maxSwaps true i swaps a) as [swaps1 a1].
    cbn in *. specialize (IH (S i) swaps1 a1). lia.
Qed.

End DefragBudget.

(** X11: [defragment] keeps to its budget.  With [maxSwaps > 0] the
    number of swaps it returns is between 0 and [maxSwaps], on both
    paths; on the trivially-copyable path it is, whatever the budget, at
    most the number of items less one. *)
Theorem defragment_within_budget {T : Type} (comp : T → T → bool)
    (maxSwaps : Z) (tc : bool) (s : @handle_map T) :
  (0 < maxSwaps → 0 ≤ fst (defragment comp maxSwaps tc s) ≤ maxSwaps) ∧
  0 ≤ fst (defragment comp maxSwaps true s) ≤ Z.of_nat (pred (size s)).
Proof.
  unfold defragment, size. split.
  - intros Hm. destruct (m_fragmented s =? 0); [cbn; lia|].
    pose proof (defrag_loop_budget comp maxSwaps tc (length (m_items s) - 1) 1 0
                  (mkArrays (m_items s) (m_meta s) (m_sparseIds s)) Hm ltac:(lia)).
    destruct (defrag_loop _ _ _ _ _ _ _) as [[i swaps] a]. cbn in *. lia.
  - destruct (m_fragmented s =? 0); [cbn; lia|].
    pose proof (defrag_loop_fast_count comp maxSwaps (length (m_items s) - 1) 1 0
                  (mkArrays (m_items s) (m_meta s) (m_sparseIds s))).
    destruct (defrag_loop _ _ _ _ _ _ _) as [[i swaps] a]. cbn in *. lia.
Qed.

(** The theorem on the three-item container with a budget of one swap. *)
Lemma defragment_within_budget_witness :
  0 ≤ fst (defragment Z.ltb 1 false demo3) ≤ 1.
Proof.
  refine (proj1 (defragment_within_budget Z.ltb 1 false demo3) _).
  reflexivity.
Defined.

Section DefragPaths.
Context {T : Type}.
Variable comp : T → T → bool.
Implicit Types (a : @arrays T).

(** Without a budget, one iteration leaves the same arrays on both
    paths; the standard path counts one swap for every place the item
    moves, the trivially-copyable path one for the item. *)
Lemma defrag_step_paths (i : nat) (swaps swaps' : Z) a :
  arrays_ok a → (i < length (a_items a))%nat → swaps ≤ swaps' →
  snd (defrag_step comp 0 true i swaps a) =
    snd (defrag_step comp 0 false i swaps' a) ∧
  fst (defrag_step comp 0 true i swaps a)
    ≤ fst (defrag_step comp 0 false i swaps' a) ∧
  ∃ j1 : nat, (j1 ≤ i)%nat ∧
    snd (defrag_step comp 0 true i swaps a) =
      mkArrays (relocate j1 i (a_items a)) (relocate j1 i (a_meta a))
               (remap j1 i (a_sparse a)).
Proof.
  intros Hok Hi Hs.
  destruct (lookup_lt_is_Some_2 (a_items a) i Hi) as [tmp Htmp].
  destruct (defrag_step_relocates comp 0 true a i swaps tmp Hok Htmp)
    as (jt & Hjt & Hsndt & Hfstt & Hallt & Hstopt).
  destruct (defrag_step_relocates comp 0 false a i swaps' tmp Hok Htmp)
    as (jf & Hjf & Hsndf & Hfstf & Hallf & Hstopf).
  assert (jt = jf) as <-.
  { destruct (Nat.lt_trichotomy jt jf) as [Hlt|[Heq|Hlt]]; [|done|].
    - destruct Hstopf as [->|[[_ Hb]|(y & Hy & Hc)]]; [lia|done|].
      rewrite (Hallt (pred jf) y ltac:(lia) Hy) in Hc. done.
    - destruct Hstopt as [->|[[Hb _]|(y & Hy & Hc)]]; [lia|done|].
      rewrite (Hallf (pred jt) y ltac:(lia) Hy) in Hc. done. }
  rewrite Hsndt, Hsndf, Hfstt, Hfstf. split_and!; [done| |eauto].
  case_decide; lia.
Qed.

Lemma defrag_loop_paths (r i : nat) (swaps swaps' : Z) a :
  arrays_ok a → (r = 0 ∨ i + r ≤ length (a_items a))%nat → swaps ≤ swaps' →
  snd (defrag_loop comp 0 true r i swaps a) =
    snd (defrag_loop comp 0 false r i swaps' a) ∧
  fst (fst (defrag_loop comp 0 true r i swaps a)) =
    fst (fst (defrag_loop comp 0 false r i swaps' a)) ∧
  snd (fst (defrag_loop comp 0 true r i swaps a))
    ≤ snd (fst (defrag_loop comp 0 false r i swaps' a)).
Proof.
  revert i swaps swaps' a.
  induction r as [|r IH]; intros i swaps swaps' a Hok Hr Hs;
    cbn [defrag_loop].
  - cbn. done.
  - destruct Hr as [|Hr]; [done|].
    change (budget_left 0 swaps) with true.
    change (budget_left 0 swaps') with true. cbn iota.
    destruct (defrag_step_paths i swaps swaps' a Hok ltac:(lia) Hs)
      as (Hsnd & Hfst & j1 & Hj & Hrel).
    destruct (defrag_step comp 0 true i swaps a) as [st at_].
    destruct (defrag_step comp 0 false i swaps' a) as [sf af].
    cbn [fst snd] in *. subst af. apply IH; [| |done].
    + rewrite Hrel. apply relocate_arrays_ok; [done|lia].
    + right. rewrite Hrel. cbn. rewrite length_relocate by lia. lia.
Qed.

End DefragPaths.

(** X12: without a budget the two paths of [defragment] agree.  On a
    well-formed container, [defragment(comp, 0)] leaves the same
    container whether or not the item type is trivially copyable; only
    the returned count differs, the trivially-copyable path never
    counting more. *)
Theorem defragment_paths_agree_unlimited {T : Type} (comp : T → T → bool)
    (s : @handle_map T) (fl : list nat) (tail : Z) :
  Inv s fl tail →
  snd (defragment comp 0 true s) = snd (defragment comp 0 false s) ∧
  fst (defragment comp 0 true s) ≤ fst (defragment comp 0 false s).
Proof.
  intros HI. unfold defragment.
  destruct (m_fragmented s =? 0); [done|].
  destruct (defrag_loop_paths comp (length (m_items s) - 1) 1 0 0
              (mkArrays (m_items s) (m_meta s) (m_sparseIds s)))
    as (Hsnd & Hi & Hsw).
  { by eapply Inv_arrays_ok. }
  { cbn. lia. }
  { done. }
  destruct (defrag_loop comp 0 true _ _ _ _) as [[it st] at_].
  destruct (defrag_loop comp 0 false _ _ _ _) as [[jf sf] af].
  cbn [fst snd] in *. by subst.
Qed.

(** The theorem on the three-item container, sorted in descending order
    by both paths: three shifts against two moved items. *)
Lemma defragment_paths_agree_unlimited_witness :
  snd (defragment Z.ltb 0 true demo3) = snd (defragment Z.ltb 0 false demo3) ∧
  fst (defragment Z.ltb 0 true demo3) ≤ fst (defragment Z.ltb 0 false demo3).
Proof.
  exact (defragment_paths_agree_unlimited Z.ltb demo3 [] sentinel demo3_Inv).
Defined.

(** * Histories: what every reachable container satisfies *)

(** X15: along a history of [insert], [erase], [clear] and [defragment]
    from a new container that stays within the contract, the container is
    well-formed, its free-list walk ends at the sentinel over exactly
    the free entries, and the free-list is empty exactly when every
    sparse entry is occupied; [isValid] accepts an issued handle only when its
    entry is occupied, and then [at] returns an item whose [Meta_T]
    record points back to the handle's outer index. *)
Theorem history_keeps_container_sound {T : Type} (vector_grow : nat → nat)
    (tc : bool) (itemTypeId : Z) (reserveCount : nat)
    (ops : list (@op T)) (tr : @tracked T) :
  run vector_grow tc ops
      (mkTracked (handle_map_new itemTypeId reserveCount) []) = Some tr →
  (let s := t_state tr in
   well_formed s ∧ free_list_ok s ∧
   (freeListEmpty s = true ↔ size s = length (m_sparseIds s)) ∧
   ∀ h, h ∈ t_issued tr → isValid s h = true →
     live s h ∧
     ∃ (p : nat) (x : T) (m : Meta_T),
       getInnerIndex s h = Some (Z.of_nat p) ∧ at_ s h = Some x ∧
       m_items s !! p = Some x ∧ m_meta s !! p = Some m ∧
       denseToSparse m = index h).
Proof.
  intros Hrun. cbn zeta.
  pose proof (run_history_ok vector_grow tc ops _ _
                (new_history_ok itemTypeId reserveCount) Hrun)
    as (Hwf & Hgen & HG).
  split; [done|]. split; [by apply well_formed_free_list_ok|].
  split.
  { destruct Hwf as [fl HI]. pose proof (inv_count _ _ _ HI) as Hc.
    unfold size. destruct fl as [|k fl].
    - rewrite (Inv_front_nil _ _ HI). cbn in Hc. split; [lia|done].
    - destruct (Inv_front_cons _ _ _ _ HI) as (_ & -> & _). cbn in Hc.
      split; [done|lia]. }
  intros h Hh Hv. destruct Hwf as [fl HI].
  destruct (HG h Hh) as (H0 & e & He & Hle & Hfree).
  assert (L : live (t_state tr) h).
  { split; [done|]. unfold ids_at. rewrite He. cbn.
    destruct (inv_freebit _ _ _ HI _ _ He) as [?|Hf1]; [done|].
    specialize (Hfree Hf1). pose proof (isValid_gen _ _ Hv) as Hg.
    unfold gen_at, ids_at in Hg. rewrite He in Hg. cbn in Hg. lia. }
  split; [done|].
  destruct (live_facts _ fl _ h HI H0 L)
    as (Hk & _ & _ & Hp & Hplt & (m & Hm & Hdm) & _).
  destruct (lookup_lt_is_Some_2 (m_items (t_state tr)) _ Hplt) as [x Hx].
  eexists _, x, m. split_and!.
  - unfold getInnerIndex. rewrite (checked_inner_valid _ _ Hv). cbn.
    by rewrite Hp.
  - by rewrite (at_valid _ _ Hv).
  - done.
  - done.
  - lia.
Qed.

(** The theorem on a short history: 10 and 20 inserted, the first handle
    erased, one [defragment]. *)
Lemma history_keeps_container_sound_witness :
  well_formed (t_state demo_hist) ∧ free_list_ok (t_state demo_hist).
Proof.
  refine (let H := history_keeps_container_sound demo_grow true 3 0
                     demo_hist_ops demo_hist _ in
          conj (proj1 H) (proj1 (proj2 H))).
  vm_compute. reflexivity.
Defined.

(** * The packed value and the reserved capacity *)

(** X16: the four fields are read back from the packed 64-bit value:
    [index] is its low 32 bits, [generation] the next 16, [typeId] the
    next 15 and [free] the top bit; only the null identifier packs to
    0. *)
Theorem value_fields_round_trip (a : Id_T) :
  Id_wf a →
  index a = value a mod 2 ^ 32 ∧
  generation a = (value a / 2 ^ 32) mod 2 ^ 16 ∧
  typeId a = (value a / 2 ^ 48) mod 2 ^ 15 ∧
  free a = value a / 2 ^ 63 ∧
  (value a = 0 ↔ a = NullId_T).
Proof.
  intros Hwf. pose proof (value_sum a Hwf) as Hv.
  destruct Hwf as (Hi & Hg & Ht & Hf).
  assert (Hfree : value a / 2 ^ 63 = free a).
  { symmetry. apply (Z.div_unique _ _ _
      (index a + 2 ^ 32 * generation a + 2 ^ 48 * typeId a)); lia. }
  assert (Htype : value a / 2 ^ 48 = typeId a + 2 ^ 15 * free a).
  { symmetry. apply (Z.div_unique _ _ _
      (index a + 2 ^ 32 * generation a)); lia. }
  assert (Hgen : value a / 2 ^ 32 =
                 generation a + 2 ^ 16 * (typeId a + 2 ^ 15 * free a)).
  { symmetry. apply (Z.div_unique _ _ _ (index a)); lia. }
  split_and!.
  - apply (Z.mod_unique _ _
      (generation a + 2 ^ 16 * (typeId a + 2 ^ 15 * free a))); lia.
  - rewrite Hgen.
    apply (Z.mod_unique _ _ (typeId a + 2 ^ 15 * free a)); lia.
  - rewrite Htype. apply (Z.mod_unique _ _ (free a)); lia.
  - done.
  - split.
    + intros H0. destruct a as [i g t f]. cbn in *. unfold NullId_T.
      f_equal; lia.
    + intros ->. reflexivity.
Qed.

(** The theorem at a handle of index 7, generation 2 and type id 3. *)
Lemma value_fields_round_trip_witness :
  generation (mkId 7 2 3 0) = (value (mkId 7 2 3 0) / 2 ^ 32) mod 2 ^ 16.
Proof.
  refine (proj1 (proj2 (value_fields_round_trip (mkId 7 2 3 0) _))).
  unfold Id_wf. cbn. lia.
Defined.

Section Reserve.
Context {T : Type}.
Implicit Types (s : @handle_map T).


End Reserve.


